(** * LLaMA-Mesh demo ([app.py]): mesh recolouring and chat streaming

    A shallow embedding of the two routines of [app.py] that carry logic,
    [apply_gradient_color] and [chat_llama3_8b], together with the parts of
    numpy, trimesh and the Python object model that they rely on.

    - numpy arrays of dtype float64 are lists over a scalar interface
      ([Scalar]); its instance [float64] is IEEE-754 binary64 (Rocq's
      primitive floats), the dtype trimesh gives to [mesh.vertices].  A second
      instance over the rationals reads the same code in exact arithmetic.
    - the file system touched by [apply_gradient_color] is a finite map from
      paths to file contents; trimesh's OBJ loader, its assignment of vertex
      colours and its GLB exporter are parameters.
    - the Python objects reachable from [history] live in a heap (a finite
      map from references to objects), so that aliasing and in-place updates
      ([list.extend], [list.append]) are visible.
    - the generator [chat_llama3_8b] is run to exhaustion: its result is the
      list of values it yields and the way it finishes.
    - [visualize_mesh], [optimize_memory] and [check_cuda_environment] are
      embedded as well; what they print and do to the outside is a list of
      effects, and a second view of the generator lists its events in
      program order. *)

From Stdlib Require Import Floats QArith Lqa ZArith Lia Ascii String Reals Lra.
From stdpp Require Import gmap strings list fin_maps pretty.

(* ===================================================================== *)
(** * Part I: definitions                                                 *)
(* ===================================================================== *)

(** ** numpy: element type and the array operations used by [app.py] *)

Module Numpy.

(** The operations of an array element type that [apply_gradient_color]
    reaches through numpy's ufuncs. *)
Class Scalar (T : Type) := {
  s_zero : T;
  s_one : T;
  s_sub : T -> T -> T;
  s_div : T -> T -> T;
  s_ltb : T -> T -> bool;
  s_leb : T -> T -> bool;
  s_isnan : T -> bool
}.

(** dtype float64: IEEE-754 binary64 with round-to-nearest-even. *)
#[export] Instance float64 : Scalar float := {
  s_zero := 0%float;
  s_one := 1%float;
  s_sub := PrimFloat.sub;
  s_div := PrimFloat.div;
  s_ltb := PrimFloat.ltb;
  s_leb := PrimFloat.leb;
  s_isnan := PrimFloat.is_nan
}.

(** Exact rational arithmetic: no rounding, no infinities, no NaN. *)
#[export] Instance exact : Scalar Q := {
  s_zero := 0%Q;
  s_one := 1%Q;
  s_sub := Qminus;
  s_div := Qdiv;
  s_ltb := fun a b => negb (Qle_bool b a);
  s_leb := Qle_bool;
  s_isnan := fun _ => false
}.

Section Arrays.
Context {T : Type} `{Scalar T}.

(** [np.minimum] / [np.maximum] on two scalars: a NaN in the accumulator
    is kept, a NaN in the new element fails the comparison and is taken.
    Of two elements that compare equal (zeros of either sign) the earlier
    one is kept here; numpy's vectorised loops may keep the other, so
    nothing below is stated about the sign of a zero minimum or maximum. *)
Definition minimum (a b : T) : T :=
  if s_leb a b || s_isnan a then a else b.

Definition maximum (a b : T) : T :=
  if s_leb b a || s_isnan a then a else b.

(** [a.min()] and [a.max()]: a left-to-right reduction; on an empty array
    numpy raises [ValueError] ([None]). *)
Definition amin (a : list T) : option T :=
  match a with
  | [] => None
  | x :: rest => Some (fold_left minimum rest x)
  end.

Definition amax (a : list T) : option T :=
  match a with
  | [] => None
  | x :: rest => Some (fold_left maximum rest x)
  end.

(** [np.zeros_like(a)] *)
Definition zeros_like (a : list T) : list T := map (fun _ => s_zero) a.

(** [np.zeros((n, k))]: [n] rows of [k] zeros. *)
Definition zeros (n k : nat) : list (list T) := replicate n (replicate k s_zero).

(** [a - c] and [a / c] with a scalar [c] broadcast over the array, and
    [c - a]. *)
Definition sub_scalar (a : list T) (c : T) : list T := map (fun x => s_sub x c) a.
Definition div_scalar (a : list T) (c : T) : list T := map (fun x => s_div x c) a.
Definition rsub_scalar (c : T) (a : list T) : list T := map (fun x => s_sub c x) a.

(** [m[:, j] = col] for a one-dimensional [col]: the shapes must agree,
    or [col] has a single element that is broadcast; anything else is a
    [ValueError] ([None]).  A column index outside the row leaves the
    row unchanged here; numpy raises [IndexError], which the callers
    below never trigger ([j < 4]). *)
Definition set_column (j : nat) (col : list T) (m : list (list T))
  : option (list (list T)) :=
  if decide (length col = length m) then
    Some (zip_with (fun x row => <[j := x]> row) col m)
  else
    match col with
    | [x] => Some (map (fun row => <[j := x]> row) m)
    | _ => None
    end.

(** [m[:, j] = c] for a scalar [c]. *)
Definition fill_column (j : nat) (c : T) (m : list (list T)) : list (list T) :=
  map (fun row => <[j := c]> row) m.
End Arrays.

End Numpy.

(** ** trimesh, the file system, and [apply_gradient_color] *)

Module Mesh.
Import Numpy.

(** What [apply_gradient_color] touches of a [trimesh.Trimesh]: the [(n, 3)]
    vertex array, the faces, and [visual.vertex_colors]. *)
Record Trimesh (T : Type) := mkTrimesh {
  vertices : list (T * T * T);
  faces : list (nat * nat * nat);
  vertex_colors : option (list (list T))
}.
Arguments mkTrimesh {T} _ _ _.
Arguments vertices {T} _.
Arguments faces {T} _.
Arguments vertex_colors {T} _.

(** [vertices[:, 1]] *)
Definition y_column {T} (vs : list (T * T * T)) : list T := map (fun v => snd (fst v)) vs.

(** Files are written in text mode (["w"]) or binary mode (["wb"]). *)
Inductive file_data :=
| TextFile (s : string)
| BinaryFile (b : list Byte.byte).

Section Gradient.
Context {T : Type} `{Scalar T}.

(** Lines 161-165:
    [(y - y.min()) / (y.max() - y.min()) if y.max() > y.min() else zeros_like(y)].
    [None] is the [ValueError] of [min]/[max] on an empty array. *)
Definition y_normalized (y_values : list T) : option (list T) :=
  match amax y_values, amin y_values with
  | Some y_max, Some y_min =>
      if s_ltb y_min y_max then
        Some (div_scalar (sub_scalar y_values y_min) (s_sub y_max y_min))
      else
        Some (zeros_like y_values)
  | _, _ => None
  end.

(** Lines 158-170: the colour array assigned to the mesh. *)
Definition gradient_colors (vs : list (T * T * T)) : option (list (list T)) :=
  let y_values := y_column vs in
  match y_normalized y_values with
  | None => None
  | Some y_norm =>
      let colors := zeros (length vs) 4 in
      match set_column 0 y_norm colors with
      | None => None
      | Some colors =>
          match set_column 2 (rsub_scalar s_one y_norm) colors with
          | None => None
          | Some colors => Some (fill_column 3 s_one colors)
          end
      end
  end.

(** trimesh's OBJ loader ([None]: it raised), its assignment
    [mesh.visual.vertex_colors = colors] (what the mesh keeps of the rows,
    and in which representation, is trimesh's business), and its GLB
    exporter. *)
Variable load_obj : string -> option (Trimesh T).
Variable set_vertex_colors : Trimesh T -> list (list T) -> Trimesh T.
Variable export_glb : Trimesh T -> list Byte.byte.

(** [trimesh.load_mesh(path, file_type="obj")] *)
Definition load_mesh (fs : gmap string file_data) (path : string) : option (Trimesh T) :=
  match fs !! path with
  | Some (TextFile s) => load_obj s
  | _ => None
  end.

(** [apply_gradient_color(mesh_text)], lines 145-178.  [temp_file] is the
    name [tempfile.NamedTemporaryFile(suffix="", delete=False)] picked;
    the file of that name is created empty.  The result is the returned
    path and the file system left behind; [None] when an exception
    escapes. *)
Definition apply_gradient_color (temp_file : string) (mesh_text : string)
    (fs : gmap string file_data) : option (string * gmap string file_data) :=
  let fs := <[temp_file := BinaryFile []]> fs in
  let fs := <[temp_file +:+ ".obj" := TextFile mesh_text]> fs in
  match load_mesh fs (temp_file +:+ ".obj") with
  | None => None
  | Some mesh =>
      match gradient_colors (vertices mesh) with
      | None => None
      | Some colors =>
          let mesh := set_vertex_colors mesh colors in
          let glb_path := temp_file +:+ ".glb" in
          let fs := <[glb_path := BinaryFile (export_glb mesh)]> fs in
          Some (glb_path, fs)
      end
  end.
End Gradient.

End Mesh.

(** ** The Python object model used by [chat_llama3_8b] *)

Module Python.

Definition ref := positive.

(** Values: strings are immutable and kept by value; lists, tuples and
    dicts are objects on the heap. *)
Inductive value :=
| VNone
| VStr (s : string)
| VRef (r : ref).

Inductive object :=
| OList (items : list value)
| OTuple (items : list value)
| ODict (entries : list (string * value)).

(** Exception classes that occur; the last two derive from
    [BaseException] only. *)
Inductive exc :=
| ValueError | TypeError | QueueEmpty | RuntimeError
| KeyboardInterrupt | SystemExit.

(** [isinstance(e, Exception)], the test of [except Exception]. *)
Definition isinstance_Exception (e : exc) : bool :=
  match e with
  | KeyboardInterrupt | SystemExit => false
  | _ => true
  end.

Inductive result (A : Type) :=
| Ok (a : A)
| Raise (e : exc).
Arguments Ok {A} _.
Arguments Raise {A} _.

(** Heap-passing computations that may raise; the heap survives a raise. *)
Definition M (A : Type) : Type := gmap ref object -> result A * gmap ref object.

Definition ret {A} (a : A) : M A := fun h => (Ok a, h).

Definition bind {A B} (m : M A) (k : A -> M B) : M B :=
  fun h =>
    match m h with
    | (Ok a, h') => k a h'
    | (Raise e, h') => (Raise e, h')
    end.

Definition raise {A} (e : exc) : M A := fun h => (Raise e, h).

Declare Scope py_scope.
Delimit Scope py_scope with py.
Notation "x <- c1 ;; c2" := (bind c1 (fun x => c2))
  (at level 100, c1 at next level, right associativity) : py_scope.
Notation "c1 ;;; c2" := (bind c1 (fun _ => c2))
  (at level 100, right associativity) : py_scope.
Local Open Scope py_scope.

(** A new object gets a reference not in use. *)
Definition alloc (o : object) : M ref :=
  fun h => let r := fresh (dom h) in (Ok r, <[r := o]> h).

Definition load (r : ref) : M object :=
  fun h =>
    match h !! r with
    | Some o => (Ok o, h)
    | None => (Raise RuntimeError, h)
    end.

Definition store (r : ref) (o : object) : M unit :=
  fun h => (Ok tt, <[r := o]> h).

(** The characters of a string, each a string of length one.  Strings are
    byte strings here: this is Python's iteration for ASCII text, while a
    character outside ASCII would come as its UTF-8 bytes. *)
Fixpoint chars (s : string) : list value :=
  match s with
  | EmptyString => []
  | String c rest => VStr (String c EmptyString) :: chars rest
  end.

(** The items an iteration over [v] visits: the elements of a list or
    tuple, the keys of a dict, the characters of a string; [None] is not
    iterable. *)
Definition iter_items (v : value) : M (list value) :=
  match v with
  | VNone => raise TypeError
  | VStr s => ret (chars s)
  | VRef r =>
      o <- load r ;;
      match o with
      | OList items | OTuple items => ret items
      | ODict entries => ret (map (fun kv => VStr (fst kv)) entries)
      end
  end.

(** [a, b = v] *)
Definition unpack2 (v : value) : M (value * value) :=
  items <- iter_items v ;;
  match items with
  | [a; b] => ret (a, b)
  | _ => raise ValueError
  end.

(** [l.extend(other)] and [l.append(x)]: in-place updates of the list
    object behind [l]. *)
Definition list_extend (l : ref) (other : value) : M unit :=
  new_items <- iter_items other ;;
  o <- load l ;;
  match o with
  | OList items => store l (OList (items ++ new_items))
  | _ => raise TypeError
  end.

Definition list_append (l : ref) (x : value) : M unit :=
  o <- load l ;;
  match o with
  | OList items => store l (OList (items ++ [x]))
  | _ => raise TypeError
  end.

(** [for x in v: body(x)]; the bodies below never touch the object they
    iterate over, so the iterator visits the items present at the start. *)
Fixpoint for_each (items : list value) (body : value -> M unit) : M unit :=
  match items with
  | [] => ret tt
  | x :: rest => body x ;;; for_each rest body
  end.

(** ["".join(parts)] *)
Definition join (parts : list string) : string := String.concat "" parts.

End Python.

(** ** [chat_llama3_8b] *)

Module Chat.
Import Python.
Local Open Scope py_scope.

(** [{"role": role, "content": content}] *)
Definition new_message (role : string) (content : value) : M ref :=
  alloc (ODict [("role", VStr role); ("content", content)]).

(** Lines 208-216. *)
Definition build_conversation (history message : value) : M ref :=
  conversation <- alloc (OList []) ;;
  pairs <- iter_items history ;;
  for_each pairs (fun pair =>
    ua <- unpack2 pair ;;
    d1 <- new_message "user" (fst ua) ;;
    d2 <- new_message "assistant" (snd ua) ;;
    two <- alloc (OList [VRef d1; VRef d2]) ;;
    list_extend conversation (VRef two)) ;;;
  d <- new_message "user" message ;;
  list_append conversation (VRef d) ;;;
  ret conversation.

(** The values of [generate_kwargs]. *)
Inductive kwarg (Tensor : Type) :=
| KTensor (t : Tensor)
| KStreamer
| KInt (n : Z)
| KBool (b : bool)
| KFloat (f : float)
| KIds (ids : list Z).
Arguments KTensor {Tensor} _.
Arguments KStreamer {Tensor}.
Arguments KInt {Tensor} _.
Arguments KBool {Tensor} _.
Arguments KFloat {Tensor} _.
Arguments KIds {Tensor} _.

(** How an iteration over the streamer ends: [StopIteration] after the
    stop signal, or an exception out of [__next__] (the queue's [Empty]
    after the 10 s timeout, or anything else). *)
Inductive stream_end :=
| StopIteration
| Raises (e : exc).

Definition error_suffix : string :=
  String "010"%char (String "010"%char "[Error during generation. Please try again.]").

(** Lines 250-258: the loop over the streamer inside [try], and the
    handler.  The result is the list of yielded values and the exception
    that escapes, if any. *)
Fixpoint stream_loop (chunks : list string) (fin : stream_end) (outputs : list string)
    : list string * option exc :=
  match chunks with
  | text :: rest =>
      let outputs := outputs ++ [text] in
      let '(ys, escaped) := stream_loop rest fin outputs in
      (join outputs :: ys, escaped)
  | [] =>
      match fin with
      | StopIteration => ([], None)
      | Raises e =>
          if isinstance_Exception e then ([join outputs +:+ error_suffix], None)
          else ([], Some e)
      end
  end.

(** Calls into the tokenizer and the model, in program order. *)
Inductive call (Tensor : Type) :=
| ApplyChatTemplate (conversation : ref)
| Generate (kwargs : gmap string (kwarg Tensor)).
Arguments ApplyChatTemplate {Tensor} _.
Arguments Generate {Tensor} _.

(** A generator run to exhaustion. *)
Record generator_run (Tensor : Type) := mkRun {
  yields : list string;
  escaped : option exc;
  calls : list (call Tensor)
}.
Arguments mkRun {Tensor} _ _ _.
Arguments yields {Tensor} _.
Arguments escaped {Tensor} _.
Arguments calls {Tensor} _.

Section Chat.
Variable Tensor : Type.

(** [tokenizer.apply_chat_template(conversation, return_tensors="pt")]
    moved to the model's device: it reads the conversation. *)
Variable apply_chat_template : gmap ref object -> ref -> result Tensor.

(** The module-level [terminators]. *)
Variable terminators : list Z.

(** What the consumer of the streamer observes once
    [model.generate] runs with [generate_kwargs] on its thread: the decoded
    chunks in queue order and the way the iteration ends. *)
Variable generation : gmap string (kwarg Tensor) -> list string * stream_end.

(** Lines 231-242. *)
Definition make_generate_kwargs (input_ids : Tensor) (temperature : float)
    (max_new_tokens : Z) : gmap string (kwarg Tensor) :=
  let generate_kwargs : gmap string (kwarg Tensor) :=
    <["eos_token_id" := KIds terminators]>
    (<["temperature" := KFloat temperature]>
    (<["do_sample" := KBool true]>
    (<["max_new_tokens" := KInt max_new_tokens]>
    (<["streamer" := KStreamer]>
    (<["input_ids" := KTensor input_ids]> ∅))))) in
  if (temperature =? 0)%float then <["do_sample" := KBool false]> generate_kwargs
  else generate_kwargs.

(** [chat_llama3_8b(message, history, temperature, max_new_tokens)],
    lines 192-261, iterated until the generator is exhausted.  The
    [print] calls and [optimize_memory()] leave no trace here. *)
Definition chat_llama3_8b (message history : value) (temperature : float)
    (max_new_tokens : Z) (h : gmap ref object)
    : generator_run Tensor * gmap ref object :=
  match build_conversation history message h with
  | (Raise e, h) => (mkRun [] (Some e) [], h)
  | (Ok conversation, h) =>
      match apply_chat_template h conversation with
      | Raise e => (mkRun [] (Some e) [ApplyChatTemplate conversation], h)
      | Ok input_ids =>
          let generate_kwargs :=
            make_generate_kwargs input_ids temperature max_new_tokens in
          let '(chunks, fin) := generation generate_kwargs in
          let '(ys, esc) := stream_loop chunks fin [] in
          (mkRun ys esc [ApplyChatTemplate conversation; Generate generate_kwargs], h)
      end
  end.
End Chat.

(** *** Reading a conversation back from the heap *)

Definition read_message (h : gmap ref object) (v : value) : option (value * value) :=
  match v with
  | VRef r =>
      match h !! r with
      | Some (ODict [(k1, role); (k2, content)]) =>
          if decide (k1 = "role" ∧ k2 = "content") then Some (role, content) else None
      | _ => None
      end
  | _ => None
  end.

Definition read_conversation (h : gmap ref object) (conversation : ref)
    : option (list (value * value)) :=
  match h !! conversation with
  | Some (OList items) => mapM (read_message h) items
  | _ => None
  end.

(** The conversation as the specification words it: each pair of the
    history expanded to a user entry and an assistant entry, then the new
    message as a user entry. *)
Definition spec_conversation (hist : list (value * value)) (message : value)
    : list (value * value) :=
  flat_map (fun p => [(VStr "user", fst p); (VStr "assistant", snd p)]) hist
    ++ [(VStr "user", message)].

(** [v] refers to a two-element list or tuple holding [p]. *)
Definition pair_repr (h : gmap ref object) (v : value) (p : value * value) : Prop :=
  ∃ r, v = VRef r ∧
    (h !! r = Some (OList [fst p; snd p]) ∨ h !! r = Some (OTuple [fst p; snd p])).

(** [v] refers to a list of such pairs. *)
Definition history_repr (h : gmap ref object) (v : value) (hist : list (value * value)) : Prop :=
  ∃ r items, v = VRef r ∧ h !! r = Some (OList items) ∧ Forall2 (pair_repr h) items hist.

End Chat.

(** ** Vocabulary of the statements *)

Module Spec.
Import Numpy Mesh Python Chat.

(** The row built for a vertex whose normalised height is [r]. *)
Definition color_row {T : Type} `{Scalar T} (r : T) : list T := [r; s_zero; s_sub s_one r; s_one].

(** Two floats denote the same coordinate when they are the same value or
    compare equal (zeros of either sign). *)
Definition same_coordinate (a b : float) : Prop := a = b ∨ (a =? b)%float = true.

(** Zeros and finite numbers: neither an infinity nor NaN. *)
Definition finite_or_zero (x : spec_float) : Prop :=
  match x with
  | S754_zero _ | S754_finite _ _ _ => True
  | _ => False
  end.

(** What the handler contributes, given everything received so far. *)
Definition handler_yields (fin : stream_end) (received : list string) : list string :=
  match fin with
  | Raises e =>
      if isinstance_Exception e then [join received +:+ error_suffix] else []
  | StopIteration => []
  end.

Definition handler_escape (fin : stream_end) : option exc :=
  match fin with
  | Raises e => if isinstance_Exception e then None else Some e
  | StopIteration => None
  end.

(** Every object of [h0] is still there, unchanged, in [h]. *)
Definition preserves (h0 h : gmap ref object) : Prop :=
  ∀ r, r ∈ dom h0 -> h !! r = h0 !! r.

(** A computation that never writes to an object of [h0]. *)
Definition frame_safe {A} (h0 : gmap ref object) (m : M A) : Prop :=
  ∀ h, preserves h0 h -> preserves h0 (m h).2.

(** The entries added for one pair of the history. *)
Definition expand (p : value * value) : list (value * value) :=
  [(VStr "user", fst p); (VStr "assistant", snd p)].

End Spec.

(** ** binary64 numbers as real numbers *)

Module Binary64.
Import Spec.
Local Open Scope R_scope.

(** Powers of two, and the value [m * 2^e] of a mantissa and exponent. *)
Definition bpow (e : Z) : R := powerRZ 2 e.

Definition F2R (m e : Z) : R := IZR m * bpow e.

(** What a comparison result says about two reals. *)
Definition cmp_spec (c : comparison) (a b : R) : Prop :=
  match c with
  | Lt => a < b
  | Eq => a = b
  | Gt => b < a
  end.

(** The position of [x] relative to [m * 2^e], as SpecFloat's [location]
    records it: on it, or strictly between it and [(m + 1) * 2^e], below, at
    or above the middle. *)
Definition inbetween (m e : Z) (x : R) (l : location) : Prop :=
  match l with
  | loc_Exact => x = F2R m e
  | loc_Inexact c =>
      F2R m e < x < F2R (m + 1) e ∧ cmp_spec c (2 * x) (F2R (2 * m + 1) e)
  end.

(** A positive mantissa at the exponent [fexp] gives to its binade. *)
Definition canonical (m e : Z) : Prop :=
  (0 < m)%Z ∧ fexp prec emax (Zdigits2 m + e) = e.

(** The nonnegative numbers of the format, without the bound on the
    exponent. *)
Definition in_format (v : R) : Prop :=
  v = 0 ∨ ∃ m e, canonical m e ∧ v = F2R m e.

(** [v] is a number of the format nearest to [x]. *)
Definition nearest (x v : R) : Prop :=
  in_format v ∧ ∀ g, in_format g -> Rabs (v - x) <= Rabs (g - x).

(** The mantissa and exponent [binary_round_aux] settles on before it
    checks for overflow. *)
Definition round_mantissa (m e : Z) (l : location) : Z * Z :=
  let r1 := shr_fexp prec emax m e l in
  let r2 := shr_fexp prec emax
              (round_nearest_even (shr_m r1.1) (loc_of_shr_record r1.1)) r1.2 loc_Exact in
  (shr_m r2.1, r2.2).

(** The real number a finite float stands for. *)
Definition SF2R (x : spec_float) : R :=
  match x with
  | S754_finite s m e => F2R (cond_Zopp s (Z.pos m)) e
  | _ => 0
  end.

(** What [binary_round_aux] returns for the mantissa and exponent it has
    settled on. *)
Definition result_of (m e : Z) (z : spec_float) : Prop :=
  match m with
  | Z0 => ∃ s, z = S754_zero s
  | Zpos p =>
      z = if (e <=? emax - prec)%Z then S754_finite false p e else S754_infinity false
  | Zneg _ => False
  end.

(** Ties go to the even mantissa: when [x] is halfway between a number with
    an odd mantissa and the next one, [v] is the next one. *)
Definition ties_to_even (x v : R) : Prop :=
  ∀ j e, canonical j e -> Z.odd j = true ->
    2 * x = F2R (2 * j + 1) e -> v = F2R (j + 1) e.

(** [z] is the (possibly overflowed) rounding of the nonnegative number [x]. *)
Definition rounds (x : R) (z : spec_float) : Prop :=
  ∃ m e, (m = 0%Z ∨ canonical m e) ∧ nearest x (F2R m e) ∧ result_of m e z
         ∧ ties_to_even x (F2R m e).

(** The real value of a float, and finiteness. *)
Definition B2R (a : float) : R := SF2R (Prim2SF a).

(** Neither an infinity nor NaN. *)
Definition finite64 (a : float) : Prop := finite_or_zero (Prim2SF a).

(** Two finite numbers with the same value are the same number or two
    zeros. *)
Definition same_value (x x' : spec_float) : Prop :=
  x = x' ∨ ∃ s s', x = S754_zero s ∧ x' = S754_zero s'.

(** Line 162 for one element: [(y - lo) / (hi - lo)]. *)
Definition red_of (lo hi y : float) : float := ((y - lo) / (hi - lo))%float.

End Binary64.

(** ** Concrete inputs *)

Module Demo.
Import Numpy Mesh Python Chat.

(** Three vertices at heights 0, 1 and 4. *)
Definition triangle : Trimesh float :=
  mkTrimesh [(0, 0, 0); (1, 1, 0); (0, 4, 0)]%float [(0, 1, 2)] None.

(** The same vertices over the rationals. *)
Definition triangle_exact : list (Q * Q * Q) :=
  [(0, 0, 0); (1, 1, 0); (0, 4, 0)]%Q.

(** Two vertices at height 2 and one at height 2 again. *)
Definition flat : Trimesh float :=
  mkTrimesh [(0, 2, 0); (1, 2, 0); (0, 2, 1)]%float [(0, 1, 2)] None.

(** Two vertices whose heights are finite but [2^1024] apart. *)
Definition tall : list (float * float * float) :=
  [(0, -0x1p+1023, 0); (0, 0x1p+1023, 0)]%float.

(** A loader that knows one text, and an exporter that writes the glTF
    magic and one byte per vertex. *)
Definition load_triangle (text : string) : option (Trimesh float) :=
  if decide (text = "v 0 0 0") then Some triangle else None.

Definition load_flat (text : string) : option (Trimesh float) :=
  if decide (text = "v 0 2 0") then Some flat else None.

Definition export_magic (mesh : Trimesh float) : list Byte.byte :=
  [Byte.x67; Byte.x6c; Byte.x54; Byte.x46] ++ map (fun _ => Byte.x00) (vertices mesh).

(** An assignment that keeps the rows as they are given. *)
Definition store_colors (mesh : Trimesh float) (colors : list (list float)) : Trimesh float :=
  mkTrimesh (vertices mesh) (faces mesh) (Some colors).

(** A history of two rounds, the first pair a list and the second a tuple. *)
Definition heap0 : gmap ref object :=
  <[1%positive := OList [VRef 2%positive; VRef 3%positive]]>
  (<[2%positive := OList [VStr "hi"; VStr "hello"]]>
  (<[3%positive := OTuple [VStr "make a cube"; VStr "v 0 0 0"]]> ∅)).

Definition history0 : list (value * value) :=
  [(VStr "hi", VStr "hello"); (VStr "make a cube", VStr "v 0 0 0")].

(** A tokenizer that always answers with the same three ids. *)
Definition template0 (h : gmap ref object) (conversation : ref) : result (list Z) :=
  Ok [128000; 882; 128007]%Z.

Definition terminators0 : list Z := [128001; 128009]%Z.

(** A generation that streams two chunks and stops, and one that times out
    after the first chunk. *)
Definition generation_ok (kw : gmap string (kwarg (list Z))) : list string * stream_end :=
  (["v 0 0"; " 0"], StopIteration).

Definition generation_timeout (kw : gmap string (kwarg (list Z))) : list string * stream_end :=
  (["v 0 0"], Raises QueueEmpty).

End Demo.

(** ** [visualize_mesh] *)

Module Viewer.
Import Mesh.

(** [visualize_mesh(mesh_text)], lines 181-189: the text is written to the
    fixed path ["temp_mesh.obj"] (mode ["w"] replaces what a file of that
    name held) and that path is returned. *)
Definition visualize_mesh (mesh_text : string) (fs : gmap string file_data)
    : string * gmap string file_data :=
  let temp_file := "temp_mesh.obj" in
  (temp_file, <[temp_file := TextFile mesh_text]> fs).

End Viewer.

(** ** The diagnostics: [optimize_memory] and [check_cuda_environment] *)

Module Diagnostics.
Import Python.

(** What the diagnostics do to the outside: a [print] (the text handed to
    it; strings are byte strings, non-ASCII characters in UTF-8), a garbage
    collection, a release of the CUDA cache. *)
Inductive effect :=
| Print (text : string)
| GcCollect
| CudaEmptyCache.

Definition is_print (e : effect) : bool :=
  match e with
  | Print _ => true
  | _ => false
  end.

(** What the interpreter, torch and the operating system answer when the
    diagnostics ask. *)
Record platform_info := mkPlatform {
  (** [sys.version] and [torch.__version__] *)
  python_version : string;
  torch_version : string;
  (** [torch.cuda.is_available()] *)
  cuda_available : bool;
  (** [torch.version.cuda], as [print] shows it *)
  cuda_version : string;
  (** [torch.cuda.get_device_name(i)] for [i < torch.cuda.device_count()] *)
  device_names : list string;
  (** [torch.cuda.current_device()] *)
  current_device : nat;
  (** [torch.cuda.memory_allocated()] and [memory_reserved()], in bytes *)
  memory_allocated : Z;
  memory_reserved : Z;
  (** the exception raised by the tensor operations of lines 43-46, if any *)
  tensor_test : option exc;
  (** [sys.platform] *)
  sys_platform : string;
  (** [subprocess.check_output("nvidia-smi", shell=True)] *)
  nvidia_smi : result (list Byte.byte)
}.

Section Diagnostics.

(** [f"{n / 1024**2:.2f}"] for a number of bytes [n], [str(e)] for an
    exception, and [bytes.decode("utf-8")] ([None]: [UnicodeDecodeError]). *)
Variable format_mb : Z -> string.
Variable exc_text : exc -> string.
Variable decode_utf8 : list Byte.byte -> option string.


(** The two [print] calls shared by lines 39-40 and 73-74. *)
Definition memory_lines (p : platform_info) : list effect :=
  [Print ("GPU memory allocated: " +:+ format_mb (memory_allocated p) +:+ " MB");
   Print ("GPU memory reserved: " +:+ format_mb (memory_reserved p) +:+ " MB")].

(** [optimize_memory()], lines 66-74. *)
Definition optimize_memory (p : platform_info) : list effect :=
  GcCollect ::
  (if cuda_available p then CudaEmptyCache :: memory_lines p else []).






End Diagnostics.

End Diagnostics.

(** ** [chat_llama3_8b], event by event *)

Module ChatEvents.
Import Python Chat Spec Diagnostics.

(** What a run of the generator does, in program order: effects on the
    outside, calls into the tokenizer and the model, and the values
    yielded. *)
Inductive event (Tensor : Type) :=
| Effect (e : effect)
| Called (c : call Tensor)
| Yielded (s : string).
Arguments Effect {Tensor} _.
Arguments Called {Tensor} _.
Arguments Yielded {Tensor} _.

Definition yields_of {Tensor} (evs : list (event Tensor)) : list string :=
  omap (fun ev => match ev with Yielded s => Some s | _ => None end) evs.

Definition calls_of {Tensor} (evs : list (event Tensor)) : list (call Tensor) :=
  omap (fun ev => match ev with Called c => Some c | _ => None end) evs.

Definition effects_of {Tensor} (evs : list (event Tensor)) : list effect :=
  omap (fun ev => match ev with Effect e => Some e | _ => None end) evs.

Section ChatEvents.
Variable Tensor : Type.
Variable apply_chat_template : gmap ref object -> ref -> result Tensor.
Variable terminators : list Z.
Variable generation : gmap string (kwarg Tensor) -> list string * stream_end.

(** [str(next(model.parameters()).device)], [str(input_ids.shape)],
    [str(e)], and the formatting and platform of [optimize_memory]. *)
Variable device_text : string.
Variable shape_text : Tensor -> string.
Variable exc_text : exc -> string.
Variable format_mb : Z -> string.
Variable platform : platform_info.

(** Lines 250-258 with the handler's [print]. *)
Fixpoint stream_events (chunks : list string) (fin : stream_end) (outputs : list string)
    : list (event Tensor) * option exc :=
  match chunks with
  | text :: rest =>
      let outputs := outputs ++ [text] in
      let '(evs, escaped) := stream_events rest fin outputs in
      (Yielded (join outputs) :: evs, escaped)
  | [] =>
      match fin with
      | StopIteration => ([], None)
      | Raises e =>
          if isinstance_Exception e then
            ([Effect (Print ("Error during streaming: " +:+ exc_text e));
              Yielded (join outputs +:+ error_suffix)], None)
          else ([], Some e)
      end
  end.

(** Lines 192-261, iterated until the generator is exhausted: the events,
    the exception that escapes, and the heap left behind. *)
Definition chat_llama3_8b_events (message history : value) (temperature : float)
    (max_new_tokens : Z) (h : gmap ref object)
    : list (event Tensor) * option exc * gmap ref object :=
  let started := [Effect (Print ("Model is on device: " +:+ device_text))] in
  match build_conversation history message h with
  | (Raise e, h) => (started, Some e, h)
  | (Ok conversation, h) =>
      match apply_chat_template h conversation with
      | Raise e => (started ++ [Called (ApplyChatTemplate conversation)], Some e, h)
      | Ok input_ids =>
          let generate_kwargs :=
            make_generate_kwargs Tensor terminators input_ids temperature max_new_tokens in
          let '(chunks, fin) := generation generate_kwargs in
          let '(streamed, escaped) := stream_events chunks fin [] in
          let cleanup :=
            match escaped with
            | None => map Effect (optimize_memory format_mb platform)
            | Some _ => []
            end in
          (started
           ++ [Called (ApplyChatTemplate conversation);
               Effect (Print ("Input shape: " +:+ shape_text input_ids));
               Effect (Print "Starting generation...");
               Called (Generate generate_kwargs)]
           ++ streamed ++ cleanup,
           escaped, h)
      end
  end.

End ChatEvents.

(** *** Entries of the history that unpack *)

(** [a, b = v] succeeds with [p] on every heap that keeps the objects of
    [h]. *)
Definition unpacks (h : gmap ref object) (v : value) (p : value * value) : Prop :=
  ∀ h', preserves h h' -> unpack2 v h' = (Ok p, h').

(** [v] refers to a dict with exactly the keys ["role"] and ["content"], in
    that order: an entry of a history in the "messages" format. *)
Definition message_dict (h : gmap ref object) (v : value) : Prop :=
  ∃ r role content,
    v = VRef r ∧ h !! r = Some (ODict [("role", role); ("content", content)]).

(** [v] refers to a list or tuple whose length is not two. *)
Definition not_a_pair (h : gmap ref object) (v : value) : Prop :=
  ∃ r items,
    v = VRef r ∧ (h !! r = Some (OList items) ∨ h !! r = Some (OTuple items))
    ∧ length items ≠ 2.

End ChatEvents.

(** ** More concrete inputs *)

Module Samples.
Import Numpy Mesh Python Chat Diagnostics.

(** A mesh with one vertex whose height is not a number. *)
Definition with_nan : list (float * float * float) :=
  [(0, 1, 0); (1, nan, 0); (0, 3, 1)]%float.

(** A history whose second entry has three fields. *)
Definition heap_triple : gmap ref object :=
  <[1%positive := OList [VRef 2%positive; VRef 3%positive]]>
  (<[2%positive := OList [VStr "hi"; VStr "hello"]]>
  (<[3%positive := OTuple [VStr "a"; VStr "b"; VStr "c"]]> ∅)).

(** A history in the "messages" format. *)
Definition heap_messages : gmap ref object :=
  <[1%positive := OList [VRef 2%positive; VRef 3%positive]]>
  (<[2%positive := ODict [("role", VStr "user"); ("content", VStr "hi")]]>
  (<[3%positive := ODict [("role", VStr "assistant"); ("content", VStr "hello")]]> ∅)).

(** A generation interrupted from the keyboard after the first chunk. *)
Definition generation_interrupted (kw : gmap string (kwarg (list Z)))
    : list string * stream_end :=
  (["v 0 0"], Raises KeyboardInterrupt).

End Samples.

(* ===================================================================== *)
(** * Part II: properties                                                 *)
(* ===================================================================== *)

Import Numpy Mesh Python Chat Spec Binary64.

(** ** The streaming loop *)

Section Streaming.

Lemma string_app_cons (c : ascii) (a b : string) :
  String c a +:+ b = String c (a +:+ b).
Proof. reflexivity. Qed.

Lemma string_app_assoc (a b c : string) : (a +:+ b) +:+ c = a +:+ (b +:+ c).
Proof.
  induction a as [|ch a IH]; [done |].
  by rewrite !string_app_cons, IH.
Qed.

Lemma string_app_nil_r (a : string) : a +:+ "" = a.
Proof.
  induction a as [|ch a IH]; [done |].
  by rewrite string_app_cons, IH.
Qed.

Lemma join_cons (x : string) (l : list string) : join (x :: l) = x +:+ join l.
Proof.
  destruct l as [|y l]; [| done].
  unfold join. simpl. by rewrite string_app_nil_r.
Qed.

Lemma join_app (l1 l2 : list string) : join (l1 ++ l2) = join l1 +:+ join l2.
Proof.
  induction l1 as [|x l1 IH]; [done |].
  rewrite <- app_comm_cons, !join_cons, IH. by rewrite string_app_assoc.
Qed.

(** The loop yields the running concatenation after every chunk, then
    whatever the handler adds. *)
Lemma stream_loop_spec (chunks : list string) (fin : stream_end) (outputs : list string) :
  stream_loop chunks fin outputs =
    (map (fun k => join (outputs ++ take k chunks)) (seq 1 (length chunks))
       ++ handler_yields fin (outputs ++ chunks),
     handler_escape fin).
Proof.
  revert outputs. induction chunks as [|text rest IH]; intros outputs.
  - simpl. rewrite app_nil_r. destruct fin as [|e]; [done |].
    simpl. by destruct (isinstance_Exception e).
  - simpl. rewrite IH. f_equal.
    rewrite <- (app_assoc outputs [text] rest). simpl. f_equal.
    f_equal. rewrite <- (seq_shift _ 1), map_map. apply map_ext. intros k.
    by rewrite <- (app_assoc outputs [text]).
Qed.

Lemma stream_loop_lookup (chunks : list string) (fin : stream_end) (k : nat) :
  k < length chunks ->
  (stream_loop chunks fin []).1 !! k = Some (join (take (S k) chunks)).
Proof.
  intros Hk. rewrite stream_loop_spec. simpl fst.
  rewrite lookup_app_l by (by rewrite length_map, length_seq).
  rewrite list_lookup_fmap, lookup_seq_lt by done. done.
Qed.

End Streaming.

(** ** The heap: what a computation may change *)

Section Frame.
Local Open Scope py_scope.

Lemma preserves_refl h : preserves h h.
Proof. by intros r _. Qed.

Lemma preserves_dom h0 h r : preserves h0 h -> r ∈ dom h0 -> r ∈ dom h.
Proof.
  intros Hp Hr. apply elem_of_dom. rewrite (Hp r Hr). by apply elem_of_dom.
Qed.

Lemma preserves_insert_outside h0 h r o :
  r ∉ dom h0 -> preserves h0 h -> preserves h0 (<[r := o]> h).
Proof.
  intros Hr Hp r' Hr'. rewrite lookup_insert_ne; [by apply Hp |].
  intros ->. done.
Qed.

Lemma frame_ret {A} h0 (a : A) : frame_safe h0 (ret a).
Proof. by intros h Hp. Qed.

Lemma frame_raise {A} h0 e : frame_safe h0 (@raise A e).
Proof. by intros h Hp. Qed.

Lemma frame_bind {A B} h0 (m : M A) (k : A -> M B) :
  frame_safe h0 m -> (∀ a, frame_safe h0 (k a)) -> frame_safe h0 (bind m k).
Proof.
  intros Hm Hk h Hp. unfold bind. specialize (Hm h Hp).
  destruct (m h) as [[a|e] h']; simpl in *; [by apply Hk | done].
Qed.

Lemma frame_alloc h0 o : frame_safe h0 (alloc o).
Proof.
  intros h Hp. unfold alloc. simpl.
  apply preserves_insert_outside; [| done].
  intros Hin. apply (is_fresh (dom h)). by eapply preserves_dom.
Qed.

Lemma frame_load h0 r : frame_safe h0 (load r).
Proof. intros h Hp. unfold load. by destruct (h !! r). Qed.

Lemma frame_store h0 r o : r ∉ dom h0 -> frame_safe h0 (store r o).
Proof. intros Hr h Hp. unfold store. simpl. by apply preserves_insert_outside. Qed.

Lemma frame_iter_items h0 v : frame_safe h0 (iter_items v).
Proof.
  destruct v as [|s|r]; simpl;
    [apply frame_raise | apply frame_ret |].
  apply frame_bind; [apply frame_load |].
  intros [items|items|entries]; apply frame_ret.
Qed.

Lemma frame_unpack2 h0 v : frame_safe h0 (unpack2 v).
Proof.
  apply frame_bind; [apply frame_iter_items |].
  intros [|a [|b [|c items]]]; first [apply frame_raise | apply frame_ret].
Qed.

Lemma frame_list_extend h0 l other :
  l ∉ dom h0 -> frame_safe h0 (list_extend l other).
Proof.
  intros Hl. apply frame_bind; [apply frame_iter_items |]. intros new_items.
  apply frame_bind; [apply frame_load |].
  intros [items|items|entries]; first [by apply frame_store | apply frame_raise].
Qed.

Lemma frame_list_append h0 l x :
  l ∉ dom h0 -> frame_safe h0 (list_append l x).
Proof.
  intros Hl. apply frame_bind; [apply frame_load |].
  intros [items|items|entries]; first [by apply frame_store | apply frame_raise].
Qed.

Lemma frame_for_each h0 items body :
  (∀ x, frame_safe h0 (body x)) -> frame_safe h0 (for_each items body).
Proof.
  intros Hbody. induction items as [|x items IH]; simpl.
  - apply frame_ret.
  - apply frame_bind; [apply Hbody | by intros _].
Qed.

Lemma frame_new_message h0 role content : frame_safe h0 (new_message role content).
Proof. apply frame_alloc. Qed.

Create HintDb frame.
#[local] Hint Resolve frame_ret frame_raise frame_alloc frame_load frame_store
  frame_iter_items frame_unpack2 frame_list_extend frame_list_append
  frame_new_message : frame.

(** [build_conversation] writes only to objects it has created itself. *)
Lemma build_conversation_frame history message h :
  preserves h (build_conversation history message h).2.
Proof.
  unfold build_conversation. unfold bind at 1. unfold alloc at 1.
  set (conversation := fresh (dom h)).
  assert (Hfresh : conversation ∉ dom h) by apply is_fresh.
  match goal with |- preserves _ (?m ?h').2 => assert (Hsafe : frame_safe h m) end.
  { apply frame_bind; [auto with frame |]. intros pairs.
    apply frame_bind.
    - apply frame_for_each. intros pair.
      do 4 (apply frame_bind; [auto with frame |]; intros ?).
      auto with frame.
    - intros _. do 2 (apply frame_bind; [auto with frame |]; intros ?).
      auto with frame. }
  apply Hsafe. apply preserves_insert_outside; [done | apply preserves_refl].
Qed.

(** Representation predicates only look at objects that are preserved. *)
Lemma pair_repr_preserved h0 h v p :
  preserves h0 h -> pair_repr h0 v p -> pair_repr h v p.
Proof.
  intros Hp (r & -> & Hr). exists r. split; [done |].
  assert (r ∈ dom h0) by (apply elem_of_dom; destruct Hr as [-> | ->]; eauto).
  by rewrite (Hp r).
Qed.

Lemma history_repr_preserved h0 h v hist :
  preserves h0 h -> history_repr h0 v hist -> history_repr h v hist.
Proof.
  intros Hp (r & items & -> & Hr & Hall). exists r, items.
  split; [done |]. split.
  - rewrite (Hp r); [done |]. apply elem_of_dom. eauto.
  - eapply Forall2_impl; [exact Hall |]. intros. by eapply pair_repr_preserved.
Qed.

End Frame.

(** ** Building the conversation *)

Section Conversation.
Local Open Scope py_scope.

Lemma bind_ok {A B} (m : M A) (k : A -> M B) h a h' :
  m h = (Ok a, h') -> bind m k h = k a h'.
Proof. intros Hm. unfold bind. by rewrite Hm. Qed.

Lemma run_unpack2_pair h v p : pair_repr h v p -> unpack2 v h = (Ok p, h).
Proof.
  intros (r & -> & Hr). destruct p as [a b]. unfold unpack2, bind. simpl.
  unfold bind, load. by destruct Hr as [-> | ->].
Qed.

Lemma run_list_extend h l other items new_items :
  h !! l = Some (OList items) ->
  h !! other = Some (OList new_items) ->
  list_extend l (VRef other) h = (Ok tt, <[l := OList (items ++ new_items)]> h).
Proof.
  intros Hl Ho. unfold list_extend, bind. simpl. unfold bind, load.
  rewrite Ho. unfold ret. by rewrite Hl.
Qed.

Lemma run_list_append h l x items :
  h !! l = Some (OList items) ->
  list_append l x h = (Ok tt, <[l := OList (items ++ [x])]> h).
Proof. intros Hl. unfold list_append, bind, load. by rewrite Hl. Qed.

(** The entry that [new_message] creates reads back as its role and
    content. *)
Lemma read_message_dict h r role content :
  h !! r = Some (ODict [("role", VStr role); ("content", content)]) ->
  read_message h (VRef r) = Some (VStr role, content).
Proof. intros Hr. unfold read_message. rewrite Hr. by rewrite decide_True. Qed.

(** Reading an entry depends on dict objects only. *)
Lemma read_message_stable h h' x m :
  (∀ r es, h !! r = Some (ODict es) -> h' !! r = Some (ODict es)) ->
  read_message h x = Some m -> read_message h' x = Some m.
Proof.
  intros Hd. destruct x as [| |r]; simpl; try done.
  destruct (h !! r) as [[| |es]|] eqn:Hr; try done.
  by rewrite (Hd r es Hr).
Qed.

(** One round of the loop body, on a heap where the pair is intact and
    [conversation] is a list. *)
Lemma loop_body_run h conversation items p pair :
  pair_repr h pair p ->
  h !! conversation = Some (OList items) ->
  ∃ (d1 d2 : ref) (h' : gmap ref object),
    (ua <- unpack2 pair ;;
     m1 <- new_message "user" (fst ua) ;;
     m2 <- new_message "assistant" (snd ua) ;;
     two <- alloc (OList [VRef m1; VRef m2]) ;;
     list_extend conversation (VRef two)) h = (Ok tt, h')
    ∧ h' !! conversation = Some (OList (items ++ [VRef d1; VRef d2]))
    ∧ h' !! d1 = Some (ODict [("role", VStr "user"); ("content", fst p)])
    ∧ h' !! d2 = Some (ODict [("role", VStr "assistant"); ("content", snd p)])
    ∧ (∀ r, r ∈ dom h -> r ≠ conversation -> h' !! r = h !! r).
Proof.
  intros Hpair Hconv.
  rewrite (bind_ok _ _ _ _ _ (run_unpack2_pair _ _ _ Hpair)).
  unfold new_message. unfold bind at 1, alloc at 1.
  set (d1 := fresh (dom h)).
  set (h1 := <[d1 := _]> h).
  unfold bind at 1, alloc at 1.
  set (d2 := fresh (dom h1)).
  set (h2 := <[d2 := _]> h1).
  unfold bind at 1, alloc at 1.
  set (two := fresh (dom h2)).
  set (h3 := <[two := _]> h2).
  assert (Hd1 : d1 ∉ dom h) by apply is_fresh.
  assert (Hd2 : d2 ∉ dom h1) by apply is_fresh.
  assert (Htwo : two ∉ dom h2) by apply is_fresh.
  assert (Hc : conversation ∈ dom h) by (apply elem_of_dom; eauto).
  unfold h2 in Htwo. unfold h1 in Hd2, Htwo.
  rewrite !dom_insert_L in Htwo. rewrite dom_insert_L in Hd2.
  assert (conversation ≠ d1) by (intros ->; done).
  assert (conversation ≠ d2) by (intros ->; set_solver).
  assert (conversation ≠ two) by (intros ->; set_solver).
  assert (d1 ≠ d2) by (intros E; rewrite <- E in Hd2; set_solver).
  assert (d1 ≠ two) by (intros E; rewrite <- E in Htwo; set_solver).
  assert (d2 ≠ two) by (intros E; rewrite <- E in Htwo; set_solver).
  assert (Hc3 : h3 !! conversation = Some (OList items)).
  { unfold h3, h2, h1. by rewrite !lookup_insert_ne. }
  assert (Ht3 : h3 !! two = Some (OList [VRef d1; VRef d2])).
  { unfold h3. by rewrite lookup_insert_eq. }
  rewrite (run_list_extend _ _ _ _ _ Hc3 Ht3).
  exists d1, d2. eexists. split; [reflexivity |].
  split; [by rewrite lookup_insert_eq |].
  split; [unfold h3, h2, h1; rewrite !lookup_insert_ne by done;
          by rewrite lookup_insert_eq |].
  split; [unfold h3, h2; rewrite !lookup_insert_ne by done;
          by rewrite lookup_insert_eq |].
  intros r Hr Hne. unfold h3, h2, h1.
  rewrite !lookup_insert_ne; [done | | | | done].
  - intros ->; done.
  - intros ->; set_solver.
  - intros ->; set_solver.
Qed.

(** The loop over the history appends, for each pair in order, its two
    entries, and leaves every other object alone. *)
Lemma loop_run h0 conversation pairs hist :
  conversation ∉ dom h0 ->
  Forall2 (pair_repr h0) pairs hist ->
  ∀ h items msgs,
    preserves h0 h ->
    h !! conversation = Some (OList items) ->
    Forall2 (λ x m, read_message h x = Some m) items msgs ->
    ∃ (h' : gmap ref object) (items' : list value),
      for_each pairs (fun pair =>
        ua <- unpack2 pair ;;
        d1 <- new_message "user" (fst ua) ;;
        d2 <- new_message "assistant" (snd ua) ;;
        two <- alloc (OList [VRef d1; VRef d2]) ;;
        list_extend conversation (VRef two)) h = (Ok tt, h')
      ∧ preserves h0 h'
      ∧ h' !! conversation = Some (OList items')
      ∧ Forall2 (λ x m, read_message h' x = Some m) items' (msgs ++ flat_map expand hist).
Proof.
  intros Hfresh Hall. induction Hall as [|pair p pairs hist Hp Hall IH];
    intros h items msgs Hpres Hconv Hread.
  - exists h, items. simpl. by rewrite app_nil_r.
  - simpl for_each.
    destruct (loop_body_run h conversation items p pair
                (pair_repr_preserved _ _ _ _ Hpres Hp) Hconv)
      as (d1 & d2 & h1 & Hrun & Hc1 & Hd1 & Hd2 & Hrest).
    rewrite (bind_ok _ _ _ _ _ Hrun).
    assert (Hpres1 : preserves h0 h1).
    { intros r Hr. rewrite Hrest; [by apply Hpres | by eapply preserves_dom |].
      intros ->; done. }
    assert (Hdict : ∀ r es, h !! r = Some (ODict es) -> h1 !! r = Some (ODict es)).
    { intros r es Hr. rewrite Hrest; [done | apply elem_of_dom; eauto |].
      intros ->. rewrite Hconv in Hr. done. }
    destruct (IH h1 (items ++ [VRef d1; VRef d2]) (msgs ++ expand p) Hpres1 Hc1)
      as (h' & items' & Hrun' & Hpres' & Hc' & Hread').
    { apply Forall2_app.
      - eapply Forall2_impl; [exact Hread |]. intros x m Hx.
        by eapply read_message_stable.
      - unfold expand. repeat constructor; by apply read_message_dict. }
    exists h', items'. repeat split; try done.
    change (flat_map expand (p :: hist)) with (expand p ++ flat_map expand hist).
    by rewrite app_assoc.
Qed.

(** On a history that is a list of pairs, [build_conversation] succeeds and
    the list it returns reads back as the specification's conversation;
    the objects that were there before are untouched. *)
Lemma build_conversation_run h history message hist :
  history_repr h history hist ->
  ∃ (conversation : ref) (h' : gmap ref object),
    build_conversation history message h = (Ok conversation, h')
    ∧ read_conversation h' conversation = Some (spec_conversation hist message)
    ∧ preserves h h'.
Proof.
  intros (r & pairs & -> & Hr & Hall).
  unfold build_conversation. unfold bind at 1, alloc at 1.
  set (conversation := fresh (dom h)).
  set (h1 := <[conversation := OList []]> h).
  assert (Hfresh : conversation ∉ dom h) by apply is_fresh.
  assert (Hne : conversation ≠ r).
  { intros E. apply Hfresh. rewrite E. apply elem_of_dom. eauto. }
  assert (Hpres1 : preserves h h1).
  { apply preserves_insert_outside; [done | apply preserves_refl]. }
  unfold bind at 1. simpl iter_items. unfold bind at 1, load.
  replace (h1 !! r) with (Some (OList pairs))
    by (unfold h1; by rewrite lookup_insert_ne).
  simpl.
  destruct (loop_run h conversation pairs hist Hfresh Hall h1 [] [] Hpres1)
    as (h2 & items & Hrun & Hpres2 & Hc2 & Hread2).
  { unfold h1. by rewrite lookup_insert_eq. }
  { constructor. }
  rewrite (bind_ok _ _ _ _ _ Hrun).
  unfold new_message. unfold bind at 1, alloc at 1.
  set (d := fresh (dom h2)).
  set (h3 := <[d := _]> h2).
  assert (Hd : d ∉ dom h2) by apply is_fresh.
  assert (Hcd : conversation ≠ d).
  { intros E. apply Hd. rewrite <- E. apply elem_of_dom. eauto. }
  assert (Hc3 : h3 !! conversation = Some (OList items)).
  { unfold h3. by rewrite lookup_insert_ne. }
  rewrite (bind_ok _ _ _ _ _ (run_list_append _ _ (VRef d) _ Hc3)).
  exists conversation. eexists. split; [reflexivity |]. split.
  - unfold read_conversation. rewrite lookup_insert_eq.
    apply mapM_Some. unfold spec_conversation. apply Forall2_app.
    + eapply Forall2_impl; [exact Hread2 |]. intros x m Hx.
      eapply read_message_stable; [| exact Hx].
      intros r' es Hr'.
      rewrite lookup_insert_ne by (intros <-; rewrite Hc2 in Hr'; done).
      unfold h3. rewrite lookup_insert_ne; [done |].
      intros <-. apply Hd. apply elem_of_dom. eauto.
    + repeat constructor. apply read_message_dict.
      rewrite lookup_insert_ne by done. unfold h3. by rewrite lookup_insert_eq.
  - apply preserves_insert_outside; [done |].
    unfold h3. apply preserves_insert_outside; [| done].
    intros Hin. apply Hd. by eapply preserves_dom.
Qed.

(** Shape of the specification's conversation. *)
Lemma spec_conversation_length hist message :
  length (spec_conversation hist message) = 2 * length hist + 1.
Proof.
  unfold spec_conversation. rewrite length_app. simpl.
  induction hist as [|p hist IH]; simpl in *; lia.
Qed.

Lemma spec_conversation_role hist message i m :
  spec_conversation hist message !! i = Some m ->
  fst m = VStr (if Nat.even i then "user" else "assistant").
Proof.
  unfold spec_conversation. revert i.
  induction hist as [|p hist IH]; intros i Hi.
  - destruct i as [|i]; simpl in Hi; [by inversion Hi | done].
  - destruct i as [|[|i]]; simpl in Hi; [by inversion Hi | by inversion Hi |].
    change (Nat.even (S (S i))) with (Nat.even i). by apply IH.
Qed.

Lemma spec_conversation_last hist message :
  last (spec_conversation hist message) = Some (VStr "user", message).
Proof. unfold spec_conversation. by rewrite last_snoc. Qed.

End Conversation.

(** ** [chat_llama3_8b] as a whole *)

Section ChatRun.
Variable Tensor : Type.
Variable apply_chat_template : gmap ref object -> ref -> result Tensor.
Variable terminators : list Z.
Variable generation : gmap string (kwarg Tensor) -> list string * stream_end.

#[local] Abbreviation chat := (chat_llama3_8b Tensor apply_chat_template terminators generation).
#[local] Abbreviation kwargs_of := (make_generate_kwargs Tensor terminators).

(** The heap a run leaves is the one [build_conversation] leaves. *)
Lemma chat_heap message history temperature max_new_tokens h :
  (chat message history temperature max_new_tokens h).2
  = (build_conversation history message h).2.
Proof.
  unfold chat_llama3_8b.
  destruct (build_conversation history message h) as [[conversation|e] h1]; [| done].
  destruct (apply_chat_template h1 conversation) as [input_ids|e]; [| done].
  destruct (generation _) as [chunks fin].
  by destruct (stream_loop chunks fin []) as [ys esc].
Qed.

(** A run that reaches the streaming loop. *)
Lemma chat_run_streaming message history temperature max_new_tokens h
    conversation h1 input_ids chunks fin :
  build_conversation history message h = (Ok conversation, h1) ->
  apply_chat_template h1 conversation = Ok input_ids ->
  generation (kwargs_of input_ids temperature max_new_tokens) = (chunks, fin) ->
  chat message history temperature max_new_tokens h =
    (mkRun (stream_loop chunks fin []).1 (stream_loop chunks fin []).2
       [ApplyChatTemplate conversation;
        Generate (kwargs_of input_ids temperature max_new_tokens)], h1).
Proof.
  intros Hb Ht Hg. unfold chat_llama3_8b. rewrite Hb, Ht, Hg.
  by destruct (stream_loop chunks fin []) as [ys esc].
Qed.

(** Every [model.generate] call of a run gets the kwargs of
    [make_generate_kwargs]. *)
Lemma chat_generate_call message history temperature max_new_tokens h kw :
  Generate kw ∈ calls (chat message history temperature max_new_tokens h).1 ->
  ∃ input_ids, kw = kwargs_of input_ids temperature max_new_tokens.
Proof.
  unfold chat_llama3_8b.
  destruct (build_conversation history message h) as [[conversation|e] h1];
    simpl; [| by intros ?%elem_of_nil].
  destruct (apply_chat_template h1 conversation) as [input_ids|e]; simpl.
  - destruct (generation _) as [chunks fin].
    destruct (stream_loop chunks fin []) as [ys esc]. simpl.
    intros Hin. exists input_ids.
    apply elem_of_cons in Hin as [Hin | Hin]; [done |].
    apply elem_of_cons in Hin as [Hin | Hin]; [by inversion Hin |].
    by apply elem_of_nil in Hin.
  - intros Hin. apply elem_of_cons in Hin as [Hin | Hin]; [done |].
    by apply elem_of_nil in Hin.
Qed.

Lemma kwargs_do_sample input_ids temperature max_new_tokens :
  kwargs_of input_ids temperature max_new_tokens !! "do_sample"
  = Some (KBool (negb (temperature =? 0)%float)).
Proof.
  unfold make_generate_kwargs. destruct (temperature =? 0)%float; simpl.
  - by rewrite lookup_insert_eq.
  - by repeat (rewrite lookup_insert_ne by done); rewrite lookup_insert_eq.
Qed.

Lemma kwargs_temperature input_ids temperature max_new_tokens :
  kwargs_of input_ids temperature max_new_tokens !! "temperature"
  = Some (KFloat temperature).
Proof.
  unfold make_generate_kwargs. destruct (temperature =? 0)%float;
    repeat (rewrite lookup_insert_ne by done); by rewrite lookup_insert_eq.
Qed.

Lemma join_take_prefix (chunks : list string) i j :
  i <= j -> ∃ t, join (take j chunks) = join (take i chunks) +:+ t.
Proof.
  intros Hij. exists (join (drop i (take j chunks))).
  rewrite <- join_app. f_equal.
  rewrite <- (take_drop i (take j chunks)) at 1.
  by rewrite take_take, Nat.min_l.
Qed.

End ChatRun.

(** ** numpy arrays and the colour array *)

Section GradientFacts.
Context {T : Type} `{Scalar T}.

Lemma minimum_cases (a b : T) : minimum a b = a ∨ minimum a b = b.
Proof. unfold minimum. destruct (s_leb a b || s_isnan a); auto. Qed.

Lemma maximum_cases (a b : T) : maximum a b = a ∨ maximum a b = b.
Proof. unfold maximum. destruct (s_leb b a || s_isnan a); auto. Qed.

Lemma fold_left_choice (f : T -> T -> T) (l : list T) (x : T) :
  (∀ a b, f a b = a ∨ f a b = b) -> fold_left f l x ∈ x :: l.
Proof.
  intros Hf. revert x. induction l as [|y l IH]; intros x; simpl.
  - apply list_elem_of_here.
  - specialize (IH (f x y)). apply elem_of_cons in IH as [-> | IH].
    + destruct (Hf x y) as [-> | ->]; [apply list_elem_of_here |].
      apply list_elem_of_further, list_elem_of_here.
    + by do 2 apply list_elem_of_further.
Qed.

(** The minimum and the maximum of an array are elements of it. *)
Lemma amin_elem (a : list T) (m : T) : amin a = Some m -> m ∈ a.
Proof.
  destruct a as [|x rest]; [done |]. intros [= <-].
  apply fold_left_choice, minimum_cases.
Qed.

Lemma amax_elem (a : list T) (m : T) : amax a = Some m -> m ∈ a.
Proof.
  destruct a as [|x rest]; [done |]. intros [= <-].
  apply fold_left_choice, maximum_cases.
Qed.

Lemma amin_is_Some (a : list T) : a ≠ [] -> is_Some (amin a).
Proof. destruct a; [done | by eexists]. Qed.

Lemma amax_is_Some (a : list T) : a ≠ [] -> is_Some (amax a).
Proof. destruct a; [done | by eexists]. Qed.

Lemma map_const_replicate {A B} (c : B) (l : list A) :
  map (fun _ => c) l = replicate (length l) c.
Proof. induction l as [|x l IH]; simpl; [done | by rewrite IH]. Qed.

Lemma zip_with_replicate_rows {A B C} (f : A -> B -> C) (l : list A) (c : B) :
  zip_with f l (replicate (length l) c) = map (fun x => f x c) l.
Proof. induction l as [|x l IH]; simpl; [done | by rewrite IH]. Qed.

Lemma zip_with_map_map {A B C D} (f : B -> C -> D) (g : A -> B) (k : A -> C) (l : list A) :
  zip_with f (map g l) (map k l) = map (fun x => f (g x) (k x)) l.
Proof. induction l as [|x l IH]; simpl; [done | by rewrite IH]. Qed.

Lemma set_column_same_length (j : nat) (col : list T) (m : list (list T)) :
  length col = length m ->
  set_column j col m = Some (zip_with (fun x row => <[j := x]> row) col m).
Proof. intros Hlen. unfold set_column. by rewrite decide_True. Qed.

Lemma y_normalized_length (ys yn : list T) :
  y_normalized ys = Some yn -> length yn = length ys.
Proof.
  unfold y_normalized.
  destruct (amax ys) as [y_max|], (amin ys) as [y_min|]; try done.
  destruct (s_ltb y_min y_max); intros [= <-].
  - unfold div_scalar, sub_scalar. by rewrite !length_map.
  - unfold zeros_like. by rewrite length_map.
Qed.

(** The three column assignments build one row per vertex. *)
Lemma gradient_colors_rows (vs : list (T * T * T)) (yn : list T) :
  y_normalized (y_column vs) = Some yn ->
  gradient_colors vs = Some (map color_row yn).
Proof.
  intros Hyn. pose proof (y_normalized_length _ _ Hyn) as Hlen.
  unfold y_column in Hlen. rewrite length_map in Hlen.
  unfold gradient_colors. rewrite Hyn. unfold zeros. rewrite <- Hlen.
  rewrite set_column_same_length by (by rewrite length_replicate).
  rewrite zip_with_replicate_rows.
  rewrite set_column_same_length
    by (unfold rsub_scalar; by rewrite !length_map).
  unfold rsub_scalar. rewrite zip_with_map_map.
  unfold fill_column. rewrite map_map. done.
Qed.

Lemma y_normalized_scaled (ys : list T) (y_min y_max : T) :
  amin ys = Some y_min -> amax ys = Some y_max -> s_ltb y_min y_max = true ->
  y_normalized ys
  = Some (map (fun y => s_div (s_sub y y_min) (s_sub y_max y_min)) ys).
Proof.
  intros Hmin Hmax Hlt. unfold y_normalized. rewrite Hmin, Hmax, Hlt.
  unfold div_scalar, sub_scalar. by rewrite map_map.
Qed.

Lemma y_normalized_flat (ys : list T) (y_min y_max : T) :
  amin ys = Some y_min -> amax ys = Some y_max -> s_ltb y_min y_max = false ->
  y_normalized ys = Some (zeros_like ys).
Proof. intros Hmin Hmax Hlt. unfold y_normalized. by rewrite Hmin, Hmax, Hlt. Qed.

(** On a mesh with at least one vertex the colours are defined, one row
    per vertex, each built from the vertex's normalised height. *)
Lemma gradient_colors_defined (vs : list (T * T * T)) :
  vs ≠ [] ->
  ∃ reds : list T,
    y_normalized (y_column vs) = Some reds
    ∧ gradient_colors vs = Some (map color_row reds)
    ∧ length reds = length vs.
Proof.
  intros Hne.
  assert (Hys : y_column vs ≠ []) by (unfold y_column; by destruct vs).
  destruct (amin_is_Some _ Hys) as [y_min Hmin].
  destruct (amax_is_Some _ Hys) as [y_max Hmax].
  assert (Hyn : is_Some (y_normalized (y_column vs))).
  { unfold y_normalized. rewrite Hmin, Hmax. by destruct (s_ltb y_min y_max). }
  destruct Hyn as [reds Hyn]. exists reds.
  split; [done |]. split; [by apply gradient_colors_rows |].
  rewrite (y_normalized_length _ _ Hyn). unfold y_column. by rewrite length_map.
Qed.

Variable load_obj : string -> option (Trimesh T).
Variable set_vertex_colors : Trimesh T -> list (list T) -> Trimesh T.
Variable export_glb : Trimesh T -> list Byte.byte.

(** A run of [apply_gradient_color] on a text the loader accepts. *)
Lemma apply_gradient_color_run temp_file mesh_text fs mesh colors :
  load_obj mesh_text = Some mesh ->
  gradient_colors (vertices mesh) = Some colors ->
  apply_gradient_color load_obj set_vertex_colors export_glb temp_file mesh_text fs
  = Some (temp_file +:+ ".glb",
          <[temp_file +:+ ".glb" := BinaryFile (export_glb (set_vertex_colors mesh colors))]>
            (<[temp_file +:+ ".obj" := TextFile mesh_text]>
              (<[temp_file := BinaryFile []]> fs))).
Proof.
  intros Hload Hcol. unfold apply_gradient_color, load_mesh.
  rewrite lookup_insert_eq, Hload, Hcol. done.
Qed.

End GradientFacts.

(** ** Comparisons of binary64 numbers *)

Section Float64Order.

(** IEEE equality relates two zeros of any sign, or a non-NaN number to
    itself. *)
Lemma SFeqb_inv (x y : spec_float) :
  SFeqb x y = true ->
  (∃ s1 s2, x = S754_zero s1 ∧ y = S754_zero s2) ∨ (x = y ∧ x ≠ S754_nan).
Proof.
  unfold SFeqb.
  destruct x as [sx|sx| |sx mx ex], y as [sy|sy| |sy my ey]; simpl; try done;
    try (by destruct sx); try (by destruct sy).
  - intros _. left. eauto.
  - destruct sx, sy; try done; intros _; right; by split.
  - destruct sx, sy; try done;
      destruct (Z.compare ex ey) eqn:He; try done;
      apply Z.compare_eq_iff in He as ->;
      destruct (Pos.compare_cont Eq mx my) eqn:Hm; try done;
      apply Pos.compare_eq_iff in Hm as ->; intros _; right; by split.
Qed.

Lemma SFltb_irrefl (x : spec_float) : SFltb x x = false.
Proof.
  unfold SFltb. destruct x as [sx|sx| |sx mx ex]; simpl; try done.
  - by destruct sx.
  - destruct sx; rewrite Z.compare_refl;
      change (Pos.compare_cont Eq mx mx) with (Pos.compare mx mx);
      by rewrite Pos.compare_refl.
Qed.

Lemma ltb_irrefl (x : float) : (x <? x)%float = false.
Proof. rewrite FloatAxioms.ltb_spec. apply SFltb_irrefl. Qed.

Lemma same_coordinate_spec (a b : float) :
  same_coordinate a b ->
  (∃ s1 s2, Prim2SF a = S754_zero s1 ∧ Prim2SF b = S754_zero s2) ∨ a = b.
Proof.
  intros [-> | Heq]; [by right |].
  rewrite FloatAxioms.eqb_spec in Heq.
  apply SFeqb_inv in Heq as [Hz | [Heq _]]; [by left | right].
  by apply Prim2SF_inj.
Qed.

(** Numbers that denote the same coordinate are not ordered by [<]. *)
Lemma same_coordinate_not_lt (a b v : float) :
  same_coordinate a v -> same_coordinate b v -> (a <? b)%float = false.
Proof.
  intros Ha Hb.
  apply same_coordinate_spec in Ha as [(s1 & s2 & Ha & Hv) | ->];
    apply same_coordinate_spec in Hb as [(s3 & s4 & Hb & Hv') | ->];
    rewrite FloatAxioms.ltb_spec.
  - by rewrite Ha, Hb.
  - by rewrite Ha, Hv.
  - by rewrite Hb, Hv'.
  - apply SFltb_irrefl.
Qed.

End Float64Order.

(** ** Exact arithmetic: the gradient over the rationals *)

Section ExactGradient.
Local Open Scope Q_scope.

Lemma exact_ltb_spec (a b : Q) : s_ltb a b = true <-> a < b.
Proof.
  simpl. rewrite negb_true_iff. split.
  - intros Hle. apply Qnot_le_lt. intros Hba.
    apply Qle_bool_iff in Hba. congruence.
  - intros Hlt. destruct (Qle_bool b a) eqn:Hba; [| done].
    apply Qle_bool_iff in Hba. exfalso. by apply (Qlt_not_le a b).
Qed.

Lemma exact_minimum_le (a b : Q) : minimum a b <= a ∧ minimum a b <= b.
Proof.
  unfold minimum. simpl. rewrite orb_false_r.
  destruct (Qle_bool a b) eqn:Hab.
  - apply Qle_bool_iff in Hab. split; [apply Qle_refl | done].
  - split; [| apply Qle_refl]. apply Qlt_le_weak, Qnot_le_lt.
    intros Hle. apply Qle_bool_iff in Hle. congruence.
Qed.

Lemma exact_maximum_ge (a b : Q) : a <= maximum a b ∧ b <= maximum a b.
Proof.
  unfold maximum. simpl. rewrite orb_false_r.
  destruct (Qle_bool b a) eqn:Hba.
  - apply Qle_bool_iff in Hba. split; [apply Qle_refl | done].
  - split; [| apply Qle_refl]. apply Qlt_le_weak, Qnot_le_lt.
    intros Hle. apply Qle_bool_iff in Hle. congruence.
Qed.

Lemma exact_fold_minimum_le (l : list Q) (x : Q) :
  fold_left minimum l x <= x ∧ ∀ y, y ∈ l -> fold_left minimum l x <= y.
Proof.
  revert x. induction l as [|z l IH]; intros x; simpl.
  - split; [apply Qle_refl | by intros y ?%elem_of_nil].
  - destruct (IH (minimum x z)) as [Hhd Htl].
    destruct (exact_minimum_le x z) as [Hx Hz].
    split; [by eapply Qle_trans |].
    intros y [-> | Hy]%elem_of_cons; [by eapply Qle_trans | by apply Htl].
Qed.

Lemma exact_fold_maximum_ge (l : list Q) (x : Q) :
  x <= fold_left maximum l x ∧ ∀ y, y ∈ l -> y <= fold_left maximum l x.
Proof.
  revert x. induction l as [|z l IH]; intros x; simpl.
  - split; [apply Qle_refl | by intros y ?%elem_of_nil].
  - destruct (IH (maximum x z)) as [Hhd Htl].
    destruct (exact_maximum_ge x z) as [Hx Hz].
    split; [by eapply Qle_trans |].
    intros y [-> | Hy]%elem_of_cons; [by eapply Qle_trans | by apply Htl].
Qed.

Lemma exact_amin_le (ys : list Q) (m y : Q) : amin ys = Some m -> y ∈ ys -> m <= y.
Proof.
  destruct ys as [|x rest]; [done |]. intros [= <-].
  destruct (exact_fold_minimum_le rest x) as [Hhd Htl].
  intros [-> | Hy]%elem_of_cons; [done | by apply Htl].
Qed.

Lemma exact_amax_ge (ys : list Q) (m y : Q) : amax ys = Some m -> y ∈ ys -> y <= m.
Proof.
  destruct ys as [|x rest]; [done |]. intros [= <-].
  destruct (exact_fold_maximum_ge rest x) as [Hhd Htl].
  intros [-> | Hy]%elem_of_cons; [done | by apply Htl].
Qed.

(** The scaled height of [y] between [lo] and [hi]. *)
Lemma scaled_bounds (lo hi y : Q) :
  lo < hi -> lo <= y -> y <= hi -> 0 <= (y - lo) / (hi - lo) <= 1.
Proof.
  intros Hlt Hlo Hhi. assert (Hd : 0 < hi - lo) by Lqa.lra. split.
  - apply Qle_shift_div_l; [done | Lqa.lra].
  - apply Qle_shift_div_r; [done | Lqa.lra].
Qed.

Lemma scaled_monotone (lo hi y y' : Q) :
  lo < hi -> y <= y' -> (y - lo) / (hi - lo) <= (y' - lo) / (hi - lo).
Proof.
  intros Hlt Hyy. assert (Hd : 0 < hi - lo) by Lqa.lra.
  unfold Qdiv. apply Qmult_le_compat_r; [Lqa.lra |].
  apply Qlt_le_weak, Qinv_lt_0_compat, Hd.
Qed.

Lemma scaled_at_min (lo hi y : Q) : lo < hi -> y == lo -> (y - lo) / (hi - lo) == 0.
Proof. intros Hlt ->. field. Lqa.lra. Qed.

Lemma scaled_at_max (lo hi y : Q) : lo < hi -> y == hi -> (y - lo) / (hi - lo) == 1.
Proof. intros Hlt ->. field. Lqa.lra. Qed.

End ExactGradient.

(** ** binary64: the two ends of the gradient *)

Section Float64Ends.

Lemma SF64sub_diag (x : spec_float) :
  finite_or_zero x -> SF64sub x x = S754_zero false.
Proof.
  destruct x as [s|s| |s m e]; simpl; try done; intros _.
  - by destruct s.
  - unfold SF64sub, SFsub. by rewrite Z.sub_diag.
Qed.

Lemma div_eucl_mul (a : Z) (m : positive) :
  Z.div_eucl (Z.pos m * a) (Z.pos m) = (a, 0%Z).
Proof.
  pose proof (Z.div_mul a (Z.pos m) ltac:(done)) as Hq.
  pose proof (Z.mod_mul a (Z.pos m) ltac:(done)) as Hr.
  rewrite (Z.mul_comm a) in Hq, Hr.
  unfold Z.div, Z.modulo in Hq, Hr.
  destruct (Z.div_eucl (Z.pos m * a) (Z.pos m)) as [q r]. by subst.
Qed.

(** A finite number divided by itself: the quotient of the mantissas is
    [2^53] with remainder [0], which rounds to [1]. *)
Lemma SF64div_diag (s : bool) (m : positive) (e : Z) :
  SF64div (S754_finite s m e) (S754_finite s m e) = Prim2SF 1.
Proof.
  unfold SF64div, SFdiv, SFdiv_core_binary.
  rewrite !Z.sub_diag.
  change (Z.min (fexp prec emax 0) 0) with (-53)%Z.
  change (0 - -53)%Z with 53%Z. cbv beta iota zeta.
  rewrite Z.shiftl_mul_pow2 by done.
  rewrite div_eucl_mul.
  replace (new_location (Z.pos m) 0) with loc_Exact.
  2:{ unfold new_location, new_location_even, new_location_odd.
      by destruct (Z.even (Z.pos m)). }
  rewrite xorb_nilpotent. by vm_compute.
Qed.

Lemma float_positive_finite (d : float) :
  (0 <? d)%float = true -> (d <? infinity)%float = true ->
  ∃ m e, Prim2SF d = S754_finite false m e.
Proof.
  rewrite !FloatAxioms.ltb_spec.
  change (Prim2SF 0) with (S754_zero false).
  change (Prim2SF infinity) with (S754_infinity false).
  unfold SFltb. destruct (Prim2SF d) as [s|s| |s m e]; simpl; try done.
  - by destruct s.
  - destruct s; [done |]. eauto.
Qed.

(** A finite difference has finite operands. *)
Lemma sub_finite_operands (x y : float) s m e :
  Prim2SF (x - y) = S754_finite s m e ->
  finite_or_zero (Prim2SF x) ∧ finite_or_zero (Prim2SF y).
Proof.
  rewrite FloatAxioms.sub_spec. unfold SF64sub, SFsub.
  destruct (Prim2SF x) as [sx|sx| |sx mx ex], (Prim2SF y) as [sy|sy| |sy my ey];
    simpl; try done; destruct sx, sy; done.
Qed.

Lemma float_sub_diag (x : float) : finite_or_zero (Prim2SF x) -> (x - x)%float = 0%float.
Proof.
  intros Hx. apply Prim2SF_inj. rewrite FloatAxioms.sub_spec.
  by rewrite SF64sub_diag.
Qed.

Lemma float_div_diag (d : float) :
  (0 <? d)%float = true -> (d <? infinity)%float = true -> (d / d)%float = 1%float.
Proof.
  intros Hpos Hfin. destruct (float_positive_finite d Hpos Hfin) as (m & e & Hd).
  apply Prim2SF_inj. rewrite FloatAxioms.div_spec, Hd. apply SF64div_diag.
Qed.

Lemma float_zero_div (d : float) :
  (0 <? d)%float = true -> (d <? infinity)%float = true -> (0 / d)%float = 0%float.
Proof.
  intros Hpos Hfin. destruct (float_positive_finite d Hpos Hfin) as (m & e & Hd).
  apply Prim2SF_inj. rewrite FloatAxioms.div_spec, Hd. done.
Qed.

(** With a positive finite range, the vertices at the minimum get red [0]
    and those at the maximum get red [1]. *)
Lemma float_scaled_ends (y_min y_max : float) :
  (0 <? y_max - y_min)%float = true ->
  (y_max - y_min <? infinity)%float = true ->
  ((y_min - y_min) / (y_max - y_min))%float = 0%float
  ∧ ((y_max - y_min) / (y_max - y_min))%float = 1%float.
Proof.
  intros Hpos Hfin.
  destruct (float_positive_finite _ Hpos Hfin) as (m & e & Hd).
  destruct (sub_finite_operands _ _ _ _ _ Hd) as [_ Hmin].
  split.
  - rewrite float_sub_diag by done. by apply float_zero_div.
  - by apply float_div_diag.
Qed.

End Float64Ends.

(** ** binary64: rounding to nearest is monotone *)

Section FloatValue.
Local Open Scope R_scope.


Lemma bpow_pos e : 0 < bpow e.
Proof. apply powerRZ_lt. lra. Qed.

Lemma bpow_add a b : bpow (a + b) = bpow a * bpow b.
Proof. apply powerRZ_add. lra. Qed.

Lemma bpow_0 : bpow 0 = 1.
Proof. reflexivity. Qed.

Lemma bpow_1 : bpow 1 = 2.
Proof. unfold bpow. simpl. lra. Qed.

Lemma bpow_succ e : bpow (e + 1) = 2 * bpow e.
Proof. rewrite bpow_add, bpow_1. lra. Qed.

Lemma bpow_IZR k : (0 <= k)%Z -> bpow k = IZR (2 ^ k).
Proof.
  revert k. apply natlike_ind.
  - reflexivity.
  - intros k Hk IH. unfold Z.succ. rewrite bpow_succ, IH.
    rewrite Z.pow_add_r by lia. rewrite mult_IZR. simpl. lra.
Qed.

Lemma bpow_ge_1 k : (0 <= k)%Z -> 1 <= bpow k.
Proof.
  intros Hk. rewrite bpow_IZR by done. apply IZR_le.
  pose proof (Z.pow_pos_nonneg 2 k ltac:(lia) Hk). lia.
Qed.

Lemma bpow_le a b : (a <= b)%Z -> bpow a <= bpow b.
Proof.
  intros Hab. replace b with (a + (b - a))%Z by lia. rewrite bpow_add.
  pose proof (bpow_pos a). pose proof (bpow_ge_1 (b - a) ltac:(lia)). nra.
Qed.

Lemma bpow_lt a b : (a < b)%Z -> bpow a < bpow b.
Proof.
  intros Hab. apply Rlt_le_trans with (bpow (a + 1)).
  - rewrite bpow_succ. pose proof (bpow_pos a). lra.
  - apply bpow_le. lia.
Qed.


Lemma F2R_shift m e k : (0 <= k)%Z -> F2R (m * 2 ^ k) e = F2R m (e + k).
Proof.
  intros Hk. unfold F2R. rewrite mult_IZR, <- bpow_IZR by done.
  rewrite bpow_add. lra.
Qed.

Lemma F2R_le m1 m2 e : (m1 <= m2)%Z -> F2R m1 e <= F2R m2 e.
Proof.
  intros H. unfold F2R. apply IZR_le in H. pose proof (bpow_pos e). nra.
Qed.

Lemma F2R_lt m1 m2 e : (m1 < m2)%Z -> F2R m1 e < F2R m2 e.
Proof.
  intros H. unfold F2R. apply IZR_lt in H. pose proof (bpow_pos e). nra.
Qed.

Lemma F2R_lt_inv m1 m2 e : F2R m1 e < F2R m2 e -> (m1 < m2)%Z.
Proof.
  intros H. destruct (Z_lt_le_dec m1 m2) as [|Hle]; [done |].
  apply (F2R_le _ _ e) in Hle. lra.
Qed.

Lemma F2R_le_inv m1 m2 e : F2R m1 e <= F2R m2 e -> (m1 <= m2)%Z.
Proof.
  intros H. destruct (Z_le_gt_dec m1 m2) as [|Hgt]; [done |].
  apply Z.gt_lt, (F2R_lt _ _ e) in Hgt. lra.
Qed.

Lemma digits2_size p : digits2_pos p = Pos.size p.
Proof. induction p; simpl; congruence. Qed.

Lemma digits_bounds (p : positive) :
  (2 ^ (Z.pos (digits2_pos p) - 1) <= Z.pos p < 2 ^ Z.pos (digits2_pos p))%Z.
Proof.
  rewrite digits2_size. split.
  - pose proof (Pos.size_le p) as H.
    assert (2 ^ Z.pos (Pos.size p) <= 2 * Z.pos p)%Z.
    { replace (2 * Z.pos p)%Z with (Z.pos p~0) by lia.
      rewrite <- Pos2Z.inj_pow. apply Pos2Z.pos_le_pos. exact H. }
    replace (Z.pos (Pos.size p)) with (Z.pos (Pos.size p) - 1 + 1)%Z in H0 by lia.
    rewrite Z.pow_add_r in H0 by lia. lia.
  - pose proof (Pos.size_gt p) as H. rewrite <- Pos2Z.inj_pow.
    apply Pos2Z.pos_lt_pos. exact H.
Qed.

End FloatValue.

Section Shr.
Local Open Scope R_scope.



Lemma loc_of_shr_record_of_loc m l :
  loc_of_shr_record (shr_record_of_loc m l) = l
  ∧ shr_m (shr_record_of_loc m l) = m.
Proof. by destruct l as [|[]]. Qed.

Lemma F2R_double m e : F2R (2 * m) e = F2R m (e + 1).
Proof. unfold F2R. rewrite mult_IZR, bpow_succ. lra. Qed.

Lemma F2R_plus m1 m2 e : F2R (m1 + m2) e = F2R m1 e + F2R m2 e.
Proof. unfold F2R. rewrite plus_IZR. lra. Qed.

Lemma F2R_one e : F2R 1 e = bpow e.
Proof. unfold F2R. lra. Qed.

(** One step of the right shift keeps the position of [x]. *)
Lemma shr_1_inbetween (mrs : shr_record) (e : Z) (x : R) :
  (0 <= shr_m mrs)%Z ->
  inbetween (shr_m mrs) e x (loc_of_shr_record mrs) ->
  inbetween (shr_m (shr_1 mrs)) (e + 1) x (loc_of_shr_record (shr_1 mrs))
  ∧ shr_m (shr_1 mrs) = (shr_m mrs / 2)%Z.
Proof.
  destruct mrs as [m r s]. simpl shr_m. intros Hm Hin.
  assert (Hcases : (m = 0 ∨ (∃ p, m = Z.pos p~0) ∨ (∃ p, m = Z.pos p~1) ∨ m = 1)%Z).
  { destruct m as [|[p|p|]|p]; try lia; eauto. }
  pose proof (bpow_pos e) as Hb.
  assert (Hinexact : r || s = true ->
            F2R m e < x < F2R (m + 1) e).
  { destruct r, s; simpl in *; try done; intros _; tauto. }
  assert (Hexact : r || s = false -> x = F2R m e).
  { destruct r, s; simpl in *; try done. }
  assert (Heven : ∀ q, m = (2 * q)%Z ->
            inbetween q (e + 1) x (loc_of_shr_record (Build_shr_record q false (r || s)))).
  { intros q ->. destruct (r || s) eqn:Hrs; simpl.
    - specialize (Hinexact eq_refl). revert Hinexact. unfold F2R.
      rewrite !plus_IZR, !mult_IZR, !bpow_succ. nra.
    - rewrite (Hexact eq_refl). unfold F2R. rewrite !mult_IZR, !bpow_succ. nra. }
  assert (Hodd : ∀ q, m = (2 * q + 1)%Z ->
            inbetween q (e + 1) x (loc_of_shr_record (Build_shr_record q true (r || s)))).
  { intros q ->. destruct (r || s) eqn:Hrs; simpl.
    - specialize (Hinexact eq_refl). revert Hinexact. unfold F2R.
      rewrite !plus_IZR, !mult_IZR, !bpow_succ. nra.
    - rewrite (Hexact eq_refl). unfold F2R.
      rewrite !plus_IZR, !mult_IZR, !bpow_succ. nra. }
  destruct Hcases as [-> | [[p ->] | [[p ->] | ->]]]; simpl shr_1.
  - split; [apply (Heven 0%Z); lia | done].
  - split; [apply (Heven (Z.pos p)); lia |]. simpl shr_m.
    rewrite Pos2Z.inj_xO. apply Z.div_unique with 0%Z; lia.
  - split; [apply (Hodd (Z.pos p)); lia |]. simpl shr_m.
    rewrite Pos2Z.inj_xI. apply Z.div_unique with 1%Z; lia.
  - split; [apply (Hodd 0%Z); lia | done].
Qed.

Lemma iter_pos_invariant {A} (f : A -> A) (I : Z -> A -> Prop) :
  (∀ k a, I k a -> I (k + 1)%Z (f a)) ->
  ∀ n k a, I k a -> I (k + Z.pos n)%Z (SpecFloat.iter_pos f n a).
Proof.
  intros Hstep. induction n as [n IH|n IH|]; intros k a Ha; simpl.
  - replace (k + Z.pos n~1)%Z with (k + 1 + Z.pos n + Z.pos n)%Z by lia.
    by apply IH, IH, Hstep.
  - replace (k + Z.pos n~0)%Z with (k + Z.pos n + Z.pos n)%Z by lia.
    by apply IH, IH.
  - by apply Hstep.
Qed.

(** Shifting right by [n] bits divides the mantissa by [2^n] and keeps the
    position of [x]. *)
Lemma shr_spec (mrs : shr_record) (e n : Z) (x : R) :
  (0 <= shr_m mrs)%Z ->
  inbetween (shr_m mrs) e x (loc_of_shr_record mrs) ->
  (0 <= shr_m (shr mrs e n).1)%Z
  ∧ inbetween (shr_m (shr mrs e n).1) (shr mrs e n).2 x
      (loc_of_shr_record (shr mrs e n).1)
  ∧ (shr mrs e n).2 = (e + Z.max n 0)%Z
  ∧ shr_m (shr mrs e n).1 = (shr_m mrs / 2 ^ Z.max n 0)%Z.
Proof.
  intros Hm Hin. destruct n as [|n|n]; simpl.
  - rewrite Z.add_0_r, Z.div_1_r. done.
  - pose (I := fun (k : Z) (a : shr_record) =>
        (0 <= k)%Z ∧ (0 <= shr_m a)%Z
        ∧ inbetween (shr_m a) (e + k) x (loc_of_shr_record a)
        ∧ shr_m a = (shr_m mrs / 2 ^ k)%Z).
    assert (Hstep : ∀ k a, I k a -> I (k + 1)%Z (shr_1 a)).
    { intros k a (Hk & Ha & Hina & Hdiv).
      destruct (shr_1_inbetween a (e + k) x Ha Hina) as [Hin' Hm'].
      split; [lia |]. split.
      - rewrite Hm'. apply Z.div_pos; lia.
      - split; [by rewrite Z.add_assoc |].
        rewrite Hm', Hdiv, Z.pow_add_r, Z.div_div by lia. done. }
    assert (H0 : I 0%Z mrs).
    { split; [lia |]. split; [done |]. split; [by rewrite Z.add_0_r |].
      by rewrite Z.div_1_r. }
    pose proof (iter_pos_invariant shr_1 I Hstep n 0%Z mrs H0) as (_ & H1 & H2 & H3).
    rewrite Z.add_0_l in *. done.
  - rewrite Z.add_0_r, Z.div_1_r. done.
Qed.

Lemma shr_fexp_spec (m e : Z) (l : location) (x : R) :
  (0 <= m)%Z ->
  inbetween m e x l ->
  let n := Z.max (fexp prec emax (Zdigits2 m + e) - e) 0 in
  let r := shr_fexp prec emax m e l in
  (0 <= shr_m r.1)%Z
  ∧ inbetween (shr_m r.1) r.2 x (loc_of_shr_record r.1)
  ∧ r.2 = (e + n)%Z
  ∧ shr_m r.1 = (m / 2 ^ n)%Z.
Proof.
  intros Hm Hin n r. subst n r. unfold shr_fexp.
  destruct (loc_of_shr_record_of_loc m l) as [Hl Hsm].
  pose proof (shr_spec (shr_record_of_loc m l) e
                (fexp prec emax (Zdigits2 m + e) - e) x) as H.
  rewrite Hl, Hsm in H. by apply H.
Qed.

(** Number of binary digits. *)
Lemma Zdigits2_bounds (m : Z) :
  (0 < m)%Z -> (0 < Zdigits2 m ∧ 2 ^ (Zdigits2 m - 1) <= m < 2 ^ Zdigits2 m)%Z.
Proof.
  destruct m as [|p|p]; try lia. intros _. simpl.
  split; [lia | apply digits_bounds].
Qed.

Lemma Zdigits2_unique (m d : Z) :
  (0 < m)%Z -> (2 ^ (d - 1) <= m < 2 ^ d)%Z -> Zdigits2 m = d.
Proof.
  intros Hm [Hlo Hhi]. destruct (Zdigits2_bounds m Hm) as (Hd & Hlo' & Hhi').
  assert (0 < d)%Z.
  { destruct (Z_lt_le_dec 0 d); [done |].
    assert (2 ^ d <= 2 ^ 0)%Z by (apply Z.pow_le_mono_r; lia). simpl in *. lia. }
  destruct (Z_lt_le_dec (Zdigits2 m) d) as [Hlt|Hge].
  - assert (2 ^ Zdigits2 m <= 2 ^ (d - 1))%Z by (apply Z.pow_le_mono_r; lia). lia.
  - destruct (Z_lt_le_dec d (Zdigits2 m)) as [Hlt|Hle]; [| lia].
    assert (2 ^ d <= 2 ^ (Zdigits2 m - 1))%Z by (apply Z.pow_le_mono_r; lia). lia.
Qed.

Lemma Zdigits2_div (m n : Z) :
  (0 < m)%Z -> (0 <= n < Zdigits2 m)%Z -> Zdigits2 (m / 2 ^ n) = (Zdigits2 m - n)%Z.
Proof.
  intros Hm Hn. destruct (Zdigits2_bounds m Hm) as (Hd & Hlo & Hhi).
  assert (Hp : (0 < 2 ^ n)%Z) by (apply Z.pow_pos_nonneg; lia).
  assert (Hlo' : (2 ^ (Zdigits2 m - n - 1) <= m / 2 ^ n)%Z).
  { apply Z.div_le_lower_bound; [done |].
    rewrite <- Z.pow_add_r by lia.
    replace (n + (Zdigits2 m - n - 1))%Z with (Zdigits2 m - 1)%Z by lia. done. }
  assert (Hhi' : (m / 2 ^ n < 2 ^ (Zdigits2 m - n))%Z).
  { apply Z.div_lt_upper_bound; [done |].
    rewrite <- Z.pow_add_r by lia.
    replace (n + (Zdigits2 m - n))%Z with (Zdigits2 m) by lia. done. }
  apply Zdigits2_unique; [| done].
  assert (0 < 2 ^ (Zdigits2 m - n - 1))%Z by (apply Z.pow_pos_nonneg; lia). lia.
Qed.

Lemma Zdigits2_div_small (m n : Z) :
  (0 <= m)%Z -> (Zdigits2 m <= n)%Z -> (m / 2 ^ n = 0)%Z.
Proof.
  intros Hm Hn. destruct (Z.eq_dec m 0%Z) as [-> | Hne].
  - apply Z.div_0_l. assert (0 <= n)%Z by (simpl in Hn; lia).
    pose proof (Z.pow_pos_nonneg 2 n). lia.
  - destruct (Zdigits2_bounds m ltac:(lia)) as (Hd & Hlo & Hhi).
    apply Z.div_small. split; [done |].
    assert (2 ^ Zdigits2 m <= 2 ^ n)%Z by (apply Z.pow_le_mono_r; lia). lia.
Qed.

Lemma fexp_spec (k : Z) : fexp prec emax k = Z.max (k - 53) (-1074).
Proof. reflexivity. Qed.

End Shr.

Section Round.
Local Open Scope R_scope.





Lemma binary_round_aux_eq (s : bool) (m e : Z) (l : location) :
  binary_round_aux prec emax s m e l =
    match (round_mantissa m e l).1 with
    | Z0 => S754_zero s
    | Zpos p =>
        if ((round_mantissa m e l).2 <=? emax - prec)%Z
        then S754_finite s p (round_mantissa m e l).2 else S754_infinity s
    | Zneg _ => S754_nan
    end.
Proof.
  unfold binary_round_aux, round_mantissa.
  destruct (shr_fexp prec emax m e l) as [mrs' e']. simpl.
  by destruct (shr_fexp prec emax _ e' loc_Exact) as [mrs'' e''].
Qed.

Lemma canonical_digits m e : canonical m e -> (Zdigits2 m <= 53 ∧ -1074 <= e)%Z.
Proof. intros [Hm He]. rewrite fexp_spec in He. lia. Qed.

Lemma canonical_normal m e : canonical m e -> (-1074 < e)%Z -> Zdigits2 m = 53%Z.
Proof. intros [Hm He] Hlt. rewrite fexp_spec in He. lia. Qed.

Lemma F2R_pos m e : (0 < m)%Z -> 0 < F2R m e.
Proof. intros Hm. unfold F2R. apply IZR_lt in Hm. pose proof (bpow_pos e). nra. Qed.

Lemma F2R_nonneg m e : (0 <= m)%Z -> 0 <= F2R m e.
Proof. intros Hm. unfold F2R. apply IZR_le in Hm. pose proof (bpow_pos e). nra. Qed.

Lemma F2R_0 e : F2R 0 e = 0.
Proof. unfold F2R. lra. Qed.

Lemma F2R_bpow_lt m d e : (0 < m)%Z -> (m < 2 ^ d)%Z -> (0 <= d)%Z -> F2R m e < bpow (d + e).
Proof.
  intros Hm Hlt Hd. rewrite bpow_add, bpow_IZR by done.
  unfold F2R. apply IZR_lt in Hlt. pose proof (bpow_pos e). nra.
Qed.

Lemma F2R_bpow_ge m d e : (2 ^ d <= m)%Z -> (0 <= d)%Z -> bpow (d + e) <= F2R m e.
Proof.
  intros Hle Hd. rewrite bpow_add, bpow_IZR by done.
  unfold F2R. apply IZR_le in Hle. pose proof (bpow_pos e). nra.
Qed.

(** No representable number lies strictly between two consecutive
    multiples of [2^e] when [e] is the exponent of that binade. *)
Lemma format_gap (m e : Z) (g : R) :
  (m = 0%Z ∧ e = (-1074)%Z) ∨ canonical m e ->
  in_format g ->
  g <= F2R m e ∨ F2R (m + 1) e <= g.
Proof.
  intros Hme [-> | (mg & eg & Hg & ->)].
  - left. apply F2R_nonneg. destruct Hme as [[-> _] | [Hm _]]; lia.
  - destruct (canonical_digits _ _ Hg) as [Hdg Heg].
    destruct Hg as [Hmg Hfg].
    destruct (Z_le_gt_dec e eg) as [Hle | Hgt].
    + replace eg with (e + (eg - e))%Z by lia.
      rewrite <- F2R_shift by lia.
      destruct (Z_le_gt_dec (mg * 2 ^ (eg - e)) m) as [H1 | H1].
      * left. by apply F2R_le.
      * right. apply F2R_le. lia.
    + left. destruct Hme as [[-> ->] | Hc]; [lia |].
      pose proof (canonical_normal _ _ Hc ltac:(lia)) as Hd.
      destruct Hc as [Hm _].
      destruct (Zdigits2_bounds m Hm) as (_ & Hlo & _). rewrite Hd in Hlo.
      destruct (Zdigits2_bounds mg Hmg) as (Hdpos & _ & Hhi).
      assert (Hhi' : (mg < 2 ^ 53)%Z).
      { assert (2 ^ Zdigits2 mg <= 2 ^ 53)%Z by (apply Z.pow_le_mono_r; lia). lia. }
      apply Rlt_le. apply Rlt_le_trans with (bpow (53 + eg)).
      * apply F2R_bpow_lt; lia.
      * apply Rle_trans with (bpow (52 + e)); [apply bpow_le; lia |].
        apply F2R_bpow_ge; [exact Hlo | lia].
Qed.

Lemma round_nearest_even_cases (m : Z) (l : location) :
  match l with
  | loc_Exact | loc_Inexact Lt => round_nearest_even m l = m
  | loc_Inexact Gt => round_nearest_even m l = (m + 1)%Z
  | loc_Inexact Eq => round_nearest_even m l = m ∨ round_nearest_even m l = (m + 1)%Z
  end.
Proof.
  destruct l as [|[]]; simpl; try done. destruct (Z.even m); auto.
Qed.

(** The nearer of the two neighbours is nearest among all representable
    numbers. *)
Lemma nearest_of_neighbours (m e : Z) (x : R) (l : location) :
  (0 <= m)%Z ->
  (m = 0%Z ∧ e = (-1074)%Z) ∨ canonical m e ->
  inbetween m e x l ->
  in_format (F2R (round_nearest_even m l) e) ->
  nearest x (F2R (round_nearest_even m l) e).
Proof.
  intros Hm Hme Hin Hfmt. split; [done |]. intros g Hg.
  pose proof (format_gap m e g Hme Hg) as Hgap.
  destruct l as [|c]; simpl in Hin.
  - pose proof (round_nearest_even_cases m loc_Exact) as Hr. cbv beta iota in Hr.
    rewrite Hr, <- Hin. replace (x - x) with 0 by lra. rewrite Rabs_R0. apply Rabs_pos.
  - destruct Hin as [[Hlo Hhi] Hc].
    pose proof (round_nearest_even_cases m (loc_Inexact c)) as Hr.
    unfold F2R in Hc, Hlo, Hhi, Hgap |- *.
    rewrite ?plus_IZR, ?mult_IZR in *.
    destruct c; cbv beta iota in Hr; simpl in Hc.
    + destruct Hr as [-> | ->]; rewrite ?plus_IZR;
        unfold Rabs; destruct (Rcase_abs _), (Rcase_abs _); nra.
    + rewrite Hr. unfold Rabs; destruct (Rcase_abs _), (Rcase_abs _); nra.
    + rewrite Hr, ?plus_IZR. unfold Rabs; destruct (Rcase_abs _), (Rcase_abs _); nra.
Qed.

Lemma Zdigits2_le (a b : Z) : (0 < a <= b)%Z -> (Zdigits2 a <= Zdigits2 b)%Z.
Proof.
  intros [Ha Hab].
  destruct (Zdigits2_bounds a Ha) as (Hda & Hlo & _).
  destruct (Zdigits2_bounds b ltac:(lia)) as (Hdb & _ & Hhi).
  destruct (Z_le_gt_dec (Zdigits2 a) (Zdigits2 b)) as [|Hgt]; [done |].
  assert (2 ^ Zdigits2 b <= 2 ^ (Zdigits2 a - 1))%Z by (apply Z.pow_le_mono_r; lia).
  lia.
Qed.

(** After the first shift the mantissa sits at the exponent of its
    binade. *)
Lemma shr_fexp_canonical (m e : Z) (l : location) :
  (0 <= m)%Z ->
  (e <= fexp prec emax (Zdigits2 m + e))%Z ->
  let r := shr_fexp prec emax m e l in
  (shr_m r.1 = 0%Z ∧ r.2 = (-1074)%Z) ∨ canonical (shr_m r.1) r.2.
Proof.
  intros Hm He r.
  assert (Hinb : inbetween m e (F2R m e) loc_Exact) by done.
  assert (Hsame : shr_m r.1 = shr_m (shr_fexp prec emax m e loc_Exact).1
                  ∧ r.2 = (shr_fexp prec emax m e loc_Exact).2).
  { subst r. unfold shr_fexp, shr.
    destruct (fexp prec emax (Zdigits2 m + e) - e)%Z as [|n|n]; simpl;
      [by destruct l as [|[]] | | by destruct l as [|[]]].
    split; [| done].
    pose (I := fun (k : Z) (ab : shr_record * shr_record) => shr_m ab.1 = shr_m ab.2).
    assert (Hstep : ∀ a b, shr_m a = shr_m b -> shr_m (shr_1 a) = shr_m (shr_1 b)).
    { intros [ma ra sa] [mb rb sb]. simpl. intros ->.
      by destruct mb as [|[]|[]]. }
    assert (Hiter : ∀ n a b, shr_m a = shr_m b ->
              shr_m (SpecFloat.iter_pos shr_1 n a) = shr_m (SpecFloat.iter_pos shr_1 n b)).
    { clear -Hstep. induction n as [n IH|n IH|]; intros a b Hab; simpl; auto. }
    apply Hiter. by destruct l as [|[]]. }
  destruct Hsame as [-> ->].
  destruct (shr_fexp_spec m e loc_Exact (F2R m e) Hm Hinb) as (H0 & _ & He1 & Hm1).
  rewrite He1, Hm1. clear He1 Hm1 H0 r Hinb.
  rewrite Z.max_l by lia. rewrite fexp_spec in *.
  set (n := (Z.max (Zdigits2 m + e - 53) (-1074) - e)%Z) in *.
  destruct (Z.eq_dec m 0%Z) as [-> | Hne].
  - left. simpl in *. split; [apply Z.div_0_l | lia].
    pose proof (Z.pow_pos_nonneg 2 n). lia.
  - destruct (Zdigits2_bounds m ltac:(lia)) as (Hd & Hlo & Hhi).
    destruct (Z_le_gt_dec (Zdigits2 m) n) as [Hsmall | Hbig].
    + left. split; [by apply Zdigits2_div_small |]. lia.
    + right. split.
      * apply Z.div_str_pos. split; [apply Z.pow_pos_nonneg; lia |].
        assert (2 ^ n <= 2 ^ (Zdigits2 m - 1))%Z by (apply Z.pow_le_mono_r; lia). lia.
      * rewrite Zdigits2_div by lia. rewrite fexp_spec. lia.
Qed.

(** The rounded mantissa is one of the two neighbours of [x] at the
    exponent of its binade, renormalised. *)
Lemma round_mantissa_neighbours (m e : Z) (l : location) (x : R) :
  (0 <= m)%Z ->
  inbetween m e x l ->
  (e <= fexp prec emax (Zdigits2 m + e))%Z ->
  ∃ (m1 e1 : Z) (l1 : location),
    ((m1 = 0%Z ∧ e1 = (-1074)%Z) ∨ canonical m1 e1)
    ∧ (0 <= m1)%Z
    ∧ inbetween m1 e1 x l1
    ∧ (0 <= (round_mantissa m e l).1)%Z
    ∧ F2R (round_mantissa m e l).1 (round_mantissa m e l).2
      = F2R (round_nearest_even m1 l1) e1
    ∧ ((round_mantissa m e l).1 = 0%Z
       ∨ canonical (round_mantissa m e l).1 (round_mantissa m e l).2).
Proof.
  intros Hm Hin He. unfold round_mantissa.
  pose proof (shr_fexp_canonical m e l Hm He) as HA.
  destruct (shr_fexp_spec m e l x Hm Hin) as (Hm1 & Hin1 & He1 & _).
  destruct (shr_fexp prec emax m e l) as [mrs1 e1]. simpl in *.
  set (m1 := shr_m mrs1) in *. set (l1 := loc_of_shr_record mrs1) in *.
  set (mr := round_nearest_even m1 l1).
  assert (Hmr : (mr = m1 ∨ mr = m1 + 1)%Z).
  { subst mr. pose proof (round_nearest_even_cases m1 l1) as H.
    destruct l1 as [|[]]; tauto. }
  assert (He1' : (-1074 <= e1)%Z).
  { rewrite He1, fexp_spec. lia. }
  assert (Hd1 : (m1 < 2 ^ 53)%Z).
  { destruct HA as [[-> _] | Hc]; [done |].
    destruct (canonical_digits _ _ Hc) as [Hd _]. destruct Hc as [Hpos _].
    destruct (Zdigits2_bounds m1 Hpos) as (_ & _ & Hhi).
    assert (2 ^ Zdigits2 m1 <= 2 ^ 53)%Z by (apply Z.pow_le_mono_r; lia). lia. }
  assert (Hmr0 : (0 <= mr)%Z) by lia.
  assert (Hinb : inbetween mr e1 (F2R mr e1) loc_Exact) by done.
  destruct (shr_fexp_spec mr e1 loc_Exact (F2R mr e1) Hmr0 Hinb) as (Hm2 & _ & He2 & Hm2').
  destruct (shr_fexp prec emax mr e1 loc_Exact) as [mrs2 e2]. simpl in *.
  set (m2 := shr_m mrs2) in *.
  assert (HC : F2R m2 e2 = F2R mr e1 ∧ (m2 = 0%Z ∨ canonical m2 e2)).
  { rewrite He2, Hm2'. rewrite fexp_spec.
    destruct (Z.eq_dec mr 0%Z) as [Hz | Hnz].
    - rewrite Hz. simpl Zdigits2. rewrite Z.max_r by lia.
      rewrite Z.div_1_r, Z.add_0_r, !F2R_0. auto.
    - destruct (Zdigits2_bounds mr ltac:(lia)) as (Hdr & Hlo & Hhi).
      destruct (Z_le_gt_dec (Z.max (Zdigits2 mr + e1 - 53) (-1074)) e1) as [Hle | Hgt].
      + rewrite Z.max_r by lia. rewrite Z.div_1_r, Z.add_0_r.
        split; [done |]. right. split; [lia |]. rewrite fexp_spec.
        destruct HA as [[Hz ->] | [Hpos Hc]]; [lia |].
        rewrite fexp_spec in Hc.
        assert (Zdigits2 m1 <= Zdigits2 mr)%Z by (apply Zdigits2_le; lia). lia.
      + assert (Hbig : (54 <= Zdigits2 mr)%Z) by lia.
        assert (H53 : (2 ^ 53 <= mr)%Z).
        { assert (2 ^ 53 <= 2 ^ (Zdigits2 mr - 1))%Z by (apply Z.pow_le_mono_r; lia). lia. }
        assert (Heq : mr = (2 ^ 53)%Z) by lia.
        rewrite Heq. change (Zdigits2 (2 ^ 53)) with 54%Z.
        replace (Z.max (Z.max (54 + e1 - 53) (-1074) - e1) 0) with 1%Z by lia.
        change (2 ^ 53 / 2 ^ 1)%Z with (2 ^ 52)%Z.
        split.
        * rewrite <- F2R_double. done.
        * right. split; [done |]. change (Zdigits2 (2 ^ 52)) with 53%Z.
          rewrite fexp_spec. lia. }
  destruct HC as [Hval Hcan].
  exists m1, e1, l1. done.
Qed.


(** Rounding a located nonnegative number gives a nearest representable
    number. *)
Lemma round_mantissa_spec (m e : Z) (l : location) (x : R) :
  (0 <= m)%Z ->
  inbetween m e x l ->
  (e <= fexp prec emax (Zdigits2 m + e))%Z ->
  (0 <= (round_mantissa m e l).1)%Z
  ∧ ((round_mantissa m e l).1 = 0%Z
     ∨ canonical (round_mantissa m e l).1 (round_mantissa m e l).2)
  ∧ nearest x (F2R (round_mantissa m e l).1 (round_mantissa m e l).2).
Proof.
  intros Hm Hin He.
  destruct (round_mantissa_neighbours m e l x Hm Hin He)
    as (m1 & e1 & l1 & HA & Hm1 & Hin1 & H0 & Hval & Hcan).
  split; [done |]. split; [done |].
  assert (Hfmt : in_format (F2R (round_nearest_even m1 l1) e1)).
  { rewrite <- Hval. destruct Hcan as [-> | Hc]; [left; apply F2R_0 | right; eauto]. }
  rewrite Hval. by apply nearest_of_neighbours.
Qed.

End Round.

Section Order.
Local Open Scope R_scope.

Lemma in_format_nonneg v : in_format v -> 0 <= v.
Proof.
  intros [-> | (m & e & [Hm _] & ->)]; [lra |]. apply Rlt_le. by apply F2R_pos.
Qed.

Lemma in_format_0 : in_format 0.
Proof. by left. Qed.

(** Rounding to nearest is monotone, whatever the tie-breaking rule. *)
Lemma nearest_monotone (x1 x2 v1 v2 : R) :
  x1 < x2 -> nearest x1 v1 -> nearest x2 v2 -> v1 <= v2.
Proof.
  intros Hlt [Hf1 H1] [Hf2 H2].
  specialize (H1 v2 Hf2). specialize (H2 v1 Hf1).
  revert H1 H2. unfold Rabs.
  destruct (Rcase_abs _), (Rcase_abs _), (Rcase_abs _), (Rcase_abs _); lra.
Qed.

Lemma nearest_ge (x v g : R) : nearest x v -> in_format g -> g <= x -> g <= v.
Proof.
  intros [Hf H] Hg Hle. specialize (H g Hg). revert H. unfold Rabs.
  destruct (Rcase_abs _), (Rcase_abs _); lra.
Qed.

Lemma nearest_le (x v g : R) : nearest x v -> in_format g -> x <= g -> v <= g.
Proof.
  intros [Hf H] Hg Hle. specialize (H g Hg). revert H. unfold Rabs.
  destruct (Rcase_abs _), (Rcase_abs _); lra.
Qed.

Lemma nearest_exact (x v : R) : nearest x v -> in_format x -> v = x.
Proof.
  intros Hn Hx. apply Rle_antisym.
  - by apply (nearest_le x v x).
  - by apply (nearest_ge x v x).
Qed.

(** Among canonical numbers the exponent decides the order first. *)
Lemma canonical_exp_lt (m1 e1 m2 e2 : Z) :
  canonical m1 e1 -> canonical m2 e2 -> (e1 < e2)%Z -> F2R m1 e1 < F2R m2 e2.
Proof.
  intros H1 H2 Hlt.
  destruct (canonical_digits _ _ H1) as [Hd1 He1].
  pose proof (canonical_normal _ _ H2 ltac:(lia)) as Hd2.
  destruct H1 as [Hm1 _], H2 as [Hm2 _].
  destruct (Zdigits2_bounds m1 Hm1) as (_ & _ & Hhi).
  destruct (Zdigits2_bounds m2 Hm2) as (_ & Hlo & _). rewrite Hd2 in Hlo.
  assert (Hhi' : (m1 < 2 ^ 53)%Z).
  { assert (2 ^ Zdigits2 m1 <= 2 ^ 53)%Z by (apply Z.pow_le_mono_r; lia). lia. }
  apply Rlt_le_trans with (bpow (53 + e1)); [apply F2R_bpow_lt; lia |].
  apply Rle_trans with (bpow (52 + e2)); [apply bpow_le; lia |].
  apply F2R_bpow_ge; [exact Hlo | lia].
Qed.

Lemma canonical_le_exp (m1 e1 m2 e2 : Z) :
  canonical m1 e1 -> canonical m2 e2 -> F2R m1 e1 <= F2R m2 e2 -> (e1 <= e2)%Z.
Proof.
  intros H1 H2 Hle. destruct (Z_le_gt_dec e1 e2) as [|Hgt]; [done |].
  pose proof (canonical_exp_lt _ _ _ _ H2 H1 ltac:(lia)). lra.
Qed.



Lemma valid_canonical (s : bool) (m : positive) (e : Z) :
  valid_binary (S754_finite s m e) = true ->
  canonical (Z.pos m) e ∧ (e <= emax - prec)%Z.
Proof.
  simpl. unfold bounded, canonical_mantissa.
  intros [H1 H2]%andb_prop. apply Z.eqb_eq in H1. apply Z.leb_le in H2.
  split; [| done]. split; [lia |]. exact H1.
Qed.

Lemma F2R_opp m e : F2R (- m) e = - F2R m e.
Proof. unfold F2R. rewrite opp_IZR. lra. Qed.

Lemma F2R_eq_inv m1 m2 e : F2R m1 e = F2R m2 e -> m1 = m2.
Proof.
  intros H. apply Z.le_antisymm; apply (F2R_le_inv _ _ e); lra.
Qed.

Lemma canonical_compare (m1 m2 : positive) (e1 e2 : Z) :
  canonical (Z.pos m1) e1 -> canonical (Z.pos m2) e2 ->
  cmp_spec
    match Z.compare e1 e2 with
    | Lt => Lt
    | Gt => Gt
    | Eq => Pos.compare_cont Eq m1 m2
    end
    (F2R (Z.pos m1) e1) (F2R (Z.pos m2) e2).
Proof.
  intros H1 H2. destruct (Z.compare_spec e1 e2) as [-> | Hlt | Hgt].
  - change (Pos.compare_cont Eq m1 m2) with (Pos.compare m1 m2).
    destruct (Pos.compare_spec m1 m2) as [-> | Hlt | Hgt]; simpl.
    + done.
    + apply F2R_lt. lia.
    + apply F2R_lt. lia.
  - simpl. by apply canonical_exp_lt.
  - simpl. by apply canonical_exp_lt.
Qed.

(** [SFcompare] on valid finite numbers is the comparison of their values. *)
Lemma SFcompare_spec (x y : spec_float) :
  valid_binary x = true -> valid_binary y = true ->
  finite_or_zero x -> finite_or_zero y ->
  ∃ c, SFcompare x y = Some c ∧ cmp_spec c (SF2R x) (SF2R y).
Proof.
  intros Hvx Hvy Hfx Hfy.
  destruct x as [sx|sx| |sx mx ex], y as [sy|sy| |sy my ey]; try done; simpl SFcompare.
  - exists Eq. by simpl.
  - destruct (valid_canonical _ _ _ Hvy) as [[Hm _] _].
    pose proof (F2R_pos (Z.pos my) ey Hm) as Hp.
    destruct sy; eexists; (split; [reflexivity |]); simpl; rewrite ?F2R_opp; lra.
  - destruct (valid_canonical _ _ _ Hvx) as [[Hm _] _].
    pose proof (F2R_pos (Z.pos mx) ex Hm) as Hp.
    destruct sx; eexists; (split; [reflexivity |]); simpl; rewrite ?F2R_opp; lra.
  - destruct (valid_canonical _ _ _ Hvx) as [Hcx _].
    destruct (valid_canonical _ _ _ Hvy) as [Hcy _].
    pose proof (F2R_pos (Z.pos mx) ex ltac:(done)) as Hpx.
    pose proof (F2R_pos (Z.pos my) ey ltac:(done)) as Hpy.
    pose proof (canonical_compare mx my ex ey Hcx Hcy) as Hc.
    destruct sx, sy; eexists; (split; [reflexivity |]); simpl SF2R;
      simpl cond_Zopp; rewrite ?F2R_opp.
    + destruct (Z.compare ex ey); [destruct (Pos.compare_cont Eq mx my) | |];
        simpl in *; lra.
    + simpl. lra.
    + simpl. lra.
    + done.
Qed.

End Order.

Section Ops.
Local Open Scope R_scope.



(** The number of the format just below [x] is unique. *)
Lemma binade_unique (m1 e1 j e0 : Z) (x : R) :
  (m1 = 0%Z ∧ e1 = (-1074)%Z) ∨ canonical m1 e1 ->
  canonical j e0 ->
  F2R m1 e1 < x < F2R (m1 + 1) e1 ->
  F2R j e0 < x < F2R (j + 1) e0 ->
  m1 = j ∧ e1 = e0.
Proof.
  intros H1 Hj [Hlo1 Hhi1] [Hloj Hhij].
  assert (Hfj : in_format (F2R j e0)) by (right; eauto).
  destruct (format_gap m1 e1 (F2R j e0) H1 Hfj) as [Hle | Hge]; [| lra].
  pose proof (F2R_pos j e0 (proj1 Hj)) as Hpos.
  destruct H1 as [[-> ->] | Hc1]; [rewrite F2R_0 in Hle; lra |].
  assert (Hf1 : in_format (F2R m1 e1)) by (right; eauto).
  destruct (format_gap j e0 (F2R m1 e1) (or_intror Hj) Hf1) as [Hle' | Hge']; [| lra].
  assert (Heq : F2R m1 e1 = F2R j e0) by lra.
  assert (He : e1 = e0).
  { apply Z.le_antisymm; eapply canonical_le_exp; eauto; lra. }
  subst e0. split; [| done]. by apply (F2R_eq_inv _ _ e1).
Qed.

(** On a tie the rounded mantissa is the even one. *)
Lemma round_mantissa_ties (m e : Z) (l : location) (x : R) :
  (0 <= m)%Z ->
  inbetween m e x l ->
  (e <= fexp prec emax (Zdigits2 m + e))%Z ->
  ties_to_even x (F2R (round_mantissa m e l).1 (round_mantissa m e l).2).
Proof.
  intros Hm Hin He j e0 Hj Hodd Hmid.
  destruct (round_mantissa_neighbours m e l x Hm Hin He)
    as (m1 & e1 & l1 & HA & Hm1 & Hin1 & H0 & Hval & Hcan).
  rewrite Hval.
  assert (Hbetween : F2R j e0 < x < F2R (j + 1) e0).
  { revert Hmid. unfold F2R. rewrite !plus_IZR, !mult_IZR.
    pose proof (bpow_pos e0). nra. }
  assert (Hfj : in_format x -> False).
  { intros Hx. destruct (format_gap j e0 x (or_intror Hj) Hx); lra. }
  destruct l1 as [|c]; simpl in Hin1.
  - exfalso. apply Hfj. rewrite Hin1.
    destruct HA as [[-> _] | Hc]; [left; apply F2R_0 | right; eauto].
  - destruct Hin1 as [Hb1 Hc].
    destruct (binade_unique m1 e1 j e0 x HA Hj Hb1 Hbetween) as [-> ->].
    rewrite <- Hmid in Hc.
    destruct c; simpl in Hc; [| lra | lra].
    simpl. rewrite <- Z.negb_odd, Hodd. done.
Qed.

Lemma binary_round_aux_rounds (m e : Z) (l : location) (x : R) :
  (0 <= m)%Z ->
  inbetween m e x l ->
  (e <= fexp prec emax (Zdigits2 m + e))%Z ->
  rounds x (binary_round_aux prec emax false m e l).
Proof.
  intros Hm Hin He.
  destruct (round_mantissa_spec m e l x Hm Hin He) as (H0 & Hc & Hn).
  exists (round_mantissa m e l).1, (round_mantissa m e l).2.
  split; [done |]. split; [done |].
  split; [| by apply round_mantissa_ties].
  rewrite binary_round_aux_eq. unfold result_of.
  destruct (round_mantissa m e l).1 as [|p|p]; [by eexists | done | lia].
Qed.

Lemma rounds_exact_zero (s : bool) : rounds 0 (S754_zero s).
Proof.
  exists 0%Z, 0%Z. split; [by left |]. split; [| split; [by exists s |]].
  - rewrite F2R_0. split; [apply in_format_0 |]. intros g Hg.
    replace (0 - 0) with 0 by lra. rewrite Rabs_R0. apply Rabs_pos.
  - intros j e [Hj _] _ Hmid.
    pose proof (F2R_pos (2 * j + 1) e ltac:(lia)). lra.
Qed.

Lemma nearest_self (v : R) : in_format v -> nearest v v.
Proof.
  intros Hv. split; [done |]. intros g _.
  replace (v - v) with 0 by lra. rewrite Rabs_R0. apply Rabs_pos.
Qed.

(** A valid nonnegative finite float is its own rounding. *)
Lemma rounds_exact_finite (m : positive) (e : Z) :
  valid_binary (S754_finite false m e) = true ->
  rounds (F2R (Z.pos m) e) (S754_finite false m e).
Proof.
  intros Hv. destruct (valid_canonical _ _ _ Hv) as [Hc He].
  exists (Z.pos m), e. split; [by right |]. split; [| split].
  - apply nearest_self. right. eauto.
  - simpl. apply Z.leb_le in He. by rewrite He.
  - intros j e0 Hj _ Hmid. exfalso.
    assert (Hfx : in_format (F2R (Z.pos m) e)) by (right; eauto).
    assert (Hbetween : F2R j e0 < F2R (Z.pos m) e < F2R (j + 1) e0).
    { revert Hmid. generalize (F2R (Z.pos m) e). intros x. unfold F2R.
      rewrite !plus_IZR, !mult_IZR. pose proof (bpow_pos e0). nra. }
    destruct (format_gap j e0 _ (or_intror Hj) Hfx); lra.
Qed.

(** A finite rounding has the value found. *)
Lemma rounds_finite (x : R) (z : spec_float) :
  rounds x z -> finite_or_zero z ->
  valid_binary z = true ∧ nearest x (SF2R z) ∧ 0 <= SF2R z.
Proof.
  intros (m & e & Hc & Hn & Hz & _) Hf. destruct m as [|p|p]; simpl in Hz.
  - destruct Hz as [s ->]. simpl. rewrite F2R_0 in Hn. split; [done |]. split; [done | lra].
  - destruct Hc as [Hc | Hc]; [done |].
    destruct (Z.leb_spec e (emax - prec)) as [Hle | Hgt]; subst z; [| done].
    simpl SF2R. split.
    + simpl. unfold bounded, canonical_mantissa. destruct Hc as [_ Hc].
      apply andb_true_intro. split; [by apply Z.eqb_eq | by apply Z.leb_le].
    + split; [done |]. apply F2R_nonneg. lia.
  - done.
Qed.

(** If a larger number rounds without overflow, so does a smaller one, to a
    value that is not larger. *)
Lemma rounds_monotone (x1 x2 : R) (z1 z2 : spec_float) :
  x1 < x2 -> rounds x1 z1 -> rounds x2 z2 -> finite_or_zero z2 ->
  finite_or_zero z1 ∧ SF2R z1 <= SF2R z2.
Proof.
  intros Hlt (m1 & e1 & Hc1 & Hn1 & Hz1 & _) (m2 & e2 & Hc2 & Hn2 & Hz2 & _) Hf2.
  pose proof (nearest_monotone _ _ _ _ Hlt Hn1 Hn2) as Hle.
  destruct m2 as [|p2|p2]; simpl in Hz2; [| | done].
  - destruct Hz2 as [s2 ->]. rewrite F2R_0 in Hle.
    destruct m1 as [|p1|p1]; simpl in Hz1; [| | done].
    + destruct Hz1 as [s1 ->]. simpl. split; [done | lra].
    + pose proof (F2R_pos (Z.pos p1) e1 ltac:(done)). lra.
  - destruct Hc2 as [Hc2 | Hc2]; [done |].
    destruct (Z.leb_spec e2 (emax - prec)) as [Hle2 | Hgt2]; subst z2; [| done].
    destruct m1 as [|p1|p1]; simpl in Hz1; [| | done].
    + destruct Hz1 as [s1 ->]. simpl. split; [done |].
      apply F2R_nonneg. lia.
    + destruct Hc1 as [Hc1 | Hc1]; [done |].
      pose proof (canonical_le_exp _ _ _ _ Hc1 Hc2 Hle) as He.
      destruct (Z.leb_spec e1 (emax - prec)) as [Hle1 | Hgt1]; [| lia].
      subst z1. simpl. done.
Qed.

Lemma pos_iter_xO (p d : positive) : Z.pos (Pos.iter xO p d) = (Z.pos p * 2 ^ Z.pos d)%Z.
Proof.
  induction d as [|d IH] using Pos.peano_ind.
  - simpl. lia.
  - rewrite Pos.iter_succ, Pos2Z.inj_xO, IH, Pos2Z.inj_succ, Z.pow_succ_r by lia. lia.
Qed.

(** Aligning a mantissa to a smaller exponent keeps the value. *)
Lemma shl_align_spec (m : positive) (e e' : Z) :
  let r := shl_align m e e' in
  F2R (Z.pos r.1) r.2 = F2R (Z.pos m) e
  ∧ r.2 = Z.min e e'
  ∧ Z.pos r.1 = (Z.pos m * 2 ^ (e - Z.min e e'))%Z.
Proof.
  unfold shl_align. destruct (e' - e)%Z as [|d|d] eqn:Hd; simpl.
  - rewrite Z.min_l by lia. rewrite Z.sub_diag. split; [done |]. split; [done | lia].
  - rewrite Z.min_l by lia. rewrite Z.sub_diag. split; [done |]. split; [done | lia].
  - rewrite Z.min_r by lia. rewrite pos_iter_xO.
    replace (e - e')%Z with (Z.pos d) by lia.
    split; [| done]. rewrite F2R_shift by lia. f_equal. lia.
Qed.

Lemma Zdigits2_mul_pow (m k : Z) :
  (0 < m)%Z -> (0 <= k)%Z -> Zdigits2 (m * 2 ^ k) = (Zdigits2 m + k)%Z.
Proof.
  intros Hm Hk. destruct (Zdigits2_bounds m Hm) as (Hd & Hlo & Hhi).
  assert (Hp : (0 < 2 ^ k)%Z) by (apply Z.pow_pos_nonneg; lia).
  apply Zdigits2_unique; [nia |].
  replace (Zdigits2 m + k - 1)%Z with ((Zdigits2 m - 1) + k)%Z by lia.
  rewrite !Z.pow_add_r by lia. nia.
Qed.

(** [binary_normalize] rounds the integer multiple [k * 2^e] it is given. *)
Lemma binary_normalize_rounds (k e : Z) :
  (0 <= k)%Z -> rounds (F2R k e) (binary_normalize prec emax k e false).
Proof.
  intros Hk. destruct k as [|p|p]; [| | lia].
  - simpl. rewrite F2R_0. apply rounds_exact_zero.
  - simpl. unfold binary_round.
    pose proof (shl_align_spec p e (fexp prec emax (Z.pos (digits2_pos p) + e))) as H.
    destruct (shl_align p e _) as [mz ez]. simpl in H. destruct H as (Hval & Hez & Hmz).
    rewrite <- Hval. apply binary_round_aux_rounds; [lia | done |].
    rewrite Hmz, Zdigits2_mul_pow by lia. simpl Zdigits2.
    rewrite Hez. rewrite !fexp_spec. lia.
Qed.


Lemma SF2R_finite_sign (s : bool) (m : positive) (e : Z) :
  0 <= SF2R (S754_finite s m e) -> s = false.
Proof.
  destruct s; [| done]. simpl. rewrite F2R_opp.
  pose proof (F2R_pos (Z.pos m) e ltac:(done)). lra.
Qed.

Lemma F2R_cond_Zopp_align (s : bool) (m : positive) (e e' : Z) :
  (e' <= e)%Z ->
  F2R (cond_Zopp s (Z.pos (shl_align m e e').1)) e' = SF2R (S754_finite s m e).
Proof.
  intros Hle. destruct (shl_align_spec m e e') as (Hval & He & _).
  rewrite Z.min_r in He by lia. rewrite He in Hval.
  destruct s; simpl; rewrite ?F2R_opp; by rewrite Hval.
Qed.

(** Subtraction of finite numbers, when the difference is not negative. *)
Lemma SF64sub_rounds (x y : spec_float) :
  valid_binary x = true -> valid_binary y = true ->
  finite_or_zero x -> finite_or_zero y ->
  SF2R y <= SF2R x ->
  rounds (SF2R x - SF2R y) (SF64sub x y).
Proof.
  intros Hvx Hvy Hfx Hfy Hle.
  destruct x as [sx|sx| |sx mx ex], y as [sy|sy| |sy my ey]; try done;
    unfold SF64sub, SFsub.
  - simpl SF2R. replace (0 - 0) with 0 by lra.
    destruct sx, sy; apply rounds_exact_zero.
  - assert (sy = true) as ->.
    { destruct sy; [done |]. simpl in Hle.
      pose proof (F2R_pos (Z.pos my) ey ltac:(done)). lra. }
    simpl. rewrite F2R_opp.
    replace (0 - - F2R (Z.pos my) ey) with (F2R (Z.pos my) ey) by lra.
    by apply rounds_exact_finite.
  - simpl SF2R in Hle. pose proof (SF2R_finite_sign sx mx ex Hle) as ->.
    simpl. replace (F2R (Z.pos mx) ex - 0) with (F2R (Z.pos mx) ex) by lra.
    by apply rounds_exact_finite.
  - cbv zeta.
    set (ez := Z.min ex ey).
    assert (Hval : F2R (cond_Zopp sx (Z.pos (shl_align mx ex ez).1)
                        - cond_Zopp sy (Z.pos (shl_align my ey ez).1)) ez
                   = SF2R (S754_finite sx mx ex) - SF2R (S754_finite sy my ey)).
    { unfold Z.sub. rewrite F2R_plus, F2R_opp.
      rewrite !F2R_cond_Zopp_align by lia. lra. }
    rewrite <- Hval. apply binary_normalize_rounds.
    apply (F2R_le_inv 0 _ ez). rewrite F2R_0, Hval. lra.
Qed.

Lemma new_location_spec (nb k : Z) :
  (0 <= k < nb)%Z ->
  new_location nb k
  = if (k =? 0)%Z then loc_Exact else loc_Inexact (Z.compare (2 * k) nb).
Proof.
  intros Hk. unfold new_location, new_location_even, new_location_odd.
  destruct (Z.even nb) eqn:Hev; [done |].
  destruct (k =? 0)%Z; [done |]. f_equal.
  assert (Hodd : Z.odd nb = true) by (by rewrite <- Z.negb_even, Hev).
  apply Z.odd_spec in Hodd as [j Hj].
  destruct (Z.compare_spec (2 * k + 1) nb), (Z.compare_spec (2 * k) nb); try done; lia.
Qed.

(** The quotient of the mantissas, its exponent and the position of the
    exact quotient. *)
Lemma SFdiv_core_binary_spec (mx my : positive) (ex ey : Z) :
  let r := SFdiv_core_binary prec emax (Z.pos mx) ex (Z.pos my) ey in
  (0 <= r.1.1)%Z
  ∧ inbetween r.1.1 r.1.2 (F2R (Z.pos mx) ex / F2R (Z.pos my) ey) r.2
  ∧ (r.1.2 <= fexp prec emax (Zdigits2 r.1.1 + r.1.2))%Z.
Proof.
  unfold SFdiv_core_binary.
  set (d1 := Zdigits2 (Z.pos mx)). set (d2 := Zdigits2 (Z.pos my)).
  set (t := (d1 + ex - (d2 + ey))%Z).
  set (e' := Z.min (fexp prec emax t) (ex - ey)).
  set (s := (ex - ey - e')%Z).
  assert (Hs : (0 <= s)%Z) by (subst s e'; lia).
  set (m' := match s with
             | 0%Z => Z.pos mx
             | Z.pos _ => Z.shiftl (Z.pos mx) s
             | Z.neg _ => 0%Z
             end).
  assert (Hm' : m' = (Z.pos mx * 2 ^ s)%Z).
  { subst m'. destruct s as [|p|p] eqn:Hsp; [lia | | lia].
    by rewrite Z.shiftl_mul_pow2. }
  pose proof (Z_div_mod m' (Z.pos my) ltac:(done)) as Hdiv.
  destruct (Z.div_eucl m' (Z.pos my)) as [q r]. destruct Hdiv as [Hqr Hr].
  cbv zeta. simpl fst. simpl snd.
  assert (Hp : (0 < 2 ^ s)%Z) by (apply Z.pow_pos_nonneg; lia).
  assert (Hq : (0 <= q)%Z) by nia.
  split; [done |].
  assert (HB : 0 < bpow e') by apply bpow_pos.
  assert (HY : 0 < IZR (Z.pos my)) by (by apply IZR_lt).
  assert (Hquot : F2R (Z.pos mx) ex / F2R (Z.pos my) ey
                  = F2R q e' + IZR r / IZR (Z.pos my) * bpow e').
  { replace ex with (ey + e' + s)%Z at 1 by (subst s; lia).
    rewrite <- F2R_shift by done. rewrite <- Hm', Hqr. unfold F2R.
    rewrite plus_IZR, mult_IZR, bpow_add.
    pose proof (bpow_pos ey). field. split; lra. }
  split.
  - rewrite new_location_spec by done. rewrite Hquot.
    set (rho := IZR r / IZR (Z.pos my)).
    assert (Hrho : rho * IZR (Z.pos my) = IZR r) by (subst rho; field; lra).
    destruct (Z.eqb_spec r 0) as [-> | Hne]; simpl.
    + subst rho. unfold Rdiv. lra.
    + assert (Hr0 : 0 < IZR r) by (apply IZR_lt; lia).
      assert (Hr1 : IZR r < IZR (Z.pos my)) by (apply IZR_lt; lia).
      assert (Hrho0 : 0 < rho) by nra.
      assert (Hrho1 : rho < 1) by nra.
      unfold F2R. rewrite !plus_IZR, !mult_IZR.
      split; [nra |].
      destruct (Z.compare_spec (2 * r) (Z.pos my)) as [Heq | Hlt | Hgt]; simpl.
      * apply (f_equal IZR) in Heq. rewrite mult_IZR in Heq. nra.
      * apply IZR_lt in Hlt. rewrite mult_IZR in Hlt. nra.
      * apply IZR_lt in Hgt. rewrite mult_IZR in Hgt. nra.
  - rewrite fexp_spec.
    destruct (Z_le_gt_dec e' (-1074)) as [|Hbig]; [lia |].
    assert (He't : (e' <= t - 53)%Z).
    { subst e'. rewrite fexp_spec in *. lia. }
    destruct (Zdigits2_bounds (Z.pos mx) ltac:(done)) as (Hd1 & Hlo1 & _).
    destruct (Zdigits2_bounds (Z.pos my) ltac:(done)) as (Hd2 & _ & Hhi2).
    fold d1 in Hd1, Hlo1. fold d2 in Hd2, Hhi2.
    set (u := (t - 1 - e')%Z).
    assert (Hu : (52 <= u)%Z) by (subst u; lia).
    assert (Hpow : (2 ^ (d1 - 1) * 2 ^ s = 2 ^ u * 2 ^ d2)%Z).
    { rewrite <- !Z.pow_add_r by lia. f_equal. subst u t s. lia. }
    assert (Hpu : (0 < 2 ^ u)%Z) by (apply Z.pow_pos_nonneg; lia).
    assert (Hqu : (2 ^ u <= q)%Z) by nia.
    assert (Hq0 : (0 < q)%Z) by lia.
    destruct (Zdigits2_bounds q Hq0) as (Hdq & _ & Hhiq).
    assert (u < Zdigits2 q)%Z.
    { destruct (Z_lt_le_dec u (Zdigits2 q)) as [|Hle]; [done |].
      assert (2 ^ Zdigits2 q <= 2 ^ u)%Z by (apply Z.pow_le_mono_r; lia). lia. }
    subst u. lia.
Qed.

(** Division of a nonnegative finite number by a positive finite one. *)
Lemma SF64div_rounds (x y : spec_float) :
  valid_binary x = true -> valid_binary y = true ->
  finite_or_zero x -> finite_or_zero y ->
  0 <= SF2R x -> 0 < SF2R y ->
  rounds (SF2R x / SF2R y) (SF64div x y).
Proof.
  intros Hvx Hvy Hfx Hfy Hx Hy.
  destruct y as [sy|sy| |sy my ey]; try done; [simpl in Hy; lra |].
  pose proof (SF2R_finite_sign sy my ey ltac:(lra)) as ->.
  destruct x as [sx|sx| |sx mx ex]; try done; unfold SF64div, SFdiv.
  - simpl SF2R. unfold Rdiv. rewrite Rmult_0_l. apply rounds_exact_zero.
  - pose proof (SF2R_finite_sign sx mx ex Hx) as ->.
    pose proof (SFdiv_core_binary_spec mx my ex ey) as H.
    destruct (SFdiv_core_binary prec emax (Z.pos mx) ex (Z.pos my) ey) as [[mz ez] lz].
    simpl in H. destruct H as (H0 & Hin & He).
    simpl SF2R. simpl xorb. by apply binary_round_aux_rounds.
Qed.

End Ops.

Section Float64.
Local Open Scope R_scope.



Lemma is_finite_spec (a : float) : is_finite a = true -> finite64 a.
Proof.
  unfold is_finite, is_nan, is_infinity, finite64.
  rewrite !FloatAxioms.eqb_spec, FloatAxioms.abs_spec.
  change (Prim2SF infinity) with (S754_infinity false).
  destruct (Prim2SF a) as [s|s| |s m e]; simpl; try done.
  all: destruct s; simpl; try done.
Qed.


Lemma SF2R_eq_same_value (x x' : spec_float) :
  valid_binary x = true -> valid_binary x' = true ->
  finite_or_zero x -> finite_or_zero x' ->
  SF2R x = SF2R x' -> same_value x x'.
Proof.
  intros Hv Hv' Hf Hf' Heq.
  destruct (SFcompare_spec x x' Hv Hv' Hf Hf') as (c & Hc & Hs).
  assert (c = Eq) as ->.
  { destruct c; simpl in Hs; [done | lra | lra]. }
  assert (Heqb : SFeqb x x' = true) by (unfold SFeqb; by rewrite Hc).
  apply SFeqb_inv in Heqb as [(s1 & s2 & -> & ->) | [-> _]].
  - right. eauto.
  - by left.
Qed.

Section Compare.
Variables a b : float.
Hypothesis Ha : finite64 a.
Hypothesis Hb : finite64 b.

Lemma float_compare_spec :
  ∃ c, SFcompare (Prim2SF a) (Prim2SF b) = Some c ∧ cmp_spec c (B2R a) (B2R b).
Proof. apply SFcompare_spec; auto using Prim2SF_valid. Qed.

Lemma ltb_B2R : (a <? b)%float = true <-> B2R a < B2R b.
Proof.
  rewrite FloatAxioms.ltb_spec. unfold SFltb.
  destruct float_compare_spec as (c & -> & Hc).
  destruct c; simpl in Hc; split; try done; lra.
Qed.

Lemma leb_B2R : (a <=? b)%float = true <-> B2R a <= B2R b.
Proof.
  rewrite FloatAxioms.leb_spec. unfold SFleb.
  destruct float_compare_spec as (c & -> & Hc).
  destruct c; simpl in Hc; split; try done; lra.
Qed.

Lemma eqb_B2R : (a =? b)%float = true <-> B2R a = B2R b.
Proof.
  rewrite FloatAxioms.eqb_spec. unfold SFeqb.
  destruct float_compare_spec as (c & -> & Hc).
  destruct c; simpl in Hc; split; try done; lra.
Qed.

Lemma sub_rounds : B2R b <= B2R a -> rounds (B2R a - B2R b) (Prim2SF (a - b)).
Proof.
  intros Hle. rewrite FloatAxioms.sub_spec.
  apply SF64sub_rounds; auto using Prim2SF_valid.
Qed.

Lemma div_rounds : 0 <= B2R a -> 0 < B2R b -> rounds (B2R a / B2R b) (Prim2SF (a / b)).
Proof.
  intros H0 H1. rewrite FloatAxioms.div_spec.
  apply SF64div_rounds; auto using Prim2SF_valid.
Qed.

End Compare.

Lemma B2R_0 : B2R 0 = 0.
Proof. reflexivity. Qed.

Lemma B2R_1 : B2R 1 = 1.
Proof.
  unfold B2R. change (Prim2SF 1) with (S754_finite false 4503599627370496 (-52)).
  simpl. unfold F2R.
  replace (IZR 4503599627370496) with (bpow 52)
    by (rewrite bpow_IZR by lia; reflexivity).
  rewrite <- bpow_add. reflexivity.
Qed.

Lemma finite_0 : finite64 0.
Proof. done. Qed.

Lemma finite_1 : finite64 1.
Proof. done. Qed.

Lemma rounds_1 : rounds 1 (Prim2SF 1).
Proof.
  rewrite <- B2R_1. unfold B2R.
  change (Prim2SF 1) with (S754_finite false 4503599627370496 (-52)).
  by apply rounds_exact_finite.
Qed.

(** Every finite float is an integer multiple of the smallest positive
    one. *)
Lemma B2R_multiple (a : float) : finite64 a -> ∃ k : Z, B2R a = F2R k (-1074).
Proof.
  unfold finite64, B2R. pose proof (Prim2SF_valid a) as Hv.
  destruct (Prim2SF a) as [s|s| |s m e]; try done; intros _.
  - exists 0%Z. simpl. by rewrite F2R_0.
  - destruct (valid_canonical _ _ _ Hv) as [Hc _].
    destruct (canonical_digits _ _ Hc) as [_ He].
    exists (cond_Zopp s (Z.pos m) * 2 ^ (e + 1074))%Z.
    rewrite F2R_shift by lia. simpl. f_equal. lia.
Qed.

Lemma in_format_tiny : in_format (bpow (-1074)).
Proof. right. exists 1%Z, (-1074)%Z. split; [done |]. unfold F2R. lra. Qed.

(** The difference of two finite floats, when positive and not overflowing,
    rounds to a positive float. *)
Lemma sub_positive (a b : float) :
  finite64 a -> finite64 b -> B2R b < B2R a -> finite64 (a - b)%float ->
  0 < B2R (a - b).
Proof.
  intros Ha Hb Hlt Hf.
  pose proof (sub_rounds a b Ha Hb ltac:(lra)) as Hr.
  destruct (rounds_finite _ _ Hr Hf) as (_ & Hn & H0).
  destruct (B2R_multiple a Ha) as [ka Hka], (B2R_multiple b Hb) as [kb Hkb].
  assert (Hk : (kb < ka)%Z).
  { apply (F2R_lt_inv _ _ (-1074)). by rewrite <- Hka, <- Hkb. }
  assert (Hx : bpow (-1074) <= B2R a - B2R b).
  { rewrite Hka, Hkb. unfold F2R.
    assert (IZR kb + 1 <= IZR ka) by (rewrite <- plus_IZR; apply IZR_le; lia).
    pose proof (bpow_pos (-1074)). nra. }
  pose proof (nearest_ge _ _ _ Hn in_format_tiny Hx).
  pose proof (bpow_pos (-1074)). fold (B2R (a - b)) in *. lra.
Qed.

(** A rounding that compares below infinity is finite. *)
Lemma rounds_below_infinity (x : R) (a : float) :
  rounds x (Prim2SF a) -> (a <? infinity)%float = true -> finite64 a.
Proof.
  intros (m & e & _ & _ & Hz & _) Hlt.
  rewrite FloatAxioms.ltb_spec in Hlt. unfold finite64.
  change (Prim2SF infinity) with (S754_infinity false) in Hlt.
  destruct m as [|p|p]; simpl in Hz; [| | done].
  - destruct Hz as [s ->]. done.
  - rewrite Hz in *. by destruct (e <=? emax - prec)%Z.
Qed.

End Float64.

Section Gradient64.
Local Open Scope R_scope.

Lemma same_value_SF2R (x x' : spec_float) :
  same_value x x' -> SF2R x = SF2R x' ∧ (finite_or_zero x -> finite_or_zero x').
Proof. intros [-> | (s & s' & -> & ->)]; done. Qed.

Lemma same_value_sub (x x' y : spec_float) :
  finite_or_zero y -> same_value x x' -> same_value (SF64sub x y) (SF64sub x' y).
Proof.
  intros Hy [-> | (s & s' & -> & ->)]; [by left |].
  destruct y as [sy|sy| |sy my ey]; try done; simpl.
  - right. destruct s, s', sy; eauto.
  - by left.
Qed.

Lemma same_value_div (x x' : spec_float) (sy : bool) (my : positive) (ey : Z) :
  same_value x x' ->
  same_value (SF64div x (S754_finite sy my ey)) (SF64div x' (S754_finite sy my ey)).
Proof.
  intros [-> | (s & s' & -> & ->)]; [by left |]. right. simpl. eauto.
Qed.

Lemma finite_same_value (a b : float) :
  finite64 a -> finite64 b -> B2R a = B2R b -> same_value (Prim2SF a) (Prim2SF b).
Proof. intros. apply SF2R_eq_same_value; auto using Prim2SF_valid. Qed.

Lemma positive_is_finite_number (a : float) :
  finite64 a -> 0 < B2R a -> ∃ m e, Prim2SF a = S754_finite false m e.
Proof.
  unfold finite64, B2R. destruct (Prim2SF a) as [s|s| |s m e]; try done; simpl.
  - lra.
  - intros _ H. pose proof (SF2R_finite_sign s m e) as Hs. simpl in Hs.
    rewrite Hs by lra. eauto.
Qed.

Lemma zero_value_is_zero (a : float) :
  finite64 a -> B2R a = 0 -> ∃ s, Prim2SF a = S754_zero s.
Proof.
  unfold finite64, B2R. destruct (Prim2SF a) as [s|s| |s m e]; try done; simpl.
  - eauto.
  - intros _ H. pose proof (F2R_pos (Z.pos m) e ltac:(done)).
    destruct s; simpl in H; rewrite ?F2R_opp in H; lra.
Qed.

(** The gradient between two finite heights [lo < hi] whose computed
    difference is finite. *)
Section Between.
Variables lo hi : float.
Hypothesis Hlo : finite64 lo.
Hypothesis Hhi : finite64 hi.
Hypothesis Hlt : B2R lo < B2R hi.
Hypothesis Hrange : finite64 (hi - lo)%float.


Lemma range_positive : 0 < B2R (hi - lo).
Proof. by apply sub_positive. Qed.

Lemma offset_spec (y : float) :
  finite64 y -> B2R lo <= B2R y <= B2R hi ->
  finite64 (y - lo)%float ∧ 0 <= B2R (y - lo) <= B2R (hi - lo).
Proof.
  intros Hy [H1 H2].
  pose proof (sub_rounds y lo Hy Hlo H1) as Hr.
  pose proof (sub_rounds hi lo Hhi Hlo ltac:(lra)) as Hr'.
  destruct (Rle_lt_or_eq_dec _ _ H2) as [Hstrict | Heq].
  - assert (Hx : B2R y - B2R lo < B2R hi - B2R lo) by lra.
    destruct (rounds_monotone _ _ _ _ Hx Hr Hr' Hrange) as [Hf Hle].
    split; [done |]. destruct (rounds_finite _ _ Hr Hf) as (_ & _ & H0).
    split; [done | done].
  - pose proof (finite_same_value y hi Hy Hhi Heq) as Hsv.
    apply (same_value_sub _ _ (Prim2SF lo) Hlo) in Hsv.
    rewrite <- !FloatAxioms.sub_spec in Hsv.
    destruct (same_value_SF2R _ _ Hsv) as [Hv Hf].
    assert (Hsv' : same_value (Prim2SF (hi - lo)) (Prim2SF (y - lo))).
    { destruct Hsv as [-> | (s & s' & -> & ->)]; [by left | right; eauto]. }
    destruct (same_value_SF2R _ _ Hsv') as [_ Hf'].
    split; [by apply Hf' |]. unfold B2R. rewrite Hv.
    pose proof range_positive. unfold B2R in *. lra.
Qed.

Lemma red_spec (y : float) :
  finite64 y -> B2R lo <= B2R y <= B2R hi ->
  finite64 (red_of lo hi y) ∧ 0 <= B2R (red_of lo hi y) <= 1.
Proof.
  intros Hy Hin. destruct (offset_spec y Hy Hin) as (Hfn & Hn0 & Hn1).
  pose proof range_positive as Hd.
  pose proof (div_rounds _ _ Hfn Hrange Hn0 Hd) as Hr. fold (red_of lo hi y) in Hr.
  destruct (Rle_lt_or_eq_dec _ _ Hn1) as [Hstrict | Heq].
  - assert (Hq : B2R (y - lo) / B2R (hi - lo) < 1).
    { apply Rmult_lt_reg_r with (B2R (hi - lo)); [done |].
      unfold Rdiv. rewrite Rmult_assoc, Rinv_l by lra. lra. }
    destruct (rounds_monotone _ _ _ _ Hq Hr rounds_1 finite_1) as [Hf Hle].
    fold (B2R (red_of lo hi y)) in Hle. fold (B2R 1) in Hle. rewrite B2R_1 in Hle.
    split; [done |]. destruct (rounds_finite _ _ Hr Hf) as (_ & _ & H0). done.
  - pose proof (finite_same_value _ _ Hfn Hrange Heq) as Hsv.
    destruct (positive_is_finite_number _ Hrange Hd) as (m & e & Hde).
    assert (Hne : Prim2SF (y - lo) = Prim2SF (hi - lo)).
    { destruct Hsv as [-> | (s & s' & _ & Hz)]; [done |]. rewrite Hde in Hz. done. }
    assert (Hone : red_of lo hi y = 1%float).
    { apply Prim2SF_inj. unfold red_of. rewrite FloatAxioms.div_spec, Hne, Hde.
      apply SF64div_diag. }
    rewrite Hone, B2R_1. split; [apply finite_1 | lra].
Qed.

Lemma blue_spec (r : float) :
  finite64 r -> 0 <= B2R r <= 1 ->
  finite64 (1 - r)%float ∧ 0 <= B2R (1 - r) <= 1.
Proof.
  intros Hr [H0 H1].
  pose proof (sub_rounds 1 r finite_1 Hr ltac:(by rewrite B2R_1)) as Hrd.
  rewrite B2R_1 in Hrd.
  destruct (Rle_lt_or_eq_dec _ _ H0) as [Hpos | Hzero].
  - assert (Hx : 1 - B2R r < 1) by lra.
    destruct (rounds_monotone _ _ _ _ Hx Hrd rounds_1 finite_1) as [Hf Hle].
    fold (B2R (1 - r)) in Hle. fold (B2R 1) in Hle. rewrite B2R_1 in Hle.
    split; [done |]. destruct (rounds_finite _ _ Hrd Hf) as (_ & _ & Hnn). done.
  - destruct (zero_value_is_zero r Hr ltac:(lra)) as [s Hs].
    assert (Hone : (1 - r)%float = 1%float).
    { apply Prim2SF_inj. rewrite FloatAxioms.sub_spec, Hs. done. }
    rewrite Hone, B2R_1. split; [apply finite_1 | lra].
Qed.

Lemma offset_monotone (y1 y2 : float) :
  finite64 y1 -> finite64 y2 ->
  B2R lo <= B2R y1 -> B2R y1 <= B2R y2 -> B2R y2 <= B2R hi ->
  same_value (Prim2SF (y1 - lo)) (Prim2SF (y2 - lo)) ∨ B2R (y1 - lo) < B2R (y2 - lo).
Proof.
  intros Hy1 Hy2 H1 H12 H2.
  destruct (offset_spec y2 Hy2 ltac:(lra)) as (Hf2 & _).
  destruct (offset_spec y1 Hy1 ltac:(lra)) as (Hf1 & _).
  destruct (Rle_lt_or_eq_dec _ _ H12) as [Hstrict | Heq].
  - pose proof (sub_rounds y1 lo Hy1 Hlo H1) as Hr1.
    pose proof (sub_rounds y2 lo Hy2 Hlo ltac:(lra)) as Hr2.
    assert (Hx : B2R y1 - B2R lo < B2R y2 - B2R lo) by lra.
    destruct (rounds_monotone _ _ _ _ Hx Hr1 Hr2 Hf2) as [_ Hle].
    destruct (Rle_lt_or_eq_dec _ _ Hle) as [Hs | He]; [by right |].
    left. by apply finite_same_value.
  - left. pose proof (finite_same_value y1 y2 Hy1 Hy2 Heq) as Hsv.
    apply (same_value_sub _ _ (Prim2SF lo) Hlo) in Hsv.
    by rewrite <- !FloatAxioms.sub_spec in Hsv.
Qed.

Lemma red_monotone (y1 y2 : float) :
  finite64 y1 -> finite64 y2 ->
  B2R lo <= B2R y1 -> B2R y1 <= B2R y2 -> B2R y2 <= B2R hi ->
  B2R (red_of lo hi y1) <= B2R (red_of lo hi y2).
Proof.
  intros Hy1 Hy2 H1 H12 H2.
  pose proof range_positive as Hd.
  destruct (positive_is_finite_number _ Hrange Hd) as (m & e & Hde).
  destruct (offset_spec y1 Hy1 ltac:(lra)) as (Hf1 & Hn1 & _).
  destruct (offset_spec y2 Hy2 ltac:(lra)) as (Hf2 & Hn2 & _).
  destruct (red_spec y2 Hy2 ltac:(lra)) as (Hfr2 & _).
  destruct (offset_monotone y1 y2 Hy1 Hy2 H1 H12 H2) as [Hsv | Hstrict].
  - apply (same_value_div _ _ false m e) in Hsv.
    rewrite <- Hde, <- !FloatAxioms.div_spec in Hsv.
    destruct (same_value_SF2R _ _ Hsv) as [Hv _].
    unfold B2R, red_of. rewrite Hv. lra.
  - pose proof (div_rounds _ _ Hf1 Hrange Hn1 Hd) as Hr1.
    pose proof (div_rounds _ _ Hf2 Hrange Hn2 Hd) as Hr2.
    assert (Hq : B2R (y1 - lo) / B2R (hi - lo) < B2R (y2 - lo) / B2R (hi - lo)).
    { unfold Rdiv. apply Rmult_lt_compat_r; [by apply Rinv_0_lt_compat | done]. }
    by destruct (rounds_monotone _ _ _ _ Hq Hr1 Hr2 Hfr2) as [_ Hle].
Qed.

Lemma red_at_hi (y : float) : finite64 y -> B2R y = B2R hi -> red_of lo hi y = 1%float.
Proof.
  intros Hy Heq. pose proof range_positive as Hd.
  destruct (positive_is_finite_number _ Hrange Hd) as (m & e & Hde).
  pose proof (finite_same_value y hi Hy Hhi Heq) as Hsv.
  apply (same_value_sub _ _ (Prim2SF lo) Hlo) in Hsv.
  rewrite <- !FloatAxioms.sub_spec in Hsv.
  assert (Hne : Prim2SF (y - lo) = Prim2SF (hi - lo)).
  { destruct Hsv as [-> | (s & s' & _ & Hz)]; [done |]. rewrite Hde in Hz. done. }
  apply Prim2SF_inj. unfold red_of. rewrite FloatAxioms.div_spec, Hne, Hde.
  apply SF64div_diag.
Qed.

Lemma red_at_lo (y : float) : finite64 y -> B2R y = B2R lo -> B2R (red_of lo hi y) = 0.
Proof.
  intros Hy Heq. pose proof range_positive as Hd.
  destruct (positive_is_finite_number _ Hrange Hd) as (m & e & Hde).
  pose proof (finite_same_value y lo Hy Hlo Heq) as Hsv.
  apply (same_value_sub _ _ (Prim2SF lo) Hlo) in Hsv.
  rewrite <- FloatAxioms.sub_spec in Hsv.
  rewrite SF64sub_diag in Hsv by exact Hlo.
  assert (Hz : ∃ s, Prim2SF (y - lo) = S754_zero s).
  { destruct Hsv as [-> | (s & s' & -> & _)]; eauto. }
  destruct Hz as [s Hs]. unfold B2R, red_of.
  by rewrite FloatAxioms.div_spec, Hs, Hde.
Qed.

End Between.
End Gradient64.

(** ** binary64: red + blue *)

Section Float64Sum.
Local Open Scope R_scope.

(** Addition of nonnegative finite numbers. *)
Lemma SF64add_rounds (x y : spec_float) :
  valid_binary x = true -> valid_binary y = true ->
  finite_or_zero x -> finite_or_zero y ->
  0 <= SF2R x -> 0 <= SF2R y ->
  rounds (SF2R x + SF2R y) (SF64add x y).
Proof.
  intros Hvx Hvy Hfx Hfy Hx Hy.
  destruct x as [sx|sx| |sx mx ex], y as [sy|sy| |sy my ey]; try done;
    unfold SF64add, SFadd.
  - simpl SF2R. replace (0 + 0) with 0 by lra.
    destruct sx, sy; apply rounds_exact_zero.
  - pose proof (SF2R_finite_sign sy my ey Hy) as ->.
    simpl. rewrite Rplus_0_l. by apply rounds_exact_finite.
  - pose proof (SF2R_finite_sign sx mx ex Hx) as ->.
    simpl. rewrite Rplus_0_r. by apply rounds_exact_finite.
  - cbv zeta.
    set (ez := Z.min ex ey).
    assert (Hval : F2R (cond_Zopp sx (Z.pos (shl_align mx ex ez).1)
                        + cond_Zopp sy (Z.pos (shl_align my ey ez).1)) ez
                   = SF2R (S754_finite sx mx ex) + SF2R (S754_finite sy my ey)).
    { rewrite F2R_plus. rewrite !F2R_cond_Zopp_align by lia. lra. }
    rewrite <- Hval. apply binary_normalize_rounds.
    apply (F2R_le_inv 0 _ ez). rewrite F2R_0, Hval. lra.
Qed.

Lemma add_rounds (a b : float) :
  finite64 a -> finite64 b -> 0 <= B2R a -> 0 <= B2R b ->
  rounds (B2R a + B2R b) (Prim2SF (a + b)).
Proof.
  intros Ha Hb H0 H1. rewrite FloatAxioms.add_spec.
  apply SF64add_rounds; auto using Prim2SF_valid.
Qed.

(** Integers of at most 53 bits, scaled by a power of two that is not too
    small, are numbers of the format. *)
Lemma in_format_small (k e : Z) :
  (0 <= k <= 2 ^ 53)%Z -> (-1074 <= e)%Z -> in_format (F2R k e).
Proof.
  intros Hk He.
  destruct (Z.eq_dec k 0%Z) as [-> | Hnz]; [left; apply F2R_0 |].
  destruct (Z.eq_dec k (2 ^ 53)%Z) as [-> | Hne].
  - right. exists (2 ^ 52)%Z, (e + 1)%Z. split.
    + split; [done |]. change (Zdigits2 (2 ^ 52)) with 53%Z. rewrite fexp_spec. lia.
    + rewrite <- F2R_double. done.
  - destruct (Zdigits2_bounds k ltac:(lia)) as (Hd & Hlo & Hhi).
    assert (Hd53 : (Zdigits2 k <= 53)%Z).
    { destruct (Z_le_gt_dec (Zdigits2 k) 53) as [|Hgt]; [done |].
      assert (2 ^ 53 <= 2 ^ (Zdigits2 k - 1))%Z by (apply Z.pow_le_mono_r; lia). lia. }
    set (e' := Z.max (Zdigits2 k + e - 53) (-1074)).
    right. exists (k * 2 ^ (e - e'))%Z, e'. split.
    + split.
      * assert (0 < 2 ^ (e - e'))%Z by (apply Z.pow_pos_nonneg; subst e'; lia). nia.
      * rewrite Zdigits2_mul_pow by (subst e'; lia). rewrite fexp_spec.
        subst e'. lia.
    + rewrite F2R_shift by (subst e'; lia). f_equal. lia.
Qed.

Lemma canonical_unique (m1 e1 m2 e2 : Z) :
  canonical m1 e1 -> canonical m2 e2 -> F2R m1 e1 = F2R m2 e2 -> m1 = m2 ∧ e1 = e2.
Proof.
  intros H1 H2 Heq.
  assert (He : e1 = e2).
  { apply Z.le_antisymm; eapply canonical_le_exp; eauto; lra. }
  subst e2. split; [| done]. by apply (F2R_eq_inv _ _ e1).
Qed.

Lemma bpow_m53 : bpow (-53) = 2 * bpow (-54).
Proof. replace (-53)%Z with (-54 + 1)%Z by lia. apply bpow_succ. Qed.

Lemma bpow_m52 : bpow (-52) = 4 * bpow (-54).
Proof.
  replace (-52)%Z with (-53 + 1)%Z by lia. rewrite bpow_succ, bpow_m53. lra.
Qed.

Lemma F2R_one_53 : F2R (2 ^ 53) (-53) = 1.
Proof.
  unfold F2R. rewrite <- bpow_IZR by lia. rewrite <- bpow_add. reflexivity.
Qed.

Lemma F2R_one_52 : F2R (2 ^ 52) (-52) = 1.
Proof.
  unfold F2R. rewrite <- bpow_IZR by lia. rewrite <- bpow_add. reflexivity.
Qed.

(** A number within half a unit in the last place of [1] rounds to [1]. *)
Lemma nearest_one (x v : R) :
  1 - bpow (-54) <= x <= 1 + bpow (-54) ->
  nearest x v -> ties_to_even x v -> v = 1.
Proof.
  intros [Hlo Hhi] Hn Htie.
  pose proof (bpow_pos (-54)) as Heps.
  assert (Hc1 : canonical (2 ^ 53 - 1) (-53)) by done.
  assert (Hc2 : canonical (2 ^ 52) (-52)) by done.
  assert (Hpred : F2R (2 ^ 53 - 1) (-53) = 1 - 2 * bpow (-54)).
  { replace (2 ^ 53 - 1)%Z with (2 ^ 53 + -1)%Z by lia.
    rewrite F2R_plus, F2R_one_53.
    replace (F2R (-1) (-53)) with (- bpow (-53)) by (unfold F2R; lra).
    rewrite bpow_m53. lra. }
  assert (Hsucc : F2R (2 ^ 52 + 1) (-52) = 1 + 4 * bpow (-54)).
  { rewrite F2R_plus, F2R_one_52. unfold F2R. rewrite bpow_m52. lra. }
  assert (Hone : in_format 1).
  { right. exists (2 ^ 52)%Z, (-52)%Z. split; [done | by rewrite F2R_one_52]. }
  destruct Hn as [Hfv Hn]. pose proof (Hn 1 Hone) as Hn1.
  destruct (format_gap _ _ v (or_intror Hc1) Hfv) as [Hv1 | Hv1];
    destruct (format_gap _ _ v (or_intror Hc2) Hfv) as [Hv2 | Hv2].
  - rewrite Hpred in Hv1.
    assert (Hx : x = 1 - bpow (-54) ∧ v = 1 - 2 * bpow (-54)).
    { revert Hn1. unfold Rabs. destruct (Rcase_abs _), (Rcase_abs _); lra. }
    destruct Hx as [Hx Hv].
    assert (Hmid : 2 * x = F2R (2 * (2 ^ 53 - 1) + 1) (-53)).
    { replace (2 * (2 ^ 53 - 1) + 1)%Z with (2 ^ 53 + (2 ^ 53 - 1))%Z by lia.
      rewrite F2R_plus, F2R_one_53, Hpred. lra. }
    pose proof (Htie _ _ Hc1 eq_refl Hmid) as Hv'.
    replace (2 ^ 53 - 1 + 1)%Z with (2 ^ 53)%Z in Hv' by lia.
    by rewrite F2R_one_53 in Hv'.
  - rewrite Hpred in Hv1. rewrite Hsucc in Hv2. lra.
  - replace (2 ^ 53 - 1 + 1)%Z with (2 ^ 53)%Z in Hv1 by lia.
    rewrite F2R_one_53 in Hv1. rewrite F2R_one_52 in Hv2. lra.
  - rewrite Hsucc in Hv2. exfalso.
    revert Hn1. unfold Rabs. destruct (Rcase_abs _), (Rcase_abs _); lra.
Qed.

(** A rounding whose value is [1] is the float [1]. *)
Lemma rounds_to_one (x : R) (a : float) :
  1 - bpow (-54) <= x <= 1 + bpow (-54) -> rounds x (Prim2SF a) -> a = 1%float.
Proof.
  intros Hx (m & e & Hc & Hn & Hz & Htie).
  pose proof (nearest_one x _ Hx Hn Htie) as Hv.
  destruct Hc as [-> | Hc]; [rewrite F2R_0 in Hv; lra |].
  assert (Hc2 : canonical (2 ^ 52) (-52)) by done.
  rewrite <- F2R_one_52 in Hv.
  destruct (canonical_unique _ _ _ _ Hc Hc2 Hv) as [-> ->].
  simpl in Hz. by apply Prim2SF_inj.
Qed.

(** The rounding of [1 - r] is within [2^-54] of it. *)
Lemma blue_error (r : float) (m : positive) (e : Z) :
  Prim2SF r = S754_finite false m e -> (e <= -53)%Z ->
  Rabs (B2R (1 - r) - (1 - B2R r)) <= bpow (-54).
Proof.
  intros Hr He.
  pose proof (Prim2SF_valid r) as Hv. rewrite Hr in Hv.
  destruct (valid_canonical _ _ _ Hv) as [Hc _].
  destruct (canonical_digits _ _ Hc) as [Hd Hemin].
  destruct (Zdigits2_bounds (Z.pos m) ltac:(done)) as (_ & _ & Hhi).
  assert (Hm53 : (Z.pos m < 2 ^ 53)%Z).
  { assert (2 ^ Zdigits2 (Z.pos m) <= 2 ^ 53)%Z by (apply Z.pow_le_mono_r; lia). lia. }
  assert (Hfr : finite64 r) by (unfold finite64; by rewrite Hr).
  assert (HBr : B2R r = F2R (Z.pos m) e) by (unfold B2R; by rewrite Hr).
  set (t := (-53 - e)%Z).
  assert (Hpt : (0 < 2 ^ t)%Z) by (apply Z.pow_pos_nonneg; subst t; lia).
  assert (Hpe : (2 ^ (- e) = 2 ^ t * 2 ^ 53)%Z).
  { rewrite <- Z.pow_add_r by (subst t; lia). f_equal. subst t. lia. }
  set (K := (2 ^ (- e) - Z.pos m)%Z).
  assert (HK : (0 < K < 2 ^ (- e))%Z) by (subst K; nia).
  assert (Hy : 1 - B2R r = F2R K e).
  { subst K. unfold Z.sub. rewrite F2R_plus, F2R_opp, HBr.
    replace (2 ^ (- e))%Z with (1 * 2 ^ (- e))%Z by lia.
    rewrite F2R_shift by lia. replace (e + - e)%Z with 0%Z by lia.
    unfold F2R. rewrite bpow_0. lra. }
  pose proof (Z_div_mod K (2 ^ t) ltac:(lia)) as Hdiv.
  destruct (Z.div_eucl K (2 ^ t)) as [j rem]. destruct Hdiv as [HKj Hrem].
  assert (Hj : (0 <= j < 2 ^ 53)%Z) by nia.
  assert (Hsplit : F2R K e = F2R j (-53) + F2R rem e).
  { rewrite HKj, F2R_plus. f_equal. rewrite Z.mul_comm, F2R_shift by (subst t; lia).
    f_equal. subst t. lia. }
  assert (Hrho : 0 <= F2R rem e < bpow (-53)).
  { split; [apply F2R_nonneg; lia |].
    replace (bpow (-53)) with (F2R (2 ^ t) e).
    - apply F2R_lt. lia.
    - replace (2 ^ t)%Z with (1 * 2 ^ t)%Z by lia.
      rewrite F2R_shift by (subst t; lia). unfold F2R.
      replace (e + t)%Z with (-53)%Z by (subst t; lia). lra. }
  assert (HG1 : in_format (F2R j (-53))) by (apply in_format_small; lia).
  assert (HG2 : in_format (F2R (j + 1) (-53))) by (apply in_format_small; lia).
  assert (HG2v : F2R (j + 1) (-53) = F2R j (-53) + bpow (-53)).
  { rewrite F2R_plus. unfold F2R. lra. }
  assert (Hr01 : 0 <= B2R r <= 1).
  { split; [rewrite HBr; apply F2R_nonneg; lia |].
    pose proof (F2R_pos K e ltac:(lia)). lra. }
  destruct (blue_spec r Hfr Hr01) as [Hfb _].
  pose proof (sub_rounds 1 r finite_1 Hfr ltac:(rewrite B2R_1; lra)) as Hrd.
  rewrite B2R_1 in Hrd.
  destruct (rounds_finite _ _ Hrd Hfb) as (_ & [_ Hn] & _).
  fold (B2R (1 - r)) in Hn.
  pose proof (Hn _ HG1) as H1. pose proof (Hn _ HG2) as H2.
  rewrite HG2v, Hy, Hsplit in *. rewrite bpow_m53 in *.
  revert H1 H2. unfold Rabs.
  destruct (Rcase_abs _), (Rcase_abs _), (Rcase_abs _); lra.
Qed.

(** In binary64, red plus blue is [1]. *)
Lemma red_plus_blue (r : float) :
  finite64 r -> 0 <= B2R r <= 1 -> (r + (1 - r))%float = 1%float.
Proof.
  intros Hfr Hr01.
  destruct (Prim2SF r) as [s|s| |s m e] eqn:Hr;
    try (unfold finite64 in Hfr; rewrite Hr in Hfr; done).
  - assert (Hb : (1 - r)%float = 1%float).
    { apply Prim2SF_inj. rewrite FloatAxioms.sub_spec, Hr. done. }
    rewrite Hb. apply Prim2SF_inj. rewrite FloatAxioms.add_spec, Hr. done.
  - assert (s = false) as ->.
    { apply (SF2R_finite_sign s m e). unfold B2R in Hr01. rewrite Hr in Hr01. lra. }
    pose proof (Prim2SF_valid r) as Hv. rewrite Hr in Hv.
    destruct (valid_canonical _ _ _ Hv) as [Hc _].
    assert (HBr : B2R r = F2R (Z.pos m) e) by (unfold B2R; by rewrite Hr).
    assert (Hc2 : canonical (2 ^ 52) (-52)) by done.
    assert (He : (e <= -52)%Z).
    { apply (canonical_le_exp (Z.pos m) e (2 ^ 52) (-52) Hc Hc2).
      rewrite <- HBr, F2R_one_52. lra. }
    destruct (Z.eq_dec e (-52)%Z) as [-> | Hne].
    + pose proof (canonical_normal _ _ Hc ltac:(lia)) as Hd.
      destruct (Zdigits2_bounds (Z.pos m) ltac:(done)) as (_ & Hlo & _).
      rewrite Hd in Hlo.
      assert (Hle : (Z.pos m <= 2 ^ 52)%Z).
      { apply (F2R_le_inv _ _ (-52)). rewrite <- HBr, F2R_one_52. lra. }
      assert (Hm : m = 4503599627370496%positive) by lia.
      assert (Hone : r = 1%float).
      { apply Prim2SF_inj. rewrite Hr, Hm. done. }
      rewrite Hone. by vm_compute.
    + pose proof (blue_error r m e Hr ltac:(lia)) as Herr.
      destruct (blue_spec r Hfr Hr01) as [Hfb [Hb0 _]].
      pose proof (add_rounds r (1 - r) Hfr Hfb ltac:(lra) Hb0) as Hrd.
      apply (rounds_to_one _ _) in Hrd; [done |].
      revert Herr. unfold Rabs. destruct (Rcase_abs _); lra.
Qed.

End Float64Sum.

(** ** binary64: minimum and maximum of finite arrays *)

Section Float64Lists.
Local Open Scope R_scope.

Lemma finite64_not_nan (a : float) : finite64 a -> is_nan a = false.
Proof.
  intros Ha. unfold is_nan.
  by rewrite (proj2 (eqb_B2R a a Ha Ha) eq_refl).
Qed.

Lemma float_minimum_le (a b : float) :
  finite64 a -> finite64 b ->
  B2R (minimum a b) <= B2R a ∧ B2R (minimum a b) <= B2R b.
Proof.
  intros Ha Hb. unfold minimum. simpl.
  rewrite (finite64_not_nan a Ha), orb_false_r.
  destruct (a <=? b)%float eqn:Hle.
  - apply (leb_B2R a b Ha Hb) in Hle. lra.
  - assert (¬ B2R a <= B2R b).
    { intros H. apply (leb_B2R a b Ha Hb) in H. congruence. }
    lra.
Qed.

Lemma float_maximum_ge (a b : float) :
  finite64 a -> finite64 b ->
  B2R a <= B2R (maximum a b) ∧ B2R b <= B2R (maximum a b).
Proof.
  intros Ha Hb. unfold maximum. simpl.
  rewrite (finite64_not_nan a Ha), orb_false_r.
  destruct (b <=? a)%float eqn:Hle.
  - apply (leb_B2R b a Hb Ha) in Hle. lra.
  - assert (¬ B2R b <= B2R a).
    { intros H. apply (leb_B2R b a Hb Ha) in H. congruence. }
    lra.
Qed.

Lemma float_fold_minimum (l : list float) (x : float) :
  finite64 x -> Forall finite64 l ->
  B2R (fold_left minimum l x) <= B2R x
  ∧ ∀ y, y ∈ l -> B2R (fold_left minimum l x) <= B2R y.
Proof.
  revert x. induction l as [|z l IH]; intros x Hx Hl; simpl.
  - split; [lra | by intros y ?%elem_of_nil].
  - apply Forall_cons in Hl as [Hz Hl].
    destruct (float_minimum_le x z Hx Hz) as [H1 H2].
    assert (Hm : finite64 (minimum x z)).
    { by destruct (minimum_cases x z) as [-> | ->]. }
    destruct (IH (minimum x z) Hm Hl) as [Hhd Htl].
    split; [lra |].
    intros y [-> | Hy]%elem_of_cons; [lra | by apply Htl].
Qed.

Lemma float_fold_maximum (l : list float) (x : float) :
  finite64 x -> Forall finite64 l ->
  B2R x <= B2R (fold_left maximum l x)
  ∧ ∀ y, y ∈ l -> B2R y <= B2R (fold_left maximum l x).
Proof.
  revert x. induction l as [|z l IH]; intros x Hx Hl; simpl.
  - split; [lra | by intros y ?%elem_of_nil].
  - apply Forall_cons in Hl as [Hz Hl].
    destruct (float_maximum_ge x z Hx Hz) as [H1 H2].
    assert (Hm : finite64 (maximum x z)).
    { by destruct (maximum_cases x z) as [-> | ->]. }
    destruct (IH (maximum x z) Hm Hl) as [Hhd Htl].
    split; [lra |].
    intros y [-> | Hy]%elem_of_cons; [lra | by apply Htl].
Qed.

(** In an array of finite numbers the minimum is below and the maximum
    above every element. *)
Lemma float_amin_le (ys : list float) (m y : float) :
  Forall finite64 ys -> amin ys = Some m -> y ∈ ys -> B2R m <= B2R y.
Proof.
  destruct ys as [|x rest]; [done |]. intros [Hx Hl]%Forall_cons [= <-].
  destruct (float_fold_minimum rest x Hx Hl) as [Hhd Htl].
  intros [-> | Hy]%elem_of_cons; [done | by apply Htl].
Qed.

Lemma float_amax_ge (ys : list float) (m y : float) :
  Forall finite64 ys -> amax ys = Some m -> y ∈ ys -> B2R y <= B2R m.
Proof.
  destruct ys as [|x rest]; [done |]. intros [Hx Hl]%Forall_cons [= <-].
  destruct (float_fold_maximum rest x Hx Hl) as [Hhd Htl].
  intros [-> | Hy]%elem_of_cons; [done | by apply Htl].
Qed.

(** The normalised heights of a mesh with finite Y coordinates and a finite
    range: within [[0, 1]] and summing to [1] with blue, monotone in Y, [0]
    at the minimum and [1] at the maximum. *)
Lemma float_normalized_spec (ys reds : list float) (y_min y_max : float) :
  amin ys = Some y_min -> amax ys = Some y_max ->
  Forall finite64 ys -> finite64 (y_max - y_min)%float ->
  y_normalized ys = Some reds ->
  (∀ i r, reds !! i = Some r ->
     (0 <=? r)%float = true ∧ (r <=? 1)%float = true
     ∧ (0 <=? 1 - r)%float = true ∧ (1 - r <=? 1)%float = true
     ∧ (r + (1 - r))%float = 1%float)
  ∧ (∀ i j yi yj ri rj,
       ys !! i = Some yi -> ys !! j = Some yj ->
       reds !! i = Some ri -> reds !! j = Some rj ->
       (yi <=? yj)%float = true -> (ri <=? rj)%float = true)
  ∧ ((y_min <? y_max)%float = true ->
     ∀ i y r, ys !! i = Some y -> reds !! i = Some r ->
       ((y =? y_min)%float = true -> (r =? 0)%float = true)
       ∧ ((y =? y_max)%float = true -> r = 1%float)).
Proof.
  intros Hmin Hmax Hfin Hrange Hyn.
  assert (Hlo : finite64 y_min).
  { rewrite Forall_forall in Hfin. by apply Hfin, amin_elem. }
  assert (Hhi : finite64 y_max).
  { rewrite Forall_forall in Hfin. by apply Hfin, amax_elem. }
  assert (Hel : ∀ i y, ys !! i = Some y ->
            finite64 y ∧ B2R y_min <= B2R y <= B2R y_max).
  { intros i y Hi. apply list_elem_of_lookup_2 in Hi.
    split; [rewrite Forall_forall in Hfin; by apply Hfin |].
    split; [by eapply float_amin_le | by eapply float_amax_ge]. }
  destruct (y_min <? y_max)%float eqn:Hlt.
  - rewrite (y_normalized_scaled _ _ _ Hmin Hmax Hlt) in Hyn. injection Hyn as <-.
    apply (ltb_B2R y_min y_max Hlo Hhi) in Hlt.
    assert (Hred : ∀ i r, map (fun y => s_div (s_sub y y_min) (s_sub y_max y_min)) ys !! i = Some r ->
              ∃ y, ys !! i = Some y ∧ r = red_of y_min y_max y).
    { intros i r. rewrite list_lookup_fmap.
      destruct (ys !! i) as [y|]; simpl; [| done]. intros [= <-]. by exists y. }
    split; [| split].
    + intros i r Hr. apply Hred in Hr as (y & Hy & ->).
      destruct (Hel i y Hy) as [Hfy Hin].
      destruct (red_spec y_min y_max Hlo Hhi Hlt Hrange y Hfy Hin) as [Hfr Hr01].
      destruct (blue_spec _ Hfr Hr01) as [Hfb Hb01].
      split; [apply (leb_B2R 0 _ finite_0 Hfr); rewrite B2R_0; lra |].
      split; [apply (leb_B2R _ 1 Hfr finite_1); rewrite B2R_1; lra |].
      split; [apply (leb_B2R 0 _ finite_0 Hfb); rewrite B2R_0; lra |].
      split; [apply (leb_B2R _ 1 Hfb finite_1); rewrite B2R_1; lra |].
      by apply red_plus_blue.
    + intros i j yi yj ri rj Hyi Hyj Hri Hrj Hle.
      apply Hred in Hri as (yi' & Hyi' & ->). apply Hred in Hrj as (yj' & Hyj' & ->).
      rewrite Hyi in Hyi'. rewrite Hyj in Hyj'. injection Hyi' as <-. injection Hyj' as <-.
      destruct (Hel i yi Hyi) as [Hfi [Hi1 Hi2]].
      destruct (Hel j yj Hyj) as [Hfj [Hj1 Hj2]].
      apply (leb_B2R yi yj Hfi Hfj) in Hle.
      destruct (red_spec y_min y_max Hlo Hhi Hlt Hrange yi Hfi (conj Hi1 Hi2)) as [Hfri _].
      destruct (red_spec y_min y_max Hlo Hhi Hlt Hrange yj Hfj (conj Hj1 Hj2)) as [Hfrj _].
      apply (leb_B2R _ _ Hfri Hfrj).
      by apply red_monotone.
    + intros _ i y r Hy Hr. apply Hred in Hr as (y' & Hy' & ->).
      rewrite Hy in Hy'. injection Hy' as <-.
      destruct (Hel i y Hy) as [Hfy Hin].
      destruct (red_spec y_min y_max Hlo Hhi Hlt Hrange y Hfy Hin) as [Hfr _].
      split; intros Heq.
      * apply (eqb_B2R y y_min Hfy Hlo) in Heq.
        apply (eqb_B2R _ 0 Hfr finite_0). rewrite B2R_0.
        by apply red_at_lo.
      * apply (eqb_B2R y y_max Hfy Hhi) in Heq. by apply red_at_hi.
  - rewrite (y_normalized_flat _ _ _ Hmin Hmax Hlt) in Hyn. injection Hyn as <-.
    assert (Hred : ∀ i r, zeros_like ys !! i = Some r -> r = 0%float).
    { intros i r. unfold zeros_like. rewrite list_lookup_fmap.
      destruct (ys !! i); simpl; [| done]. by intros [= <-]. }
    split; [| split].
    + intros i r ->%Hred. by vm_compute.
    + intros i j yi yj ri rj _ _ ->%Hred ->%Hred _. by vm_compute.
    + done.
Qed.

End Float64Lists.

Import Viewer Diagnostics ChatEvents.

(** ** Paths *)

Section Paths.

Lemma string_app_inj (s a b : string) : s +:+ a = s +:+ b -> a = b.
Proof.
  induction s as [|c s IH]; [intros E; exact E |].
  rewrite !string_app_cons. intros [= E]. by apply IH.
Qed.

Lemma string_app_neq_self (s a : string) : a ≠ "" -> s +:+ a ≠ s.
Proof.
  intros Ha E. apply Ha, (string_app_inj s). by rewrite string_app_nil_r.
Qed.

End Paths.

(** ** binary64: NaN and infinities in the heights *)

Section Float64Special.

Lemma SFeqb_refl (x : spec_float) : x ≠ S754_nan -> SFeqb x x = true.
Proof.
  unfold SFeqb. destruct x as [s|s| |s m e]; simpl; try done; intros _.
  - by destruct s.
  - destruct s; rewrite Z.compare_refl;
      change (Pos.compare_cont Eq m m) with (Pos.compare m m);
      by rewrite Pos.compare_refl.
Qed.

Lemma is_nan_spec (a : float) : is_nan a = true -> Prim2SF a = S754_nan.
Proof.
  unfold is_nan. rewrite FloatAxioms.eqb_spec. intros Hn.
  destruct (Prim2SF a) as [s|s| |s m e]; [| | done |];
    by rewrite SFeqb_refl in Hn.
Qed.

Lemma is_nan_eq (a : float) : is_nan a = true -> a = nan.
Proof. intros Ha. apply Prim2SF_inj. by rewrite is_nan_spec. Qed.

Lemma leb_nan_r (a b : float) : is_nan b = true -> (a <=? b)%float = false.
Proof.
  intros Hb. rewrite FloatAxioms.leb_spec, (is_nan_spec b Hb).
  by destruct (Prim2SF a) as [s|s| |s m e].
Qed.

Lemma ltb_nan_l (a b : float) : is_nan a = true -> (a <? b)%float = false.
Proof. intros Ha. by rewrite FloatAxioms.ltb_spec, (is_nan_spec a Ha). Qed.

(** [np.minimum] keeps a NaN once it has met one. *)
Lemma minimum_nan_l (a b : float) : is_nan a = true -> minimum a b = a.
Proof. intros Ha. unfold minimum. simpl. by rewrite Ha, orb_true_r. Qed.

Lemma minimum_nan_r (a b : float) : is_nan b = true -> is_nan (minimum a b) = true.
Proof.
  intros Hb. unfold minimum. simpl. rewrite (leb_nan_r a b Hb). simpl.
  by destruct (is_nan a) eqn:Ha.
Qed.

Lemma fold_minimum_nan_acc (l : list float) (x : float) :
  is_nan x = true -> fold_left minimum l x = x.
Proof.
  intros Hx. induction l as [|y l IH]; simpl; [done |].
  by rewrite (minimum_nan_l x y Hx).
Qed.

Lemma fold_minimum_nan (l : list float) (x y : float) :
  y ∈ l -> is_nan y = true -> is_nan (fold_left minimum l x) = true.
Proof.
  revert x. induction l as [|z l IH]; intros x Hy Hn; [by apply elem_of_nil in Hy |].
  simpl. apply elem_of_cons in Hy as [<- | Hy]; [| by apply IH].
  pose proof (minimum_nan_r x y Hn) as Hm.
  by rewrite (fold_minimum_nan_acc l _ Hm).
Qed.

(** The minimum of an array that holds a NaN is NaN. *)
Lemma amin_nan (ys : list float) (y m : float) :
  y ∈ ys -> is_nan y = true -> amin ys = Some m -> is_nan m = true.
Proof.
  destruct ys as [|x rest]; [done |]. intros Hy Hn [= <-].
  apply elem_of_cons in Hy as [<- | Hy].
  - by rewrite (fold_minimum_nan_acc rest y Hn).
  - by apply (fold_minimum_nan rest x y).
Qed.

Lemma is_infinity_spec (a : float) :
  is_infinity a = true -> ∃ s, Prim2SF a = S754_infinity s.
Proof.
  unfold is_infinity. rewrite FloatAxioms.eqb_spec, FloatAxioms.abs_spec.
  change (Prim2SF infinity) with (S754_infinity false).
  destruct (Prim2SF a) as [s|s| |s m e]; unfold SFeqb; simpl; try done.
  by eauto.
Qed.

(** Anything divided by an infinity is a zero or NaN. *)
Lemma div_by_infinity (a b : float) :
  is_infinity b = true ->
  (∃ s, Prim2SF (a / b) = S754_zero s) ∨ (a / b)%float = nan.
Proof.
  intros [s Hb]%is_infinity_spec.
  rewrite FloatAxioms.div_spec, Hb.
  destruct (Prim2SF a) as [sa|sa| |sa ma ea] eqn:Ha; simpl; eauto.
  - right. apply Prim2SF_inj. by rewrite FloatAxioms.div_spec, Ha, Hb.
  - right. apply Prim2SF_inj. by rewrite FloatAxioms.div_spec, Ha, Hb.
Qed.

(** The row of a zero of either sign, and of NaN. *)
Lemma color_row_zero (r : float) (s : bool) :
  Prim2SF r = S754_zero s ->
  color_row r = [r; 0; 1; 1]%float ∧ (r =? 0)%float = true.
Proof.
  intros Hr. split.
  - unfold color_row. simpl. do 2 f_equal. f_equal.
    apply Prim2SF_inj. rewrite FloatAxioms.sub_spec, Hr. done.
  - rewrite FloatAxioms.eqb_spec, Hr. done.
Qed.

Lemma color_row_nan : color_row nan = [nan; 0; nan; 1]%float.
Proof. by vm_compute. Qed.

(** The vertex that is the minimum itself gets red [+0]. *)
Lemma red_of_lo (lo hi : float) :
  finite64 lo -> finite64 hi -> (B2R lo < B2R hi)%R -> finite64 (hi - lo)%float ->
  red_of lo hi lo = 0%float.
Proof.
  intros Hlo Hhi Hlt Hrange.
  pose proof (range_positive lo hi Hlo Hhi Hlt Hrange) as Hd.
  destruct (positive_is_finite_number _ Hrange Hd) as (m & e & Hde).
  apply Prim2SF_inj. unfold red_of.
  rewrite FloatAxioms.div_spec, Hde, FloatAxioms.sub_spec.
  fold SF64sub. rewrite SF64sub_diag by exact Hlo. done.
Qed.

(** [1 - r] does not increase when [r] grows within [[0, 1]]. *)
Lemma blue_monotone (r1 r2 : float) :
  finite64 r1 -> finite64 r2 ->
  (0 <= B2R r1)%R -> (B2R r1 <= B2R r2)%R -> (B2R r2 <= 1)%R ->
  (B2R (1 - r2) <= B2R (1 - r1))%R.
Proof.
  intros Hf1 Hf2 H0 H12 H1.
  destruct (blue_spec r1 Hf1 ltac:(lra)) as [Hb1 _].
  destruct (Rle_lt_or_eq_dec _ _ H12) as [Hstrict | Heq].
  - pose proof (sub_rounds 1 r1 finite_1 Hf1 ltac:(rewrite B2R_1; lra)) as Hr1.
    pose proof (sub_rounds 1 r2 finite_1 Hf2 ltac:(rewrite B2R_1; lra)) as Hr2.
    assert (Hx : (B2R 1 - B2R r2 < B2R 1 - B2R r1)%R) by lra.
    by destruct (rounds_monotone _ _ _ _ Hx Hr2 Hr1 Hb1) as [_ Hle].
  - pose proof (finite_same_value r1 r2 Hf1 Hf2 Heq) as Hsv.
    assert (Hsame : Prim2SF (1 - r1) = Prim2SF (1 - r2)).
    { rewrite !FloatAxioms.sub_spec.
      destruct Hsv as [-> | (s & s' & -> & ->)]; [done |].
      by destruct s, s'. }
    unfold B2R. rewrite Hsame. lra.
Qed.

Lemma same_value_trans (a b c : spec_float) :
  same_value a b -> same_value b c -> same_value a c.
Proof.
  intros [-> | (s & s' & -> & ->)] [<- | (t & t' & E & ->)]; try by left.
  - right. eauto.
  - right. eauto.
  - right. eauto.
Qed.

Lemma same_value_sub_r (x y y' : spec_float) :
  finite_or_zero x -> same_value y y' -> same_value (SF64sub x y) (SF64sub x y').
Proof.
  intros Hx [-> | (s & s' & -> & ->)]; [by left |].
  destruct x as [sx|sx| |sx mx ex]; try done; simpl.
  - right. destruct sx, s, s'; eauto.
  - by left.
Qed.

Lemma same_value_eqb (a b : float) :
  finite64 a -> same_value (Prim2SF a) (Prim2SF b) -> (a =? b)%float = true.
Proof.
  intros Ha Hsv. rewrite FloatAxioms.eqb_spec.
  destruct Hsv as [<- | (s & s' & -> & ->)]; [| done].
  apply SFeqb_refl. unfold finite64 in Ha. by destruct (Prim2SF a).
Qed.

(** In arrays of finite numbers that are permutations of each other, the
    minima have the same value, and so have the maxima. *)
Lemma amin_permutation (ys ys' : list float) (m m' : float) :
  ys ≡ₚ ys' -> Forall finite64 ys ->
  amin ys = Some m -> amin ys' = Some m' -> B2R m = B2R m'.
Proof.
  intros Hperm Hfin Hm Hm'.
  assert (Hfin' : Forall finite64 ys') by (by rewrite <- Hperm).
  pose proof (amin_elem _ _ Hm) as Hin. pose proof (amin_elem _ _ Hm') as Hin'.
  rewrite Hperm in Hin. rewrite <- Hperm in Hin'.
  pose proof (float_amin_le ys' m' m Hfin' Hm' Hin).
  pose proof (float_amin_le ys m m' Hfin Hm Hin').
  lra.
Qed.

Lemma amax_permutation (ys ys' : list float) (m m' : float) :
  ys ≡ₚ ys' -> Forall finite64 ys ->
  amax ys = Some m -> amax ys' = Some m' -> B2R m = B2R m'.
Proof.
  intros Hperm Hfin Hm Hm'.
  assert (Hfin' : Forall finite64 ys') by (by rewrite <- Hperm).
  pose proof (amax_elem _ _ Hm) as Hin. pose proof (amax_elem _ _ Hm') as Hin'.
  rewrite Hperm in Hin. rewrite <- Hperm in Hin'.
  pose proof (float_amax_ge ys' m' m Hfin' Hm' Hin).
  pose proof (float_amax_ge ys m m' Hfin Hm Hin').
  lra.
Qed.

(** The red and blue of a height do not depend on which of several equal
    minima and maxima the reductions return, up to the sign of a zero. *)
Lemma red_same_value (lo hi lo' hi' y : float) :
  finite64 lo -> finite64 hi -> finite64 lo' -> finite64 hi' -> finite64 y ->
  B2R lo = B2R lo' -> B2R hi = B2R hi' ->
  (B2R lo < B2R hi)%R -> (B2R lo <= B2R y <= B2R hi)%R ->
  finite64 (hi - lo)%float ->
  finite64 (hi' - lo')%float
  ∧ (red_of lo hi y =? red_of lo' hi' y)%float = true
  ∧ (1 - red_of lo hi y =? 1 - red_of lo' hi' y)%float = true.
Proof.
  intros Hlo Hhi Hlo' Hhi' Hy Elo Ehi Hlt Hin Hrange.
  pose proof (finite_same_value lo lo' Hlo Hlo' Elo) as Slo.
  pose proof (finite_same_value hi hi' Hhi Hhi' Ehi) as Shi.
  assert (Srange : same_value (Prim2SF (hi - lo)) (Prim2SF (hi' - lo'))).
  { rewrite !FloatAxioms.sub_spec.
    eapply same_value_trans; [by apply same_value_sub |].
    by apply same_value_sub_r. }
  pose proof (range_positive lo hi Hlo Hhi Hlt Hrange) as Hd.
  destruct (positive_is_finite_number _ Hrange Hd) as (m & e & Hde).
  assert (Erange : Prim2SF (hi' - lo') = S754_finite false m e).
  { destruct Srange as [<- | (s & s' & Hz & _)]; [done |]. rewrite Hde in Hz. done. }
  assert (Hrange' : finite64 (hi' - lo')%float) by (unfold finite64; by rewrite Erange).
  split; [exact Hrange' |].
  assert (Soff : same_value (Prim2SF (y - lo)) (Prim2SF (y - lo'))).
  { rewrite !FloatAxioms.sub_spec. by apply same_value_sub_r. }
  assert (Sred : same_value (Prim2SF (red_of lo hi y)) (Prim2SF (red_of lo' hi' y))).
  { unfold red_of. rewrite !FloatAxioms.div_spec, Hde, Erange.
    by apply same_value_div. }
  destruct (red_spec lo hi Hlo Hhi Hlt Hrange y Hy Hin) as [Hfr Hr01].
  destruct (blue_spec _ Hfr Hr01) as [Hfb _].
  split; [by apply same_value_eqb |].
  apply same_value_eqb; [done |].
  rewrite !FloatAxioms.sub_spec. by apply same_value_sub_r.
Qed.

End Float64Special.

(** ** Histories in other shapes *)

Section History.
Local Open Scope py_scope.

Lemma for_each_app (l1 l2 : list value) (body : value -> M unit) (h : gmap ref object) :
  for_each (l1 ++ l2) body h = (for_each l1 body ;;; for_each l2 body) h.
Proof.
  revert h. induction l1 as [|x l1 IH]; intros h; simpl; [done |].
  unfold bind. destruct (body x h) as [[[]|e] h']; [apply IH | done].
Qed.

Lemma pair_repr_unpacks h v p : pair_repr h v p -> unpacks h v p.
Proof.
  intros Hp h' Hpres. apply run_unpack2_pair. by eapply pair_repr_preserved.
Qed.

Lemma message_dict_unpacks h v :
  message_dict h v -> unpacks h v (VStr "role", VStr "content").
Proof.
  intros (r & role & content & -> & Hr) h' Hpres.
  unfold unpack2, bind. simpl. unfold bind, load.
  rewrite (Hpres r) by (apply elem_of_dom; eauto). by rewrite Hr.
Qed.

Lemma not_a_pair_raises h h' v :
  preserves h h' -> not_a_pair h v -> unpack2 v h' = (Raise ValueError, h').
Proof.
  intros Hpres (r & items & -> & Hr & Hlen).
  unfold unpack2, bind. simpl. unfold bind, load.
  rewrite (Hpres r) by (apply elem_of_dom; destruct Hr as [-> | ->]; eauto).
  destruct Hr as [-> | ->]; simpl;
    by destruct items as [|a [|b [|c items]]].
Qed.

(** One round of the loop body on an entry that unpacks. *)
Lemma loop_body_unpacks h conversation items p pair :
  unpack2 pair h = (Ok p, h) ->
  h !! conversation = Some (OList items) ->
  ∃ (d1 d2 : ref) (h' : gmap ref object),
    (ua <- unpack2 pair ;;
     m1 <- new_message "user" (fst ua) ;;
     m2 <- new_message "assistant" (snd ua) ;;
     two <- alloc (OList [VRef m1; VRef m2]) ;;
     list_extend conversation (VRef two)) h = (Ok tt, h')
    ∧ h' !! conversation = Some (OList (items ++ [VRef d1; VRef d2]))
    ∧ h' !! d1 = Some (ODict [("role", VStr "user"); ("content", fst p)])
    ∧ h' !! d2 = Some (ODict [("role", VStr "assistant"); ("content", snd p)])
    ∧ (∀ r, r ∈ dom h -> r ≠ conversation -> h' !! r = h !! r).
Proof.
  intros Hpair Hconv.
  rewrite (bind_ok _ _ _ _ _ Hpair).
  unfold new_message. unfold bind at 1, alloc at 1.
  set (d1 := fresh (dom h)).
  set (h1 := <[d1 := _]> h).
  unfold bind at 1, alloc at 1.
  set (d2 := fresh (dom h1)).
  set (h2 := <[d2 := _]> h1).
  unfold bind at 1, alloc at 1.
  set (two := fresh (dom h2)).
  set (h3 := <[two := _]> h2).
  assert (Hd1 : d1 ∉ dom h) by apply is_fresh.
  assert (Hd2 : d2 ∉ dom h1) by apply is_fresh.
  assert (Htwo : two ∉ dom h2) by apply is_fresh.
  assert (Hc : conversation ∈ dom h) by (apply elem_of_dom; eauto).
  unfold h2 in Htwo. unfold h1 in Hd2, Htwo.
  rewrite !dom_insert_L in Htwo. rewrite dom_insert_L in Hd2.
  assert (conversation ≠ d1) by (intros ->; done).
  assert (conversation ≠ d2) by (intros ->; set_solver).
  assert (conversation ≠ two) by (intros ->; set_solver).
  assert (d1 ≠ d2) by (intros E; rewrite <- E in Hd2; set_solver).
  assert (d1 ≠ two) by (intros E; rewrite <- E in Htwo; set_solver).
  assert (d2 ≠ two) by (intros E; rewrite <- E in Htwo; set_solver).
  assert (Hc3 : h3 !! conversation = Some (OList items)).
  { unfold h3, h2, h1. by rewrite !lookup_insert_ne. }
  assert (Ht3 : h3 !! two = Some (OList [VRef d1; VRef d2])).
  { unfold h3. by rewrite lookup_insert_eq. }
  rewrite (run_list_extend _ _ _ _ _ Hc3 Ht3).
  exists d1, d2. eexists. split; [reflexivity |].
  split; [by rewrite lookup_insert_eq |].
  split; [unfold h3, h2, h1; rewrite !lookup_insert_ne by done;
          by rewrite lookup_insert_eq |].
  split; [unfold h3, h2; rewrite !lookup_insert_ne by done;
          by rewrite lookup_insert_eq |].
  intros r Hr Hne. unfold h3, h2, h1.
  rewrite !lookup_insert_ne; [done | | | | done].
  - intros ->; done.
  - intros ->; set_solver.
  - intros ->; set_solver.
Qed.

(** The loop over entries that unpack appends two messages per entry. *)
Lemma loop_run_unpacks h0 conversation pairs hist :
  conversation ∉ dom h0 ->
  Forall2 (unpacks h0) pairs hist ->
  ∀ h items msgs,
    preserves h0 h ->
    h !! conversation = Some (OList items) ->
    Forall2 (λ x m, read_message h x = Some m) items msgs ->
    ∃ (h' : gmap ref object) (items' : list value),
      for_each pairs (fun pair =>
        ua <- unpack2 pair ;;
        d1 <- new_message "user" (fst ua) ;;
        d2 <- new_message "assistant" (snd ua) ;;
        two <- alloc (OList [VRef d1; VRef d2]) ;;
        list_extend conversation (VRef two)) h = (Ok tt, h')
      ∧ preserves h0 h'
      ∧ h' !! conversation = Some (OList items')
      ∧ Forall2 (λ x m, read_message h' x = Some m) items' (msgs ++ flat_map expand hist).
Proof.
  intros Hfresh Hall. induction Hall as [|pair p pairs hist Hp Hall IH];
    intros h items msgs Hpres Hconv Hread.
  - exists h, items. simpl. by rewrite app_nil_r.
  - simpl for_each.
    destruct (loop_body_unpacks h conversation items p pair (Hp h Hpres) Hconv)
      as (d1 & d2 & h1 & Hrun & Hc1 & Hd1 & Hd2 & Hrest).
    rewrite (bind_ok _ _ _ _ _ Hrun).
    assert (Hpres1 : preserves h0 h1).
    { intros r Hr. rewrite Hrest; [by apply Hpres | by eapply preserves_dom |].
      intros ->; done. }
    assert (Hdict : ∀ r es, h !! r = Some (ODict es) -> h1 !! r = Some (ODict es)).
    { intros r es Hr. rewrite Hrest; [done | apply elem_of_dom; eauto |].
      intros ->. rewrite Hconv in Hr. done. }
    destruct (IH h1 (items ++ [VRef d1; VRef d2]) (msgs ++ expand p) Hpres1 Hc1)
      as (h' & items' & Hrun' & Hpres' & Hc' & Hread').
    { apply Forall2_app.
      - eapply Forall2_impl; [exact Hread |]. intros x m Hx.
        by eapply read_message_stable.
      - unfold expand. repeat constructor; by apply read_message_dict. }
    exists h', items'. repeat split; try done.
    change (flat_map expand (p :: hist)) with (expand p ++ flat_map expand hist).
    by rewrite app_assoc.
Qed.

(** [build_conversation] on a list of entries that unpack. *)
Lemma build_conversation_unpacks h r pairs message hist :
  h !! r = Some (OList pairs) ->
  Forall2 (unpacks h) pairs hist ->
  ∃ (conversation : ref) (h' : gmap ref object),
    build_conversation (VRef r) message h = (Ok conversation, h')
    ∧ read_conversation h' conversation = Some (spec_conversation hist message)
    ∧ preserves h h'.
Proof.
  intros Hr Hall.
  unfold build_conversation. unfold bind at 1, alloc at 1.
  set (conversation := fresh (dom h)).
  set (h1 := <[conversation := OList []]> h).
  assert (Hfresh : conversation ∉ dom h) by apply is_fresh.
  assert (Hne : conversation ≠ r).
  { intros E. apply Hfresh. rewrite E. apply elem_of_dom. eauto. }
  assert (Hpres1 : preserves h h1).
  { apply preserves_insert_outside; [done | apply preserves_refl]. }
  unfold bind at 1. simpl iter_items. unfold bind at 1, load.
  replace (h1 !! r) with (Some (OList pairs))
    by (unfold h1; by rewrite lookup_insert_ne).
  simpl.
  destruct (loop_run_unpacks h conversation pairs hist Hfresh Hall h1 [] [] Hpres1)
    as (h2 & items & Hrun & Hpres2 & Hc2 & Hread2).
  { unfold h1. by rewrite lookup_insert_eq. }
  { constructor. }
  rewrite (bind_ok _ _ _ _ _ Hrun).
  unfold new_message. unfold bind at 1, alloc at 1.
  set (d := fresh (dom h2)).
  set (h3 := <[d := _]> h2).
  assert (Hd : d ∉ dom h2) by apply is_fresh.
  assert (Hcd : conversation ≠ d).
  { intros E. apply Hd. rewrite <- E. apply elem_of_dom. eauto. }
  assert (Hc3 : h3 !! conversation = Some (OList items)).
  { unfold h3. by rewrite lookup_insert_ne. }
  rewrite (bind_ok _ _ _ _ _ (run_list_append _ _ (VRef d) _ Hc3)).
  exists conversation. eexists. split; [reflexivity |]. split.
  - unfold read_conversation. rewrite lookup_insert_eq.
    apply mapM_Some. unfold spec_conversation. apply Forall2_app.
    + eapply Forall2_impl; [exact Hread2 |]. intros x m Hx.
      eapply read_message_stable; [| exact Hx].
      intros r' es Hr'.
      rewrite lookup_insert_ne by (intros <-; rewrite Hc2 in Hr'; done).
      unfold h3. rewrite lookup_insert_ne; [done |].
      intros <-. apply Hd. apply elem_of_dom. eauto.
    + repeat constructor. apply read_message_dict.
      rewrite lookup_insert_ne by done. unfold h3. by rewrite lookup_insert_eq.
  - apply preserves_insert_outside; [done |].
    unfold h3. apply preserves_insert_outside; [| done].
    intros Hin. apply Hd. by eapply preserves_dom.
Qed.

(** [build_conversation] on a list whose first entry that does not unpack
    is a list or tuple of the wrong length. *)
Lemma build_conversation_not_a_pair h r good bad rest message hist :
  h !! r = Some (OList (good ++ bad :: rest)) ->
  Forall2 (unpacks h) good hist ->
  not_a_pair h bad ->
  ∃ h', build_conversation (VRef r) message h = (Raise ValueError, h').
Proof.
  intros Hr Hall Hbad.
  unfold build_conversation. unfold bind at 1, alloc at 1.
  set (conversation := fresh (dom h)).
  set (h1 := <[conversation := OList []]> h).
  assert (Hfresh : conversation ∉ dom h) by apply is_fresh.
  assert (Hne : conversation ≠ r).
  { intros E. apply Hfresh. rewrite E. apply elem_of_dom. eauto. }
  assert (Hpres1 : preserves h h1).
  { apply preserves_insert_outside; [done | apply preserves_refl]. }
  unfold bind at 1. simpl iter_items. unfold bind at 1, load.
  replace (h1 !! r) with (Some (OList (good ++ bad :: rest)))
    by (unfold h1; by rewrite lookup_insert_ne).
  simpl.
  destruct (loop_run_unpacks h conversation good hist Hfresh Hall h1 [] [] Hpres1)
    as (h2 & items & Hrun & Hpres2 & Hc2 & Hread2).
  { unfold h1. by rewrite lookup_insert_eq. }
  { constructor. }
  exists h2. unfold bind at 1. rewrite for_each_app.
  rewrite (bind_ok _ _ _ _ _ Hrun). simpl for_each.
  unfold bind at 1. unfold bind at 1.
  by rewrite (not_a_pair_raises h h2 bad Hpres2 Hbad).
Qed.

End History.

(** ** The generator, event by event *)

Section Events.
Variable Tensor : Type.
Variable exc_text : exc -> string.

Lemma yields_of_app (l1 l2 : list (event Tensor)) :
  yields_of (l1 ++ l2) = yields_of l1 ++ yields_of l2.
Proof. apply omap_app. Qed.

Lemma calls_of_app (l1 l2 : list (event Tensor)) :
  calls_of (l1 ++ l2) = calls_of l1 ++ calls_of l2.
Proof. apply omap_app. Qed.

Lemma effects_of_app (l1 l2 : list (event Tensor)) :
  effects_of (l1 ++ l2) = effects_of l1 ++ effects_of l2.
Proof. apply omap_app. Qed.

(** A list of effects holds no yield and no call. *)
Lemma yields_of_effects (es : list effect) : yields_of (map (@Effect Tensor) es) = [].
Proof. by induction es. Qed.

Lemma calls_of_effects (es : list effect) : calls_of (map (@Effect Tensor) es) = [].
Proof. by induction es. Qed.

(** The events of the loop are the yields of [stream_loop], with one
    [print] before the error text. *)
Lemma stream_events_spec (chunks : list string) (fin : stream_end) (outputs : list string) :
  yields_of (stream_events Tensor exc_text chunks fin outputs).1
    = (stream_loop chunks fin outputs).1
  ∧ (stream_events Tensor exc_text chunks fin outputs).2
    = (stream_loop chunks fin outputs).2
  ∧ calls_of (stream_events Tensor exc_text chunks fin outputs).1 = []
  ∧ Forall (fun e => is_print e = true)
      (effects_of (stream_events Tensor exc_text chunks fin outputs).1).
Proof.
  revert outputs. induction chunks as [|text rest IH]; intros outputs.
  - simpl. destruct fin as [|e]; [by repeat split |].
    destruct (isinstance_Exception e); simpl; repeat split; by repeat constructor.
  - simpl. specialize (IH (outputs ++ [text])).
    destruct (stream_events Tensor exc_text rest fin (outputs ++ [text])) as [evs esc].
    destruct (stream_loop rest fin (outputs ++ [text])) as [ys esc'].
    simpl in *. destruct IH as (-> & -> & -> & Hp). by repeat split.
Qed.

End Events.

(** ** The diagnostics *)

Section DiagnosticsFacts.
Variable format_mb : Z -> string.
Variable exc_text : exc -> string.
Variable decode_utf8 : list Byte.byte -> option string.






End DiagnosticsFacts.

(** ** binary64: the least and the greatest element of an array *)

Section Float64Extremes.
Local Open Scope R_scope.

(** [<=] on binary64 numbers: minus infinity is below and plus infinity
    above every number, finite numbers compare as reals, and NaN compares
    with nothing. *)
Lemma leb_cases (a b : float) :
  (a <=? b)%float = true
  <-> (Prim2SF a = S754_infinity true ∧ Prim2SF b ≠ S754_nan)
      ∨ (Prim2SF b = S754_infinity false ∧ Prim2SF a ≠ S754_nan)
      ∨ (finite64 a ∧ finite64 b ∧ B2R a <= B2R b).
Proof.
  destruct (Prim2SF a) as [sa|sa| |sa ma ea] eqn:Ea;
    destruct (Prim2SF b) as [sb|sb| |sb mb eb] eqn:Eb;
    try (assert (Ha : finite64 a) by (unfold finite64; by rewrite Ea);
         assert (Hb : finite64 b) by (unfold finite64; by rewrite Eb);
         rewrite (leb_B2R a b Ha Hb);
         split; [by auto | by intros [[? _] | [[? _] | (_ & _ & ?)]]]);
    rewrite FloatAxioms.leb_spec, Ea, Eb; unfold finite64; rewrite ?Ea, ?Eb;
    try destruct sa; try destruct sb; simpl;
    (split;
     [first [done | intros _; first [left; by split | right; left; by split]]
     | first [done | by intros [[? ?] | [[? ?] | (? & ? & _)]]]]).
Qed.

Lemma leb_refl_iff (a : float) :
  (a <=? a)%float = true <-> Prim2SF a ≠ S754_nan.
Proof.
  rewrite leb_cases. unfold finite64.
  destruct (Prim2SF a) as [s|[]| |s m e]; simpl; intuition (first [congruence | lra]).
Qed.

Lemma leb_not_nan (a b : float) :
  (a <=? b)%float = true -> (a <=? a)%float = true ∧ (b <=? b)%float = true.
Proof.
  rewrite !leb_refl_iff, leb_cases. unfold finite64.
  destruct (Prim2SF a) as [sa|[]| |sa ma ea], (Prim2SF b) as [sb|[]| |sb mb eb];
    simpl; intuition congruence.
Qed.

Lemma leb_total (a b : float) :
  (a <=? a)%float = true -> (b <=? b)%float = true ->
  (a <=? b)%float = true ∨ (b <=? a)%float = true.
Proof.
  rewrite !leb_refl_iff, !leb_cases. unfold finite64.
  destruct (Rle_or_lt (B2R a) (B2R b));
    destruct (Prim2SF a) as [sa|[]| |sa ma ea], (Prim2SF b) as [sb|[]| |sb mb eb];
    simpl; intuition (first [congruence | lra]).
Qed.

Lemma leb_trans (a b c : float) :
  (a <=? b)%float = true -> (b <=? c)%float = true -> (a <=? c)%float = true.
Proof.
  rewrite !leb_cases. unfold finite64.
  destruct (Prim2SF a) as [sa|[]| |sa ma ea], (Prim2SF b) as [sb|[]| |sb mb eb],
    (Prim2SF c) as [sc|[]| |sc mc ec]; simpl; intuition (first [congruence | lra]).
Qed.

Lemma leb_antisym (a b : float) :
  (a <=? b)%float = true -> (b <=? a)%float = true -> (a =? b)%float = true.
Proof.
  intros Hab Hba.
  destruct (proj1 (leb_cases a b) Hab) as [[Ha Hb] | [[Hb Ha] | (Ha & Hb & Hle)]].
  - apply leb_cases in Hba. unfold finite64 in Hba. rewrite Ha in Hba.
    rewrite FloatAxioms.eqb_spec, Ha.
    destruct (Prim2SF b) as [sb|[]| |sb mb eb]; simpl in *; intuition congruence.
  - apply leb_cases in Hba. unfold finite64 in Hba. rewrite Hb in Hba.
    rewrite FloatAxioms.eqb_spec, Hb.
    destruct (Prim2SF a) as [sa|[]| |sa ma ea]; simpl in *; intuition congruence.
  - apply (leb_B2R b a Hb Ha) in Hba. apply (eqb_B2R a b Ha Hb). lra.
Qed.

(** Comparisons do not see which of two equal numbers they are given. *)
Lemma ltb_eqb_compat (a a' b b' : float) :
  (a =? a')%float = true -> (b =? b')%float = true ->
  (a <? b)%float = (a' <? b')%float.
Proof.
  rewrite !FloatAxioms.eqb_spec, !FloatAxioms.ltb_spec.
  intros [(s1 & s2 & -> & ->) | [-> _]]%SFeqb_inv [(s3 & s4 & -> & ->) | [-> _]]%SFeqb_inv;
    done.
Qed.

(** The reductions return a least and a greatest element. *)
Lemma minimum_least (a b : float) :
  (a <=? a)%float = true -> (b <=? b)%float = true ->
  (minimum a b <=? a)%float = true ∧ (minimum a b <=? b)%float = true.
Proof.
  intros Ha Hb. unfold minimum. simpl.
  destruct (a <=? b)%float eqn:Hab; simpl; [done |].
  destruct (is_nan a) eqn:Hn.
  - unfold is_nan in Hn. rewrite (leb_antisym a a Ha Ha) in Hn. done.
  - destruct (leb_total a b Ha Hb) as [H | H]; [congruence | done].
Qed.

Lemma maximum_greatest (a b : float) :
  (a <=? a)%float = true -> (b <=? b)%float = true ->
  (a <=? maximum a b)%float = true ∧ (b <=? maximum a b)%float = true.
Proof.
  intros Ha Hb. unfold maximum. simpl.
  destruct (b <=? a)%float eqn:Hba; simpl; [done |].
  destruct (is_nan a) eqn:Hn.
  - unfold is_nan in Hn. rewrite (leb_antisym a a Ha Ha) in Hn. done.
  - destruct (leb_total a b Ha Hb) as [H | H]; [done | congruence].
Qed.

Lemma fold_minimum_least (l : list float) (x : float) :
  (x <=? x)%float = true -> Forall (fun y => (y <=? y)%float = true) l ->
  (fold_left minimum l x <=? x)%float = true
  ∧ Forall (fun y => (fold_left minimum l x <=? y)%float = true) l.
Proof.
  revert x. induction l as [|z l IH]; intros x Hx Hl; simpl; [done |].
  apply Forall_cons in Hl as [Hz Hl].
  destruct (minimum_least x z Hx Hz) as [H1 H2].
  destruct (IH (minimum x z) (proj1 (leb_not_nan _ _ H1)) Hl) as [Hm Hrest].
  split; [by eapply leb_trans |]. constructor; [by eapply leb_trans | done].
Qed.

Lemma fold_maximum_greatest (l : list float) (x : float) :
  (x <=? x)%float = true -> Forall (fun y => (y <=? y)%float = true) l ->
  (x <=? fold_left maximum l x)%float = true
  ∧ Forall (fun y => (y <=? fold_left maximum l x)%float = true) l.
Proof.
  revert x. induction l as [|z l IH]; intros x Hx Hl; simpl; [done |].
  apply Forall_cons in Hl as [Hz Hl].
  destruct (maximum_greatest x z Hx Hz) as [H1 H2].
  destruct (IH (maximum x z) (proj2 (leb_not_nan _ _ H1)) Hl) as [Hm Hrest].
  split; [by eapply leb_trans |]. constructor; [by eapply leb_trans | done].
Qed.

(** [y.min()] and [y.max()] compare equal to any least and any greatest
    element of an array without NaN. *)
Lemma amin_is_least (ys : list float) (lo y_min : float) :
  amin ys = Some lo -> y_min ∈ ys ->
  Forall (fun y => (y_min <=? y)%float = true) ys ->
  (lo =? y_min)%float = true.
Proof.
  intros Hlo Hin Hleast.
  assert (Hnn : Forall (fun y => (y <=? y)%float = true) ys).
  { eapply Forall_impl; [exact Hleast |]. intros y Hy. by apply (leb_not_nan y_min y). }
  pose proof (amin_elem _ _ Hlo) as Hlo_in.
  rewrite Forall_forall in Hleast.
  apply leb_antisym; [| by apply Hleast].
  destruct ys as [|x rest]; [done |]. injection Hlo as <-.
  apply Forall_cons in Hnn as [Hx Hrest].
  destruct (fold_minimum_least rest x Hx Hrest) as [H1 H2].
  apply elem_of_cons in Hin as [-> | Hin]; [done |].
  rewrite Forall_forall in H2. by apply H2.
Qed.

Lemma amax_is_greatest (ys : list float) (hi y_max : float) :
  amax ys = Some hi -> y_max ∈ ys ->
  Forall (fun y => (y <=? y_max)%float = true) ys ->
  (hi =? y_max)%float = true.
Proof.
  intros Hhi Hin Hgreatest.
  assert (Hnn : Forall (fun y => (y <=? y)%float = true) ys).
  { eapply Forall_impl; [exact Hgreatest |]. intros y Hy. by apply (leb_not_nan y y_max). }
  pose proof (amax_elem _ _ Hhi) as Hhi_in.
  rewrite Forall_forall in Hgreatest.
  apply leb_antisym; [by apply Hgreatest |].
  destruct ys as [|x rest]; [done |]. injection Hhi as <-.
  apply Forall_cons in Hnn as [Hx Hrest].
  destruct (fold_maximum_greatest rest x Hx Hrest) as [H1 H2].
  apply elem_of_cons in Hin as [-> | Hin]; [done |].
  rewrite Forall_forall in H2. by apply H2.
Qed.

(** Subtraction and division do not see the sign of a zero operand, except
    in the sign of a zero result. *)
Lemma same_value_sub_any (x y y' : spec_float) :
  same_value y y' -> same_value (SF64sub x y) (SF64sub x y').
Proof.
  intros [-> | (s & s' & -> & ->)]; [by left |].
  destruct x as [sx|sx| |sx mx ex]; simpl; try (by left).
  right. destruct sx, s, s'; eauto.
Qed.

Lemma same_value_div_any (x x' d : spec_float) :
  same_value x x' -> same_value (SF64div x d) (SF64div x' d).
Proof.
  intros [-> | (s & s' & -> & ->)]; [by left |].
  destruct d as [sd|sd| |sd md ed]; simpl; try (by left); right; eauto.
Qed.

(** The normalised height computed from the array's own minimum and
    maximum is, as a number, the one computed from any least and greatest
    element. *)
Lemma scaled_same_value (lo hi y_min y_max y : float) :
  (lo =? y_min)%float = true -> (hi =? y_max)%float = true ->
  (y_min <? y_max)%float = true ->
  same_value (Prim2SF ((y - lo) / (hi - lo))) (Prim2SF ((y - y_min) / (y_max - y_min))).
Proof.
  intros Elo Ehi Hlt.
  rewrite FloatAxioms.eqb_spec in Elo, Ehi. rewrite FloatAxioms.ltb_spec in Hlt.
  rewrite !FloatAxioms.div_spec, !FloatAxioms.sub_spec.
  apply SFeqb_inv in Elo as [(s1 & s2 & Hlo & Hmin) | [Hlo _]];
    apply SFeqb_inv in Ehi as [(s3 & s4 & Hhi & Hmax) | [Hhi _]].
  - rewrite Hmin, Hmax in Hlt. done.
  - rewrite Hlo, Hmin, Hhi. rewrite Hmin in Hlt.
    assert (Hrange : SF64sub (Prim2SF y_max) (S754_zero s1)
                     = SF64sub (Prim2SF y_max) (S754_zero s2)).
    { by destruct (Prim2SF y_max) as [s|s| |s m e]. }
    rewrite Hrange. apply same_value_div_any.
    apply (same_value_sub_any (Prim2SF y)). right. eauto.
  - rewrite Hlo, Hhi, Hmax. rewrite Hmax in Hlt.
    assert (Hrange : SF64sub (S754_zero s3) (Prim2SF y_min)
                     = SF64sub (S754_zero s4) (Prim2SF y_min)).
    { by destruct (Prim2SF y_min) as [s|s| |s m e]. }
    rewrite Hrange. by left.
  - rewrite Hlo, Hhi. by left.
Qed.

(** What that says about the red and the blue channel. *)
Lemma scaled_same_color (r r' : float) :
  same_value (Prim2SF r) (Prim2SF r') ->
  same_coordinate r r' ∧ (1 - r)%float = (1 - r')%float.
Proof.
  intros [E | (s & s' & Hr & Hr')].
  - apply Prim2SF_inj in E as ->. split; [by left | done].
  - split.
    + right. by rewrite FloatAxioms.eqb_spec, Hr, Hr'.
    + apply Prim2SF_inj. by rewrite !FloatAxioms.sub_spec, Hr, Hr'.
Qed.

End Float64Extremes.

(* ===================================================================== *)
(** * Part III: the specification's claims                                *)
(* ===================================================================== *)

(** ** The chat generator *)

(** C2, as the code has it.  When the iteration over the streamer raises
    an exception that is an instance of [Exception], the exception does not
    leave [chat_llama3_8b]: after the running concatenations yielded for the
    chunks received, the generator yields exactly one more value, the
    concatenation of all chunks received followed by two line feeds and
    ["[Error during generation. Please try again.]"], and then returns. *)
Theorem chat_streaming_error_caught
    (Tensor : Type) (apply_chat_template : gmap ref object -> ref -> result Tensor)
    (terminators : list Z)
    (generation : gmap string (kwarg Tensor) -> list string * stream_end)
    (message history : value) (temperature : float) (max_new_tokens : Z)
    (h h1 : gmap ref object) (conversation : ref) (input_ids : Tensor)
    (chunks : list string) (e : exc) :
  build_conversation history message h = (Ok conversation, h1) ->
  apply_chat_template h1 conversation = Ok input_ids ->
  generation (make_generate_kwargs Tensor terminators input_ids temperature max_new_tokens)
    = (chunks, Raises e) ->
  isinstance_Exception e = true ->
  escaped (chat_llama3_8b Tensor apply_chat_template terminators generation
             message history temperature max_new_tokens h).1 = None
  ∧ yields (chat_llama3_8b Tensor apply_chat_template terminators generation
              message history temperature max_new_tokens h).1
    = map (fun k => join (take k chunks)) (seq 1 (length chunks))
        ++ [join chunks
            +:+ String "010"%char
                  (String "010"%char "[Error during generation. Please try again.]")].
Proof.
  intros Hb Ht Hg He.
  rewrite (chat_run_streaming _ _ _ _ _ _ _ _ _ _ _ _ _ _ Hb Ht Hg).
  rewrite stream_loop_spec. simpl. by rewrite He.
Qed.

Lemma chat_streaming_error_caught_witness :
  isinstance_Exception QueueEmpty = true
  ∧ escaped (chat_llama3_8b (list Z) Demo.template0 Demo.terminators0 Demo.generation_timeout
               (VStr "next") (VRef 1%positive) 0.5%float 4096 Demo.heap0).1 = None
  ∧ yields (chat_llama3_8b (list Z) Demo.template0 Demo.terminators0 Demo.generation_timeout
              (VStr "next") (VRef 1%positive) 0.5%float 4096 Demo.heap0).1
    = ["v 0 0";
       "v 0 0" +:+ String "010"%char
                     (String "010"%char "[Error during generation. Please try again.]")].
Proof.
  split; [reflexivity |].
  exact (chat_streaming_error_caught (list Z) Demo.template0 Demo.terminators0
           Demo.generation_timeout (VStr "next") (VRef 1%positive) 0.5%float 4096
           Demo.heap0
           (build_conversation (VRef 1%positive) (VStr "next") Demo.heap0).2
           4%positive [128000; 882; 128007]%Z ["v 0 0"] QueueEmpty
           eq_refl eq_refl eq_refl eq_refl).
Defined.

(** C2 as stated fails for an exception that is not an [Exception]: when the
    streamer raises [KeyboardInterrupt] after one chunk, the exception leaves
    the generator, and the only value yielded is that chunk; no error text
    follows. *)
Lemma chat_streaming_interrupt_not_caught :
  Samples.generation_interrupted
    (make_generate_kwargs (list Z) Demo.terminators0 [128000; 882; 128007]%Z 0.5%float 4096)
    = (["v 0 0"], Raises KeyboardInterrupt)
  ∧ escaped (chat_llama3_8b (list Z) Demo.template0 Demo.terminators0
               Samples.generation_interrupted
               (VStr "next") (VRef 1%positive) 0.5%float 4096 Demo.heap0).1
    = Some KeyboardInterrupt
  ∧ yields (chat_llama3_8b (list Z) Demo.template0 Demo.terminators0
              Samples.generation_interrupted
              (VStr "next") (VRef 1%positive) 0.5%float 4096 Demo.heap0).1
    = ["v 0 0"].
Proof. repeat split; reflexivity. Qed.

(** C3. In a run without error the [k]-th value yielded is the concatenation
    of the first [k] chunks; so each yielded value is a prefix of every later
    one, and the last one is the concatenation of all chunks. *)
Theorem chat_streaming_prefixes
    (Tensor : Type) (apply_chat_template : gmap ref object -> ref -> result Tensor)
    (terminators : list Z)
    (generation : gmap string (kwarg Tensor) -> list string * stream_end)
    (message history : value) (temperature : float) (max_new_tokens : Z)
    (h h1 : gmap ref object) (conversation : ref) (input_ids : Tensor)
    (chunks : list string) :
  build_conversation history message h = (Ok conversation, h1) ->
  apply_chat_template h1 conversation = Ok input_ids ->
  generation (make_generate_kwargs Tensor terminators input_ids temperature max_new_tokens)
    = (chunks, StopIteration) ->
  let ys := yields (chat_llama3_8b Tensor apply_chat_template terminators generation
                      message history temperature max_new_tokens h).1 in
  length ys = length chunks
  ∧ (∀ k, k < length chunks -> ys !! k = Some (join (take (S k) chunks)))
  ∧ (∀ i j a b, i <= j -> ys !! i = Some a -> ys !! j = Some b -> ∃ t, b = a +:+ t)
  ∧ (chunks ≠ [] -> last ys = Some (join chunks))
  ∧ escaped (chat_llama3_8b Tensor apply_chat_template terminators generation
               message history temperature max_new_tokens h).1 = None.
Proof.
  intros Hb Ht Hg ys. subst ys.
  rewrite (chat_run_streaming _ _ _ _ _ _ _ _ _ _ _ _ _ _ Hb Ht Hg). simpl.
  assert (Hlen : length (stream_loop chunks StopIteration []).1 = length chunks).
  { rewrite stream_loop_spec. simpl.
    by rewrite app_nil_r, length_map, length_seq. }
  assert (Hk : ∀ k a, (stream_loop chunks StopIteration []).1 !! k = Some a ->
                      k < length chunks ∧ a = join (take (S k) chunks)).
  { intros k a Ha. assert (k < length chunks) by (rewrite <- Hlen; by eapply lookup_lt_Some).
    split; [done |]. rewrite stream_loop_lookup in Ha by done. by inversion Ha. }
  split; [done |]. split; [intros k Hlt; by apply stream_loop_lookup |].
  split; [| split].
  - intros i j a b Hij Ha Hb'.
    apply Hk in Ha as [_ ->]. apply Hk in Hb' as [_ ->].
    apply join_take_prefix. lia.
  - intros Hne. rewrite last_lookup, Hlen.
    destruct chunks as [|c chunks']; [done |]. simpl length. simpl pred.
    rewrite stream_loop_lookup by (simpl; lia).
    by rewrite take_ge by (simpl; lia).
  - by rewrite stream_loop_spec.
Qed.

Lemma chat_streaming_prefixes_witness :
  yields (chat_llama3_8b (list Z) Demo.template0 Demo.terminators0 Demo.generation_ok
            (VStr "next") (VRef 1%positive) 0.5%float 4096 Demo.heap0).1 !! 1
    = Some (join (take 2 ["v 0 0"; " 0"]))
  ∧ last (yields (chat_llama3_8b (list Z) Demo.template0 Demo.terminators0 Demo.generation_ok
                   (VStr "next") (VRef 1%positive) 0.5%float 4096 Demo.heap0).1)
    = Some "v 0 0 0".
Proof.
  pose proof (chat_streaming_prefixes (list Z) Demo.template0 Demo.terminators0
           Demo.generation_ok (VStr "next") (VRef 1%positive) 0.5%float 4096
           Demo.heap0
           (build_conversation (VRef 1%positive) (VStr "next") Demo.heap0).2
           4%positive [128000; 882; 128007]%Z ["v 0 0"; " 0"]
           eq_refl eq_refl eq_refl) as (_ & Hk & _ & Hlast & _).
  split; [apply Hk; simpl; lia | apply Hlast; discriminate].
Defined.

(** C4. For a history that is a list of (user, assistant) pairs, the
    conversation handed to [tokenizer.apply_chat_template] is the pairs in
    order, each as a user entry followed by an assistant entry, and then one
    user entry with the new message: [2 * len(history) + 1] entries whose
    roles alternate, starting and ending with ["user"]. *)
Theorem chat_conversation_shape
    (Tensor : Type) (apply_chat_template : gmap ref object -> ref -> result Tensor)
    (terminators : list Z)
    (generation : gmap string (kwarg Tensor) -> list string * stream_end)
    (message history : value) (temperature : float) (max_new_tokens : Z)
    (h : gmap ref object) (hist : list (value * value)) :
  history_repr h history hist ->
  ∃ (conversation : ref) (c : list (value * value)),
    head (calls (chat_llama3_8b Tensor apply_chat_template terminators generation
                   message history temperature max_new_tokens h).1)
      = Some (ApplyChatTemplate conversation)
    ∧ read_conversation
        (chat_llama3_8b Tensor apply_chat_template terminators generation
           message history temperature max_new_tokens h).2 conversation = Some c
    ∧ c = spec_conversation hist message
    ∧ length c = 2 * length hist + 1
    ∧ (∀ i m, c !! i = Some m ->
         m.1 = VStr (if Nat.even i then "user" else "assistant"))
    ∧ last c = Some (VStr "user", message).
Proof.
  intros Hrepr.
  destruct (build_conversation_run h history message hist Hrepr)
    as (conversation & h1 & Hrun & Hread & _).
  exists conversation, (spec_conversation hist message).
  rewrite chat_heap, Hrun. simpl.
  split; [| split; [done | split; [done | split; [| split]]]].
  - unfold chat_llama3_8b. rewrite Hrun.
    destruct (apply_chat_template h1 conversation) as [input_ids|e]; [| done].
    destruct (generation _) as [chunks fin].
    by destruct (stream_loop chunks fin []).
  - apply spec_conversation_length.
  - apply spec_conversation_role.
  - apply spec_conversation_last.
Qed.

Lemma history0_repr : history_repr Demo.heap0 (VRef 1%positive) Demo.history0.
Proof.
  exists 1%positive, [VRef 2%positive; VRef 3%positive].
  split; [done |]. split; [done |].
  repeat constructor.
  - exists 2%positive. split; [done |]. by left.
  - exists 3%positive. split; [done |]. by right.
Defined.

Lemma chat_conversation_shape_witness :
  ∃ (conversation : ref) (c : list (value * value)),
    head (calls (chat_llama3_8b (list Z) Demo.template0 Demo.terminators0 Demo.generation_ok
                   (VStr "next") (VRef 1%positive) 0.5%float 4096 Demo.heap0).1)
      = Some (ApplyChatTemplate conversation)
    ∧ read_conversation
        (chat_llama3_8b (list Z) Demo.template0 Demo.terminators0 Demo.generation_ok
           (VStr "next") (VRef 1%positive) 0.5%float 4096 Demo.heap0).2 conversation = Some c
    ∧ c = [(VStr "user", VStr "hi"); (VStr "assistant", VStr "hello");
           (VStr "user", VStr "make a cube"); (VStr "assistant", VStr "v 0 0 0");
           (VStr "user", VStr "next")]
    ∧ length c = 5.
Proof.
  destruct (chat_conversation_shape (list Z) Demo.template0 Demo.terminators0
              Demo.generation_ok (VStr "next") (VRef 1%positive) 0.5%float 4096
              Demo.heap0 Demo.history0 history0_repr)
    as (conversation & c & Hcall & Hread & Hc & Hlen & _).
  exists conversation, c.
  split; [exact Hcall |]. split; [exact Hread |]. split; [exact Hc | exact Hlen].
Defined.

(** C5. [chat_llama3_8b] leaves every object that existed before the call
    as it was; in particular the history list and its pairs are the same
    afterwards.  The conversation is built from new objects only. *)
Theorem chat_history_untouched
    (Tensor : Type) (apply_chat_template : gmap ref object -> ref -> result Tensor)
    (terminators : list Z)
    (generation : gmap string (kwarg Tensor) -> list string * stream_end)
    (message history : value) (temperature : float) (max_new_tokens : Z)
    (h : gmap ref object) :
  (∀ r, r ∈ dom h ->
     (chat_llama3_8b Tensor apply_chat_template terminators generation
        message history temperature max_new_tokens h).2 !! r = h !! r)
  ∧ (∀ hist, history_repr h history hist ->
       history_repr
         (chat_llama3_8b Tensor apply_chat_template terminators generation
            message history temperature max_new_tokens h).2 history hist).
Proof.
  rewrite chat_heap.
  pose proof (build_conversation_frame history message h) as Hp.
  split; [exact Hp |]. intros hist. by apply history_repr_preserved.
Qed.

Lemma chat_history_untouched_witness :
  (chat_llama3_8b (list Z) Demo.template0 Demo.terminators0 Demo.generation_ok
     (VStr "next") (VRef 1%positive) 0.5%float 4096 Demo.heap0).2 !! 1%positive
    = Some (OList [VRef 2%positive; VRef 3%positive])
  ∧ history_repr
      (chat_llama3_8b (list Z) Demo.template0 Demo.terminators0 Demo.generation_ok
         (VStr "next") (VRef 1%positive) 0.5%float 4096 Demo.heap0).2
      (VRef 1%positive) Demo.history0.
Proof.
  destruct (chat_history_untouched (list Z) Demo.template0 Demo.terminators0
              Demo.generation_ok (VStr "next") (VRef 1%positive) 0.5%float 4096
              Demo.heap0) as [Hobj Hhist].
  split.
  - rewrite Hobj; [done |]. apply elem_of_dom. by eexists.
  - apply Hhist, history0_repr.
Defined.

(** C9. The kwargs of every [model.generate] call have [do_sample = False]
    exactly when [temperature == 0] holds, [do_sample = True] otherwise, and
    carry the temperature unchanged. *)
Theorem chat_do_sample_unless_zero
    (Tensor : Type) (apply_chat_template : gmap ref object -> ref -> result Tensor)
    (terminators : list Z)
    (generation : gmap string (kwarg Tensor) -> list string * stream_end)
    (message history : value) (temperature : float) (max_new_tokens : Z)
    (h : gmap ref object) (kw : gmap string (kwarg Tensor)) :
  Generate kw ∈ calls (chat_llama3_8b Tensor apply_chat_template terminators generation
                         message history temperature max_new_tokens h).1 ->
  kw !! "do_sample" = Some (KBool (negb (temperature =? 0)%float))
  ∧ kw !! "temperature" = Some (KFloat temperature).
Proof.
  intros Hin. apply chat_generate_call in Hin as (input_ids & ->).
  split; [apply kwargs_do_sample | apply kwargs_temperature].
Qed.

Lemma chat_do_sample_unless_zero_witness :
  (make_generate_kwargs (list Z) Demo.terminators0 [128000; 882; 128007]%Z 0%float 4096
     !! "do_sample" = Some (KBool false)
   ∧ make_generate_kwargs (list Z) Demo.terminators0 [128000; 882; 128007]%Z 0%float 4096
     !! "temperature" = Some (KFloat 0%float))
  ∧ (make_generate_kwargs (list Z) Demo.terminators0 [128000; 882; 128007]%Z 0.5%float 4096
     !! "do_sample" = Some (KBool true)
   ∧ make_generate_kwargs (list Z) Demo.terminators0 [128000; 882; 128007]%Z 0.5%float 4096
     !! "temperature" = Some (KFloat 0.5%float)).
Proof.
  split.
  - apply (chat_do_sample_unless_zero (list Z) Demo.template0 Demo.terminators0
             Demo.generation_ok (VStr "next") (VRef 1%positive) 0%float 4096 Demo.heap0).
    apply list_elem_of_further, list_elem_of_here.
  - apply (chat_do_sample_unless_zero (list Z) Demo.template0 Demo.terminators0
             Demo.generation_ok (VStr "next") (VRef 1%positive) 0.5%float 4096 Demo.heap0).
    apply list_elem_of_further, list_elem_of_here.
Defined.

(** ** The mesh recolouring *)

(** C1. For a mesh text that loads to a mesh whose Y coordinates have a
    least element [y_min] and a greatest element [y_max] with
    [y_min < y_max], [apply_gradient_color] computes one colour row per
    vertex: for the vertex at height [y], red is the float64 number
    [(y - y_min) / (y_max - y_min)] (that float, or a zero of the other
    sign), green is [0], blue is [1 - red] and alpha is [1].  These rows are
    what it assigns to [mesh.visual.vertex_colors]; the GLB export of the
    mesh after the assignment is written to the file [temp_file + ".glb"],
    and that path is returned. *)
Theorem apply_gradient_color_gradient
    (load_obj : string -> option (Trimesh float))
    (set_vertex_colors : Trimesh float -> list (list float) -> Trimesh float)
    (export_glb : Trimesh float -> list Byte.byte)
    (temp_file mesh_text : string) (fs : gmap string file_data)
    (mesh : Trimesh float) (y_min y_max : float) :
  load_obj mesh_text = Some mesh ->
  y_min ∈ y_column (vertices mesh) ->
  y_max ∈ y_column (vertices mesh) ->
  Forall (fun y => (y_min <=? y)%float = true ∧ (y <=? y_max)%float = true)
    (y_column (vertices mesh)) ->
  (y_min <? y_max)%float = true ->
  ∃ (colors : list (list float)) (fs' : gmap string file_data),
    gradient_colors (vertices mesh) = Some colors
    ∧ apply_gradient_color load_obj set_vertex_colors export_glb temp_file mesh_text fs
      = Some (temp_file +:+ ".glb", fs')
    ∧ fs' !! (temp_file +:+ ".glb")
      = Some (BinaryFile (export_glb (set_vertex_colors mesh colors)))
    ∧ length colors = length (vertices mesh)
    ∧ ∀ i x y z, vertices mesh !! i = Some (x, y, z) ->
        ∃ red : float,
          colors !! i = Some [red; 0; 1 - red; 1]%float
          ∧ same_coordinate red ((y - y_min) / (y_max - y_min))
          ∧ (1 - red)%float = (1 - (y - y_min) / (y_max - y_min))%float.
Proof.
  intros Hload Hin_min Hin_max Hall Hlt.
  assert (Hys : y_column (vertices mesh) ≠ []).
  { intros E. rewrite E in Hin_min. by apply elem_of_nil in Hin_min. }
  destruct (amin_is_Some _ Hys) as [lo Hlo].
  destruct (amax_is_Some _ Hys) as [hi Hhi].
  assert (Elo : (lo =? y_min)%float = true).
  { apply (amin_is_least _ _ _ Hlo Hin_min).
    eapply Forall_impl; [exact Hall |]. by intros y [? _]. }
  assert (Ehi : (hi =? y_max)%float = true).
  { apply (amax_is_greatest _ _ _ Hhi Hin_max).
    eapply Forall_impl; [exact Hall |]. by intros y [_ ?]. }
  assert (Hlt' : s_ltb lo hi = true).
  { simpl. by rewrite (ltb_eqb_compat lo y_min hi y_max Elo Ehi). }
  pose proof (y_normalized_scaled _ _ _ Hlo Hhi Hlt') as Hyn.
  pose proof (gradient_colors_rows _ _ Hyn) as Hcol.
  eexists. eexists.
  split; [exact Hcol |].
  split; [by apply apply_gradient_color_run |].
  split; [by rewrite lookup_insert_eq |].
  split; [unfold y_column; by rewrite !length_map |].
  intros i x y z Hi. unfold y_column.
  rewrite !list_lookup_fmap, Hi. simpl.
  destruct (scaled_same_color _ _ (scaled_same_value lo hi y_min y_max y Elo Ehi Hlt))
    as [Hred Hblue].
  exists ((y - lo) / (hi - lo))%float. split; [done |]. by split.
Qed.

Lemma apply_gradient_color_gradient_witness :
  ∃ (colors : list (list float)) (fs' : gmap string file_data),
    gradient_colors (vertices Demo.triangle) = Some colors
    ∧ apply_gradient_color Demo.load_triangle Demo.store_colors Demo.export_magic
        "/tmp/tmpa1" "v 0 0 0" ∅
      = Some ("/tmp/tmpa1.glb", fs')
    ∧ fs' !! "/tmp/tmpa1.glb"
      = Some (BinaryFile (Demo.export_magic (Demo.store_colors Demo.triangle colors)))
    ∧ length colors = 3
    ∧ ∃ red : float,
        colors !! 1 = Some [red; 0; 1 - red; 1]%float
        ∧ same_coordinate red 0.25%float
        ∧ (1 - red)%float = 0.75%float.
Proof.
  assert (Hmin : 0%float ∈ y_column (vertices Demo.triangle))
    by apply list_elem_of_here.
  assert (Hmax : 4%float ∈ y_column (vertices Demo.triangle))
    by apply list_elem_of_further, list_elem_of_further, list_elem_of_here.
  assert (Hall : Forall (fun y => (0 <=? y)%float = true ∧ (y <=? 4)%float = true)
                   (y_column (vertices Demo.triangle)))
    by (repeat constructor).
  assert (Hlt : (0 <? 4)%float = true) by (vm_compute; reflexivity).
  destruct (apply_gradient_color_gradient Demo.load_triangle Demo.store_colors
              Demo.export_magic "/tmp/tmpa1" "v 0 0 0" ∅ Demo.triangle 0%float 4%float
              eq_refl Hmin Hmax Hall Hlt)
    as (colors & fs' & Hcol & Hrun & Hfile & Hlen & Hrow).
  exists colors, fs'. split; [exact Hcol |]. split; [exact Hrun |].
  split; [exact Hfile |]. split; [exact Hlen |].
  exact (Hrow 1 1%float 1%float 0%float eq_refl).
Defined.

(** C7. When all vertices of a mesh with at least one vertex have the same
    Y coordinate, the normalisation takes [np.zeros_like] (nothing is
    divided) and every vertex gets the colour [(0, 0, 1, 1)]. *)
Theorem flat_mesh_is_blue
    (load_obj : string -> option (Trimesh float))
    (set_vertex_colors : Trimesh float -> list (list float) -> Trimesh float)
    (export_glb : Trimesh float -> list Byte.byte)
    (temp_file mesh_text : string) (fs : gmap string file_data)
    (mesh : Trimesh float) (y0 : float) :
  load_obj mesh_text = Some mesh ->
  vertices mesh ≠ [] ->
  Forall (fun v => same_coordinate (snd (fst v)) y0) (vertices mesh) ->
  y_normalized (y_column (vertices mesh)) = Some (zeros_like (y_column (vertices mesh)))
  ∧ gradient_colors (vertices mesh)
    = Some (replicate (length (vertices mesh)) [0; 0; 1; 1]%float)
  ∧ ∃ fs' : gmap string file_data,
      apply_gradient_color load_obj set_vertex_colors export_glb temp_file mesh_text fs
        = Some (temp_file +:+ ".glb", fs')
      ∧ fs' !! (temp_file +:+ ".glb")
        = Some (BinaryFile (export_glb (set_vertex_colors mesh
                  (replicate (length (vertices mesh)) [0; 0; 1; 1]%float)))).
Proof.
  intros Hload Hne Hsame.
  assert (Hys : y_column (vertices mesh) ≠ []).
  { unfold y_column. by destruct (vertices mesh). }
  destruct (amin_is_Some _ Hys) as [y_min Hmin].
  destruct (amax_is_Some _ Hys) as [y_max Hmax].
  assert (Hall : ∀ y, y ∈ y_column (vertices mesh) -> same_coordinate y y0).
  { intros y Hy. unfold y_column in Hy.
    apply list_elem_of_fmap in Hy as (v & -> & Hv).
    rewrite Forall_forall in Hsame. by apply Hsame. }
  assert (Hlt : s_ltb y_min y_max = false).
  { apply (same_coordinate_not_lt y_min y_max y0); apply Hall.
    - by apply amin_elem.
    - by apply amax_elem. }
  pose proof (y_normalized_flat _ _ _ Hmin Hmax Hlt) as Hyn.
  assert (Hcol : gradient_colors (vertices mesh)
                 = Some (replicate (length (vertices mesh)) [0; 0; 1; 1]%float)).
  { rewrite (gradient_colors_rows _ _ Hyn). f_equal.
    unfold zeros_like, y_column. rewrite !map_map.
    assert (Hrow : color_row (s_zero : float) = [0; 0; 1; 1]%float)
      by (vm_compute; reflexivity).
    rewrite Hrow. apply map_const_replicate. }
  split; [done |]. split; [done |].
  eexists. split; [by apply apply_gradient_color_run |].
  by rewrite lookup_insert_eq.
Qed.

Lemma flat_mesh_is_blue_witness :
  y_normalized (y_column (vertices Demo.flat)) = Some [0; 0; 0]%float
  ∧ gradient_colors (vertices Demo.flat)
    = Some [[0; 0; 1; 1]; [0; 0; 1; 1]; [0; 0; 1; 1]]%float.
Proof.
  assert (Hsame : Forall (fun v => same_coordinate (snd (fst v)) 2%float) (vertices Demo.flat)).
  { repeat constructor; by left. }
  destruct (flat_mesh_is_blue Demo.load_flat Demo.store_colors Demo.export_magic "/tmp/tmpb2" "v 0 2 0" ∅
              Demo.flat 2%float eq_refl ltac:(discriminate) Hsame)
    as (Hyn & Hcol & _).
  split; [exact Hyn | exact Hcol].
Defined.

(** C8, as the code has it.  For every mesh with at least one vertex the
    colour rows are [(red, 0, 1 - red, 1)], one per vertex: green is [0],
    alpha is [1] and blue is [1 - red] in the arithmetic of the dtype.
    - In binary64, when all Y coordinates are finite and the computed range
      [y_max - y_min] is finite (no overflow), red and blue lie in [[0, 1]],
      the binary64 sum red + blue is [1], red is monotone nondecreasing in Y,
      and when [y_max > y_min] red is [0] at the vertices of height [y_min]
      and [1] at those of height [y_max].
    - In exact arithmetic, every channel lies in [[0, 1]], red + blue = 1,
      red is monotone nondecreasing in Y, and red is [0] at the minimum and
      [1] at the maximum Y when [y_max > y_min]. *)
Theorem gradient_colors_invariants :
  (∀ vs : list (float * float * float), vs ≠ [] ->
     ∃ reds : list float,
       gradient_colors vs = Some (map (fun r => [r; 0; 1 - r; 1]%float) reds)
       ∧ length reds = length vs
       ∧ ∀ y_min y_max : float,
           amin (y_column vs) = Some y_min -> amax (y_column vs) = Some y_max ->
           Forall (fun v => is_finite (snd (fst v)) = true) vs ->
           is_finite (y_max - y_min) = true ->
           (∀ i r, reds !! i = Some r ->
              (0 <=? r)%float = true ∧ (r <=? 1)%float = true
              ∧ (0 <=? 1 - r)%float = true ∧ (1 - r <=? 1)%float = true
              ∧ (r + (1 - r))%float = 1%float)
           ∧ (∀ i j vi vj ri rj,
                vs !! i = Some vi -> vs !! j = Some vj ->
                reds !! i = Some ri -> reds !! j = Some rj ->
                (snd (fst vi) <=? snd (fst vj))%float = true ->
                (ri <=? rj)%float = true)
           ∧ ((y_min <? y_max)%float = true ->
              ∀ i v r, vs !! i = Some v -> reds !! i = Some r ->
                ((snd (fst v) =? y_min)%float = true -> (r =? 0)%float = true)
                ∧ ((snd (fst v) =? y_max)%float = true -> r = 1%float)))
  ∧ (∀ vs : list (Q * Q * Q), vs ≠ [] ->
     ∃ reds : list Q,
       gradient_colors vs = Some (map (fun r => [r; 0; 1 - r; 1]%Q) reds)
       ∧ length reds = length vs
       ∧ (∀ i r, reds !! i = Some r ->
            (0 <= r <= 1 ∧ 0 <= 1 - r <= 1 ∧ r + (1 - r) == 1)%Q)
       ∧ (∀ i j vi vj ri rj,
            vs !! i = Some vi -> vs !! j = Some vj ->
            reds !! i = Some ri -> reds !! j = Some rj ->
            (snd (fst vi) <= snd (fst vj))%Q -> (ri <= rj)%Q)
       ∧ ∀ y_min y_max : Q,
           amin (y_column vs) = Some y_min -> amax (y_column vs) = Some y_max ->
           (y_min < y_max)%Q ->
           ∀ i v r, vs !! i = Some v -> reds !! i = Some r ->
             ((snd (fst v) == y_min -> r == 0) ∧ (snd (fst v) == y_max -> r == 1))%Q).
Proof.
  split.
  - intros vs Hne.
    destruct (gradient_colors_defined vs Hne) as (reds & Hyn & Hcol & Hlen).
    exists reds. split; [exact Hcol |]. split; [exact Hlen |].
    intros y_min y_max Hmin Hmax Hfin Hrange.
    assert (Hfin' : Forall finite64 (y_column vs)).
    { unfold y_column. apply Forall_fmap.
      eapply Forall_impl; [exact Hfin |]. intros v Hv. by apply is_finite_spec. }
    apply is_finite_spec in Hrange.
    destruct (float_normalized_spec _ _ _ _ Hmin Hmax Hfin' Hrange Hyn)
      as (Hbounds & Hmono & Hends).
    assert (Hy : ∀ i v, vs !! i = Some v -> y_column vs !! i = Some (snd (fst v))).
    { intros i v Hv. unfold y_column. by rewrite list_lookup_fmap, Hv. }
    split; [exact Hbounds |]. split.
    + intros i j vi vj ri rj Hvi Hvj. apply Hmono; by apply Hy.
    + intros Hlt i v r Hv. apply Hends; [done | by apply Hy].
  - intros vs Hne.
    destruct (gradient_colors_defined vs Hne) as (reds & Hyn & Hcol & Hlen).
    exists reds. split; [exact Hcol |]. split; [exact Hlen |].
    assert (Hys : y_column vs ≠ []) by (unfold y_column; by destruct vs).
    destruct (amin_is_Some _ Hys) as [lo Hmin].
    destruct (amax_is_Some _ Hys) as [hi Hmax].
    assert (Hin : ∀ i v, vs !! i = Some v -> snd (fst v) ∈ y_column vs).
    { intros i v Hi. unfold y_column. apply list_elem_of_fmap.
      exists v. split; [done |]. by eapply list_elem_of_lookup_2. }
    destruct (s_ltb lo hi) eqn:Hlt.
    + rewrite (y_normalized_scaled _ _ _ Hmin Hmax Hlt) in Hyn.
      injection Hyn as <-. apply exact_ltb_spec in Hlt.
      assert (Hred : ∀ i r, map (fun y => s_div (s_sub y lo) (s_sub hi lo)) (y_column vs) !! i = Some r ->
                ∃ v, vs !! i = Some v ∧ r = ((snd (fst v) - lo) / (hi - lo))%Q).
      { intros i r. unfold y_column. rewrite !list_lookup_fmap.
        destruct (vs !! i) as [v|]; simpl; [| done]. intros [= <-]. by exists v. }
      split; [| split].
      * intros i r Hr. apply Hred in Hr as (v & Hv & ->).
        pose proof (exact_amin_le _ _ _ Hmin (Hin i v Hv)) as Hlo.
        pose proof (exact_amax_ge _ _ _ Hmax (Hin i v Hv)) as Hhi.
        pose proof (scaled_bounds lo hi _ Hlt Hlo Hhi) as [Hb0 Hb1].
        repeat split; Lqa.lra.
      * intros i j vi vj ri rj Hvi Hvj Hri Hrj Hle.
        apply Hred in Hri as (vi' & Hvi' & ->). apply Hred in Hrj as (vj' & Hvj' & ->).
        rewrite Hvi in Hvi'. rewrite Hvj in Hvj'. injection Hvi' as <-. injection Hvj' as <-.
        by apply scaled_monotone.
      * intros y_min y_max Hmin' Hmax' Hlt' i v r Hv Hr.
        rewrite Hmin in Hmin'. rewrite Hmax in Hmax'.
        injection Hmin' as <-. injection Hmax' as <-.
        apply Hred in Hr as (v' & Hv' & ->). rewrite Hv in Hv'. injection Hv' as <-.
        split; intros Hy; [by apply scaled_at_min | by apply scaled_at_max].
    + rewrite (y_normalized_flat _ _ _ Hmin Hmax Hlt) in Hyn.
      injection Hyn as <-.
      assert (Hred : ∀ i r, zeros_like (y_column vs) !! i = Some r -> r = 0%Q).
      { intros i r. unfold zeros_like. rewrite list_lookup_fmap.
        destruct (y_column vs !! i); simpl; [| done]. by intros [= <-]. }
      split; [| split].
      * intros i r ->%Hred. repeat split; Lqa.lra.
      * intros i j vi vj ri rj _ _ ->%Hred ->%Hred _. Lqa.lra.
      * intros y_min y_max Hmin' Hmax' Hlt'.
        rewrite Hmin in Hmin'. rewrite Hmax in Hmax'.
        injection Hmin' as <-. injection Hmax' as <-.
        apply exact_ltb_spec in Hlt'. congruence.
Qed.

Lemma gradient_colors_invariants_witness :
  (∃ reds : list float,
     gradient_colors (vertices Demo.triangle)
       = Some (map (fun r => [r; 0; 1 - r; 1]%float) reds)
     ∧ (∀ i r, reds !! i = Some r ->
          (0 <=? r)%float = true ∧ (r <=? 1)%float = true
          ∧ (0 <=? 1 - r)%float = true ∧ (1 - r <=? 1)%float = true
          ∧ (r + (1 - r))%float = 1%float)
     ∧ (∀ r, reds !! 0 = Some r -> (r =? 0)%float = true)
     ∧ (∀ r, reds !! 2 = Some r -> r = 1%float))
  ∧ (∃ reds : list Q,
     gradient_colors Demo.triangle_exact = Some (map (fun r => [r; 0; 1 - r; 1]%Q) reds)
     ∧ ∀ i r, reds !! i = Some r -> (0 <= r <= 1 ∧ 0 <= 1 - r <= 1 ∧ r + (1 - r) == 1)%Q).
Proof.
  destruct gradient_colors_invariants as [Hfloat Hexact]. split.
  - destruct (Hfloat (vertices Demo.triangle) ltac:(discriminate))
      as (reds & Hcol & _ & Hprops).
    exists reds. split; [exact Hcol |].
    assert (Hmin : amin (y_column (vertices Demo.triangle)) = Some 0%float)
      by (vm_compute; reflexivity).
    assert (Hmax : amax (y_column (vertices Demo.triangle)) = Some 4%float)
      by (vm_compute; reflexivity).
    assert (Hfin : Forall (fun v => is_finite (snd (fst v)) = true) (vertices Demo.triangle))
      by (repeat constructor).
    assert (Hrange : is_finite (4 - 0)%float = true) by (vm_compute; reflexivity).
    assert (Hlt : (0 <? 4)%float = true) by (vm_compute; reflexivity).
    destruct (Hprops 0%float 4%float Hmin Hmax Hfin Hrange) as (Hbounds & _ & Hends).
    split; [exact Hbounds |]. split.
    + intros r Hr.
      exact (proj1 (Hends Hlt 0 (0, 0, 0)%float r eq_refl Hr) eq_refl).
    + intros r Hr.
      exact (proj2 (Hends Hlt 2 (0, 4, 0)%float r eq_refl Hr) eq_refl).
  - destruct (Hexact Demo.triangle_exact ltac:(discriminate))
      as (reds & Hcol & _ & Hbounds & _).
    exists reds. split; [exact Hcol | exact Hbounds].
Defined.

(** C8 as stated fails in binary64: two vertices at heights [-2^1023] and
    [2^1023] have [y_max > y_min], but the range overflows to infinity and
    the vertex at the maximum gets red = blue = NaN, which is neither [1]
    nor within [[0, 1]]. *)
Lemma gradient_range_overflow :
  amin (y_column Demo.tall) = Some (-0x1p+1023)%float
  ∧ amax (y_column Demo.tall) = Some 0x1p+1023%float
  ∧ (-0x1p+1023 <? 0x1p+1023)%float = true
  ∧ Demo.tall !! 1 = Some (0, 0x1p+1023, 0)%float
  ∧ gradient_colors Demo.tall = Some [[0; 0; 1; 1]; [nan; 0; nan; 1]]%float
  ∧ (nan =? 1)%float = false
  ∧ (nan <=? 1)%float = false
  ∧ (0 <=? nan)%float = false.
Proof. vm_compute. repeat split; reflexivity. Qed.

(* ===================================================================== *)
(** * Part IV: further properties of the code                             *)
(* ===================================================================== *)

(** ** The mesh recolouring *)


(** X2. A successful call leaves three files behind and touches nothing
    else: the empty temporary file, the [.obj] file holding the pasted
    text, and the [.glb] file whose path it returns.  None of them is
    removed. *)
Theorem apply_gradient_color_files
    {T : Type} `{Scalar T}
    (load_obj : string -> option (Trimesh T))
    (set_vertex_colors : Trimesh T -> list (list T) -> Trimesh T)
    (export_glb : Trimesh T -> list Byte.byte)
    (temp_file mesh_text : string) (fs : gmap string file_data) (mesh : Trimesh T) :
  load_obj mesh_text = Some mesh ->
  vertices mesh ≠ [] ->
  ∃ (fs' : gmap string file_data) (glb : list Byte.byte),
    apply_gradient_color load_obj set_vertex_colors export_glb temp_file mesh_text fs
      = Some (temp_file +:+ ".glb", fs')
    ∧ fs' !! temp_file = Some (BinaryFile [])
    ∧ fs' !! (temp_file +:+ ".obj") = Some (TextFile mesh_text)
    ∧ fs' !! (temp_file +:+ ".glb") = Some (BinaryFile glb)
    ∧ ∀ path, path ≠ temp_file -> path ≠ temp_file +:+ ".obj" ->
        path ≠ temp_file +:+ ".glb" -> fs' !! path = fs !! path.
Proof.
  intros Hload Hne.
  destruct (gradient_colors_defined (vertices mesh) Hne) as (reds & _ & Hcol & _).
  assert (Hobj : temp_file +:+ ".obj" ≠ temp_file) by (by apply string_app_neq_self).
  assert (Hglb : temp_file +:+ ".glb" ≠ temp_file) by (by apply string_app_neq_self).
  assert (Hog : temp_file +:+ ".glb" ≠ temp_file +:+ ".obj").
  { intros E. by apply string_app_inj in E. }
  eexists. eexists.
  split; [by apply apply_gradient_color_run |].
  split; [do 2 (rewrite lookup_insert_ne by done); by rewrite lookup_insert_eq |].
  split; [rewrite lookup_insert_ne by done; by rewrite lookup_insert_eq |].
  split; [by rewrite lookup_insert_eq |].
  intros path H1 H2 H3. by do 3 (rewrite lookup_insert_ne by done).
Qed.

Lemma apply_gradient_color_files_witness :
  ∃ (fs' : gmap string file_data) (glb : list Byte.byte),
    apply_gradient_color Demo.load_triangle Demo.store_colors Demo.export_magic "/tmp/tmpa1" "v 0 0 0"
      (<["temp_mesh.obj" := TextFile "v 1 1 1"]> ∅)
      = Some ("/tmp/tmpa1.glb", fs')
    ∧ fs' !! "/tmp/tmpa1" = Some (BinaryFile [])
    ∧ fs' !! "/tmp/tmpa1.obj" = Some (TextFile "v 0 0 0")
    ∧ fs' !! "/tmp/tmpa1.glb" = Some (BinaryFile glb)
    ∧ fs' !! "temp_mesh.obj" = Some (TextFile "v 1 1 1").
Proof.
  destruct (apply_gradient_color_files Demo.load_triangle Demo.store_colors Demo.export_magic
              "/tmp/tmpa1" "v 0 0 0" (<["temp_mesh.obj" := TextFile "v 1 1 1"]> ∅)
              Demo.triangle eq_refl ltac:(discriminate))
    as (fs' & glb & Hrun & Htmp & Hobj & Hglb & Hrest).
  exists fs', glb. split; [exact Hrun |]. split; [exact Htmp |].
  split; [exact Hobj |]. split; [exact Hglb |].
  rewrite Hrest by discriminate. reflexivity.
Defined.

(** X3. One vertex whose Y coordinate is NaN turns the whole mesh blue: the
    minimum is then NaN, the test [y_max > y_min] fails, and every vertex
    gets the colour [(0, 0, 1, 1)] as on a flat mesh. *)
Theorem nan_height_is_blue (vs : list (float * float * float))
    (i : nat) (v : float * float * float) :
  vs !! i = Some v ->
  is_nan (snd (fst v)) = true ->
  y_normalized (y_column vs) = Some (replicate (length vs) 0%float)
  ∧ gradient_colors vs = Some (replicate (length vs) [0; 0; 1; 1]%float).
Proof.
  intros Hi Hnan.
  assert (Hin : snd (fst v) ∈ y_column vs).
  { unfold y_column. apply list_elem_of_fmap. exists v.
    split; [done | by eapply list_elem_of_lookup_2]. }
  assert (Hys : y_column vs ≠ []) by (intros E; rewrite E in Hin; by apply elem_of_nil in Hin).
  destruct (amin_is_Some _ Hys) as [y_min Hmin].
  destruct (amax_is_Some _ Hys) as [y_max Hmax].
  pose proof (amin_nan _ _ _ Hin Hnan Hmin) as Hm.
  assert (Hlt : s_ltb y_min y_max = false) by (by apply ltb_nan_l).
  pose proof (y_normalized_flat _ _ _ Hmin Hmax Hlt) as Hyn.
  split.
  - rewrite Hyn. f_equal. unfold zeros_like, y_column.
    by rewrite map_map, map_const_replicate.
  - rewrite (gradient_colors_rows _ _ Hyn). f_equal.
    unfold zeros_like, y_column. rewrite !map_map.
    assert (Hrow : color_row (s_zero : float) = [0; 0; 1; 1]%float)
      by (vm_compute; reflexivity).
    rewrite Hrow. apply map_const_replicate.
Qed.

Lemma nan_height_is_blue_witness :
  gradient_colors Samples.with_nan
  = Some [[0; 0; 1; 1]; [0; 0; 1; 1]; [0; 0; 1; 1]]%float.
Proof.
  exact (proj2 (nan_height_is_blue Samples.with_nan 1 (1, nan, 0)%float eq_refl eq_refl)).
Defined.

(** X4. On a mesh with finite Y coordinates, [y_max > y_min] and a range
    that does not overflow, the gradient uses both ends: a vertex at the
    minimum height is exactly blue [(0, 0, 1, 1)] and a vertex at the
    maximum height is exactly red [(1, 0, 0, 1)]. *)
Theorem gradient_reaches_blue_and_red (vs : list (float * float * float))
    (y_min y_max : float) :
  amin (y_column vs) = Some y_min ->
  amax (y_column vs) = Some y_max ->
  Forall (fun v => is_finite (snd (fst v)) = true) vs ->
  is_finite (y_max - y_min) = true ->
  (y_min <? y_max)%float = true ->
  ∃ (colors : list (list float)) (i j : nat) (vi vj : float * float * float),
    gradient_colors vs = Some colors
    ∧ vs !! i = Some vi ∧ snd (fst vi) = y_min
    ∧ colors !! i = Some [0; 0; 1; 1]%float
    ∧ vs !! j = Some vj ∧ snd (fst vj) = y_max
    ∧ colors !! j = Some [1; 0; 0; 1]%float.
Proof.
  intros Hmin Hmax Hfin Hrange Hlt.
  assert (Hfin' : Forall finite64 (y_column vs)).
  { unfold y_column. apply Forall_fmap.
    eapply Forall_impl; [exact Hfin |]. intros v Hv. by apply is_finite_spec. }
  apply is_finite_spec in Hrange.
  pose proof (amin_elem _ _ Hmin) as Hlo_in. pose proof (amax_elem _ _ Hmax) as Hhi_in.
  assert (Hlo : finite64 y_min) by (rewrite Forall_forall in Hfin'; by apply Hfin').
  assert (Hhi : finite64 y_max) by (rewrite Forall_forall in Hfin'; by apply Hfin').
  pose proof (y_normalized_scaled _ _ _ Hmin Hmax Hlt) as Hyn.
  pose proof (gradient_colors_rows _ _ Hyn) as Hcol.
  apply (ltb_B2R y_min y_max Hlo Hhi) in Hlt.
  assert (Hat : ∀ y, y ∈ y_column vs ->
            ∃ k vk, vs !! k = Some vk ∧ snd (fst vk) = y
              ∧ map color_row
                  (map (fun y => s_div (s_sub y y_min) (s_sub y_max y_min)) (y_column vs)) !! k
                = Some (color_row (red_of y_min y_max y))).
  { intros y Hy. apply list_elem_of_lookup in Hy as [k Hk].
    unfold y_column in Hk. rewrite list_lookup_fmap in Hk.
    destruct (vs !! k) as [vk|] eqn:Hvk; simpl in Hk; [| done].
    injection Hk as Hk. exists k, vk. split; [done |]. split; [done |].
    unfold y_column. rewrite !list_lookup_fmap, Hvk. simpl. by rewrite Hk. }
  destruct (Hat _ Hlo_in) as (i & vi & Hvi & Hyi & Hci).
  destruct (Hat _ Hhi_in) as (j & vj & Hvj & Hyj & Hcj).
  rewrite (red_of_lo y_min y_max Hlo Hhi Hlt Hrange) in Hci.
  rewrite (red_at_hi y_min y_max Hlo Hhi Hlt Hrange y_max Hhi eq_refl) in Hcj.
  eexists. exists i, j, vi, vj.
  split; [exact Hcol |]. split; [done |]. split; [done |].
  split; [exact Hci |]. split; [done |]. split; [done | exact Hcj].
Qed.

Lemma gradient_reaches_blue_and_red_witness :
  ∃ (colors : list (list float)) (i j : nat) (vi vj : float * float * float),
    gradient_colors (vertices Demo.triangle) = Some colors
    ∧ vertices Demo.triangle !! i = Some vi ∧ snd (fst vi) = 0%float
    ∧ colors !! i = Some [0; 0; 1; 1]%float
    ∧ vertices Demo.triangle !! j = Some vj ∧ snd (fst vj) = 4%float
    ∧ colors !! j = Some [1; 0; 0; 1]%float.
Proof.
  assert (Hmin : amin (y_column (vertices Demo.triangle)) = Some 0%float)
    by (vm_compute; reflexivity).
  assert (Hmax : amax (y_column (vertices Demo.triangle)) = Some 4%float)
    by (vm_compute; reflexivity).
  assert (Hfin : Forall (fun v => is_finite (snd (fst v)) = true) (vertices Demo.triangle))
    by (repeat constructor).
  assert (Hrange : is_finite (4 - 0)%float = true) by (vm_compute; reflexivity).
  assert (Hlt : (0 <? 4)%float = true) by (vm_compute; reflexivity).
  exact (gradient_reaches_blue_and_red (vertices Demo.triangle) 0%float 4%float
           Hmin Hmax Hfin Hrange Hlt).
Defined.

(** X5. When [y_max > y_min] but the range [y_max - y_min] is infinite
    (it overflowed, or a coordinate is infinite), the gradient is lost:
    every vertex is either blue, [(red, 0, 1, 1)] with red a zero, or has
    NaN for red and blue, [(nan, 0, nan, 1)]. *)
Theorem infinite_range_loses_gradient (vs : list (float * float * float))
    (y_min y_max : float) :
  amin (y_column vs) = Some y_min ->
  amax (y_column vs) = Some y_max ->
  (y_min <? y_max)%float = true ->
  is_infinity (y_max - y_min) = true ->
  ∃ colors : list (list float),
    gradient_colors vs = Some colors
    ∧ length colors = length vs
    ∧ ∀ i c, colors !! i = Some c ->
        (∃ r, c = [r; 0; 1; 1]%float ∧ (r =? 0)%float = true)
        ∨ c = [nan; 0; nan; 1]%float.
Proof.
  intros Hmin Hmax Hlt Hinf.
  pose proof (y_normalized_scaled _ _ _ Hmin Hmax Hlt) as Hyn.
  pose proof (gradient_colors_rows _ _ Hyn) as Hcol.
  eexists. split; [exact Hcol |].
  split; [unfold y_column; by rewrite !length_map |].
  intros i c. rewrite !list_lookup_fmap.
  destruct (y_column vs !! i) as [y|]; simpl; [| done]. intros [= <-].
  destruct (div_by_infinity (y - y_min) (y_max - y_min) Hinf) as [[s Hz] | Hn].
  - left. destruct (color_row_zero _ s Hz) as [Hrow Heq]. eauto.
  - right. rewrite Hn. apply color_row_nan.
Qed.

Lemma infinite_range_loses_gradient_witness :
  ∃ colors : list (list float),
    gradient_colors Demo.tall = Some colors
    ∧ length colors = 2
    ∧ ∀ i c, colors !! i = Some c ->
        (∃ r, c = [r; 0; 1; 1]%float ∧ (r =? 0)%float = true)
        ∨ c = [nan; 0; nan; 1]%float.
Proof.
  assert (Hmin : amin (y_column Demo.tall) = Some (-0x1p+1023)%float)
    by (vm_compute; reflexivity).
  assert (Hmax : amax (y_column Demo.tall) = Some 0x1p+1023%float)
    by (vm_compute; reflexivity).
  assert (Hlt : (-0x1p+1023 <? 0x1p+1023)%float = true) by (vm_compute; reflexivity).
  assert (Hinf : is_infinity (0x1p+1023 - -0x1p+1023)%float = true)
    by (vm_compute; reflexivity).
  exact (infinite_range_loses_gradient Demo.tall _ _ Hmin Hmax Hlt Hinf).
Defined.

(** X6. Blue falls as red rises: on a mesh with finite Y coordinates and
    a range that does not overflow, the blue channel [1 - red], computed in
    binary64, is monotone nonincreasing in the vertex's Y coordinate. *)
Theorem blue_is_monotone (vs : list (float * float * float)) (y_min y_max : float) :
  amin (y_column vs) = Some y_min ->
  amax (y_column vs) = Some y_max ->
  Forall (fun v => is_finite (snd (fst v)) = true) vs ->
  is_finite (y_max - y_min) = true ->
  ∃ colors : list (list float),
    gradient_colors vs = Some colors
    ∧ ∀ i j vi vj ci cj,
        vs !! i = Some vi -> vs !! j = Some vj ->
        colors !! i = Some ci -> colors !! j = Some cj ->
        (snd (fst vi) <=? snd (fst vj))%float = true ->
        ∃ bi bj, ci !! 2 = Some bi ∧ cj !! 2 = Some bj ∧ (bj <=? bi)%float = true.
Proof.
  intros Hmin Hmax Hfin Hrange.
  assert (Hfin' : Forall finite64 (y_column vs)).
  { unfold y_column. apply Forall_fmap.
    eapply Forall_impl; [exact Hfin |]. intros v Hv. by apply is_finite_spec. }
  apply is_finite_spec in Hrange.
  assert (Hlo : finite64 y_min).
  { rewrite Forall_forall in Hfin'. by apply Hfin', amin_elem. }
  assert (Hhi : finite64 y_max).
  { rewrite Forall_forall in Hfin'. by apply Hfin', amax_elem. }
  assert (Hel : ∀ i v, vs !! i = Some v ->
            finite64 (snd (fst v)) ∧ (B2R y_min <= B2R (snd (fst v)) <= B2R y_max)%R).
  { intros i v Hi.
    assert (Hin : snd (fst v) ∈ y_column vs).
    { unfold y_column. apply list_elem_of_fmap. exists v.
      split; [done | by eapply list_elem_of_lookup_2]. }
    split; [rewrite Forall_forall in Hfin'; by apply Hfin' |].
    split; [by eapply float_amin_le | by eapply float_amax_ge]. }
  destruct (y_min <? y_max)%float eqn:Hlt.
  - pose proof (y_normalized_scaled _ _ _ Hmin Hmax Hlt) as Hyn.
    pose proof (gradient_colors_rows _ _ Hyn) as Hcol.
    apply (ltb_B2R y_min y_max Hlo Hhi) in Hlt.
    eexists. split; [exact Hcol |].
    intros i j vi vj ci cj Hvi Hvj. unfold y_column.
    rewrite !list_lookup_fmap, Hvi, Hvj. simpl. intros [= <-] [= <-] Hle.
    destruct (Hel i vi Hvi) as [Hfi [Hi1 Hi2]].
    destruct (Hel j vj Hvj) as [Hfj [Hj1 Hj2]].
    apply (leb_B2R _ _ Hfi Hfj) in Hle.
    destruct (red_spec y_min y_max Hlo Hhi Hlt Hrange _ Hfi (conj Hi1 Hi2)) as [Hfri Hri].
    destruct (red_spec y_min y_max Hlo Hhi Hlt Hrange _ Hfj (conj Hj1 Hj2)) as [Hfrj Hrj].
    pose proof (red_monotone y_min y_max Hlo Hhi Hlt Hrange _ _ Hfi Hfj Hi1 Hle Hj2) as Hmono.
    destruct (blue_spec _ Hfri Hri) as [Hfbi _].
    destruct (blue_spec _ Hfrj Hrj) as [Hfbj _].
    eexists. eexists. split; [reflexivity |]. split; [reflexivity |].
    apply (leb_B2R _ _ Hfbj Hfbi).
    apply blue_monotone; [done | done | | done |]; fold (red_of y_min y_max (snd (fst vi)));
      fold (red_of y_min y_max (snd (fst vj))); lra.
  - pose proof (y_normalized_flat _ _ _ Hmin Hmax Hlt) as Hyn.
    pose proof (gradient_colors_rows _ _ Hyn) as Hcol.
    eexists. split; [exact Hcol |].
    intros i j vi vj ci cj Hvi Hvj. unfold zeros_like, y_column.
    rewrite !list_lookup_fmap, Hvi, Hvj. simpl. intros [= <-] [= <-] _.
    eexists. eexists. split; [reflexivity |]. split; [reflexivity |]. by vm_compute.
Qed.

Lemma blue_is_monotone_witness :
  ∃ colors : list (list float),
    gradient_colors (vertices Demo.triangle) = Some colors
    ∧ ∀ ci cj, colors !! 0 = Some ci -> colors !! 2 = Some cj ->
        ∃ bi bj, ci !! 2 = Some bi ∧ cj !! 2 = Some bj ∧ (bj <=? bi)%float = true.
Proof.
  assert (Hmin : amin (y_column (vertices Demo.triangle)) = Some 0%float)
    by (vm_compute; reflexivity).
  assert (Hmax : amax (y_column (vertices Demo.triangle)) = Some 4%float)
    by (vm_compute; reflexivity).
  assert (Hfin : Forall (fun v => is_finite (snd (fst v)) = true) (vertices Demo.triangle))
    by (repeat constructor).
  assert (Hrange : is_finite (4 - 0)%float = true) by (vm_compute; reflexivity).
  destruct (blue_is_monotone (vertices Demo.triangle) 0%float 4%float
              Hmin Hmax Hfin Hrange) as (colors & Hcol & Hmono).
  exists colors. split; [exact Hcol |].
  intros ci cj Hci Hcj.
  apply (Hmono 0 2 (0, 0, 0)%float (0, 4, 0)%float ci cj eq_refl eq_refl Hci Hcj).
  vm_compute. reflexivity.
Defined.

(** X7. The colour of a vertex does not depend on the order in which the
    vertices are listed.  For two meshes with the same vertices in different
    orders (finite Y coordinates, a range that does not overflow), a vertex
    gets the same red and blue in both, up to the sign of a zero: the
    channels compare equal in binary64. *)
Theorem vertex_order_is_irrelevant (vs vs' : list (float * float * float))
    (y_min y_max : float) :
  vs ≡ₚ vs' ->
  amin (y_column vs) = Some y_min ->
  amax (y_column vs) = Some y_max ->
  Forall (fun v => is_finite (snd (fst v)) = true) vs ->
  is_finite (y_max - y_min) = true ->
  ∃ reds reds' : list float,
    gradient_colors vs = Some (map (fun r => [r; 0; 1 - r; 1]%float) reds)
    ∧ gradient_colors vs' = Some (map (fun r => [r; 0; 1 - r; 1]%float) reds')
    ∧ ∀ i j v r r',
        vs !! i = Some v -> vs' !! j = Some v ->
        reds !! i = Some r -> reds' !! j = Some r' ->
        (r =? r')%float = true ∧ (1 - r =? 1 - r')%float = true.
Proof.
  intros Hperm Hmin Hmax Hfin Hrange.
  assert (Hperm' : y_column vs ≡ₚ y_column vs') by (unfold y_column; by rewrite Hperm).
  assert (Hfin1 : Forall finite64 (y_column vs)).
  { unfold y_column. apply Forall_fmap.
    eapply Forall_impl; [exact Hfin |]. intros v Hv. by apply is_finite_spec. }
  assert (Hfin2 : Forall finite64 (y_column vs')) by (by rewrite <- Hperm').
  apply is_finite_spec in Hrange.
  assert (Hys' : y_column vs' ≠ []).
  { intros E. rewrite E in Hperm'. apply Permutation_nil_r in Hperm'.
    by rewrite Hperm' in Hmin. }
  destruct (amin_is_Some _ Hys') as [y_min' Hmin'].
  destruct (amax_is_Some _ Hys') as [y_max' Hmax'].
  pose proof (amin_permutation _ _ _ _ Hperm' Hfin1 Hmin Hmin') as Elo.
  pose proof (amax_permutation _ _ _ _ Hperm' Hfin1 Hmax Hmax') as Ehi.
  assert (Hlo : finite64 y_min).
  { rewrite Forall_forall in Hfin1. by apply Hfin1, amin_elem. }
  assert (Hhi : finite64 y_max).
  { rewrite Forall_forall in Hfin1. by apply Hfin1, amax_elem. }
  assert (Hlo' : finite64 y_min').
  { rewrite Forall_forall in Hfin2. by apply Hfin2, amin_elem. }
  assert (Hhi' : finite64 y_max').
  { rewrite Forall_forall in Hfin2. by apply Hfin2, amax_elem. }
  assert (Hy : ∀ i v, vs !! i = Some v ->
            finite64 (snd (fst v)) ∧ (B2R y_min <= B2R (snd (fst v)) <= B2R y_max)%R).
  { intros i v Hi.
    assert (Hin : snd (fst v) ∈ y_column vs).
    { unfold y_column. apply list_elem_of_fmap. exists v.
      split; [done | by eapply list_elem_of_lookup_2]. }
    split; [rewrite Forall_forall in Hfin1; by apply Hfin1 |].
    split; [exact (float_amin_le _ _ _ Hfin1 Hmin Hin)
           | exact (float_amax_ge _ _ _ Hfin1 Hmax Hin)]. }
  destruct (y_min <? y_max)%float eqn:Hlt.
  - apply (ltb_B2R y_min y_max Hlo Hhi) in Hlt.
    assert (Hlt' : (y_min' <? y_max')%float = true).
    { apply (ltb_B2R y_min' y_max' Hlo' Hhi'). lra. }
    pose proof (y_normalized_scaled _ _ _ Hmin Hmax
                  (proj2 (ltb_B2R y_min y_max Hlo Hhi) Hlt)) as Hyn.
    pose proof (y_normalized_scaled _ _ _ Hmin' Hmax' Hlt') as Hyn'.
    eexists. eexists.
    split; [exact (gradient_colors_rows _ _ Hyn) |].
    split; [exact (gradient_colors_rows _ _ Hyn') |].
    intros i j v r r' Hi Hj. unfold y_column.
    rewrite !list_lookup_fmap, Hi, Hj. simpl. intros [= <-] [= <-].
    destruct (Hy i v Hi) as [Hfv Hin].
    by destruct (red_same_value y_min y_max y_min' y_max' (snd (fst v))
                   Hlo Hhi Hlo' Hhi' Hfv Elo Ehi Hlt Hin Hrange) as (_ & ? & ?).
  - assert (Hlt' : (y_min' <? y_max')%float = false).
    { destruct (y_min' <? y_max')%float eqn:E; [| done].
      apply (ltb_B2R y_min' y_max' Hlo' Hhi') in E.
      assert (Hc : (B2R y_min < B2R y_max)%R) by lra.
      apply (ltb_B2R y_min y_max Hlo Hhi) in Hc. congruence. }
    pose proof (y_normalized_flat _ _ _ Hmin Hmax Hlt) as Hyn.
    pose proof (y_normalized_flat _ _ _ Hmin' Hmax' Hlt') as Hyn'.
    eexists. eexists.
    split; [exact (gradient_colors_rows _ _ Hyn) |].
    split; [exact (gradient_colors_rows _ _ Hyn') |].
    intros i j v r r' Hi Hj. unfold zeros_like, y_column.
    rewrite !list_lookup_fmap, Hi, Hj. simpl. intros [= <-] [= <-].
    by vm_compute.
Qed.

Lemma vertex_order_is_irrelevant_witness :
  ∃ reds reds' : list float,
    gradient_colors (vertices Demo.triangle)
      = Some (map (fun r => [r; 0; 1 - r; 1]%float) reds)
    ∧ gradient_colors (reverse (vertices Demo.triangle))
      = Some (map (fun r => [r; 0; 1 - r; 1]%float) reds')
    ∧ ∀ r r', reds !! 1 = Some r -> reds' !! 1 = Some r' ->
        (r =? r')%float = true ∧ (1 - r =? 1 - r')%float = true.
Proof.
  assert (Hmin : amin (y_column (vertices Demo.triangle)) = Some 0%float)
    by (vm_compute; reflexivity).
  assert (Hmax : amax (y_column (vertices Demo.triangle)) = Some 4%float)
    by (vm_compute; reflexivity).
  assert (Hfin : Forall (fun v => is_finite (snd (fst v)) = true) (vertices Demo.triangle))
    by (repeat constructor).
  assert (Hrange : is_finite (4 - 0)%float = true) by (vm_compute; reflexivity).
  destruct (vertex_order_is_irrelevant (vertices Demo.triangle)
              (reverse (vertices Demo.triangle)) 0%float 4%float
              (symmetry (reverse_Permutation _)) Hmin Hmax Hfin Hrange)
    as (reds & reds' & Hcol & Hcol' & Hsame).
  exists reds, reds'. split; [exact Hcol |]. split; [exact Hcol' |].
  intros r r'. exact (Hsame 1 1 (1, 1, 0)%float r r' eq_refl eq_refl).
Defined.

(** ** [visualize_mesh] *)

(** X8. [visualize_mesh] always writes to the one path ["temp_mesh.obj"]
    and returns it.  After any number of calls, one after the other, the
    file system is the one before the calls with the text of the last call at
    ["temp_mesh.obj"]: no other path has changed, what the earlier calls
    wrote is gone, and the paths they returned show the last text. *)
Theorem visualize_mesh_shares_one_file
    (texts : list string) (last_text : string) (fs : gmap string file_data) :
  let after :=
    foldl (fun fs text => (visualize_mesh text fs).2) fs (texts ++ [last_text]) in
  (∀ text fs0, (visualize_mesh text fs0).1 = "temp_mesh.obj")
  ∧ after = <["temp_mesh.obj" := TextFile last_text]> fs
  ∧ after !! "temp_mesh.obj" = Some (TextFile last_text)
  ∧ ∀ path, path ≠ "temp_mesh.obj" -> after !! path = fs !! path.
Proof.
  assert (Hfold : ∀ fs0,
            foldl (fun fs text => (visualize_mesh text fs).2) fs0 (texts ++ [last_text])
            = <["temp_mesh.obj" := TextFile last_text]> fs0).
  { induction texts as [|text texts IH]; intros fs0; [done |].
    simpl. rewrite IH. unfold visualize_mesh. simpl. by rewrite insert_insert_eq. }
  cbv zeta. rewrite Hfold.
  split; [done |]. split; [done |].
  split; [by rewrite lookup_insert_eq |].
  intros path Hp. by rewrite lookup_insert_ne.
Qed.


(** ** The chat generator *)

(** X9. A history entry that is a list or tuple of the wrong length (after
    entries that are pairs) makes the generator raise [ValueError] when it
    is first advanced: nothing is yielded, and neither the tokenizer nor
    the model is called. *)
Theorem chat_malformed_history_raises
    (Tensor : Type) (apply_chat_template : gmap ref object -> ref -> result Tensor)
    (terminators : list Z)
    (generation : gmap string (kwarg Tensor) -> list string * stream_end)
    (message : value) (temperature : float) (max_new_tokens : Z)
    (h : gmap ref object) (r : ref) (good rest : list value) (bad : value)
    (hist : list (value * value)) :
  h !! r = Some (OList (good ++ bad :: rest)) ->
  Forall2 (pair_repr h) good hist ->
  not_a_pair h bad ->
  (chat_llama3_8b Tensor apply_chat_template terminators generation
     message (VRef r) temperature max_new_tokens h).1
  = mkRun [] (Some ValueError) [].
Proof.
  intros Hr Hgood Hbad.
  assert (Hall : Forall2 (unpacks h) good hist).
  { eapply Forall2_impl; [exact Hgood |]. intros. by apply pair_repr_unpacks. }
  destruct (build_conversation_not_a_pair h r good bad rest message hist Hr Hall Hbad)
    as [h' Hrun].
  unfold chat_llama3_8b. by rewrite Hrun.
Qed.

Lemma chat_malformed_history_raises_witness :
  (chat_llama3_8b (list Z) Demo.template0 Demo.terminators0 Demo.generation_ok
     (VStr "next") (VRef 1%positive) 0.5%float 4096 Samples.heap_triple).1
  = mkRun [] (Some ValueError) [].
Proof.
  apply (chat_malformed_history_raises (list Z) Demo.template0 Demo.terminators0
           Demo.generation_ok (VStr "next") 0.5%float 4096 Samples.heap_triple
           1%positive [VRef 2%positive] [] (VRef 3%positive) [(VStr "hi", VStr "hello")]).
  - reflexivity.
  - repeat constructor. exists 2%positive. split; [reflexivity |]. by left.
  - exists 3%positive, [VStr "a"; VStr "b"; VStr "c"].
    split; [reflexivity |]. split; [by right | discriminate].
Defined.

(** X10. When the entries of the history are dicts with the keys ["role"]
    and ["content"] (the "messages" format) instead of pairs, unpacking an
    entry yields its keys: the conversation handed to the tokenizer has, for
    each entry, a user message ["role"] and an assistant message
    ["content"], whatever the dicts hold, followed by the new message. *)
Theorem chat_messages_history_uses_keys
    (Tensor : Type) (apply_chat_template : gmap ref object -> ref -> result Tensor)
    (terminators : list Z)
    (generation : gmap string (kwarg Tensor) -> list string * stream_end)
    (message : value) (temperature : float) (max_new_tokens : Z)
    (h : gmap ref object) (r : ref) (entries : list value) :
  h !! r = Some (OList entries) ->
  Forall (message_dict h) entries ->
  ∃ conversation : ref,
    head (calls (chat_llama3_8b Tensor apply_chat_template terminators generation
                   message (VRef r) temperature max_new_tokens h).1)
      = Some (ApplyChatTemplate conversation)
    ∧ read_conversation
        (chat_llama3_8b Tensor apply_chat_template terminators generation
           message (VRef r) temperature max_new_tokens h).2 conversation
      = Some (spec_conversation
                (replicate (length entries) (VStr "role", VStr "content")) message).
Proof.
  intros Hr Hall.
  assert (Hun : Forall2 (unpacks h) entries
                  (replicate (length entries) (VStr "role", VStr "content"))).
  { clear Hr. induction Hall as [|v entries Hv Hall IH]; simpl; constructor; [| done].
    by apply message_dict_unpacks. }
  destruct (build_conversation_unpacks h r entries message _ Hr Hun)
    as (conversation & h1 & Hrun & Hread & _).
  exists conversation. rewrite chat_heap, Hrun. simpl. split; [| done].
  unfold chat_llama3_8b. rewrite Hrun.
  destruct (apply_chat_template h1 conversation) as [input_ids|e]; [| done].
  destruct (generation _) as [chunks fin].
  by destruct (stream_loop chunks fin []).
Qed.

Lemma chat_messages_history_uses_keys_witness :
  ∃ conversation : ref,
    head (calls (chat_llama3_8b (list Z) Demo.template0 Demo.terminators0 Demo.generation_ok
                   (VStr "next") (VRef 1%positive) 0.5%float 4096 Samples.heap_messages).1)
      = Some (ApplyChatTemplate conversation)
    ∧ read_conversation
        (chat_llama3_8b (list Z) Demo.template0 Demo.terminators0 Demo.generation_ok
           (VStr "next") (VRef 1%positive) 0.5%float 4096 Samples.heap_messages).2 conversation
      = Some [(VStr "user", VStr "role"); (VStr "assistant", VStr "content");
              (VStr "user", VStr "role"); (VStr "assistant", VStr "content");
              (VStr "user", VStr "next")].
Proof.
  apply (chat_messages_history_uses_keys (list Z) Demo.template0 Demo.terminators0
           Demo.generation_ok (VStr "next") 0.5%float 4096 Samples.heap_messages
           1%positive [VRef 2%positive; VRef 3%positive]).
  - reflexivity.
  - repeat constructor.
    + by exists 2%positive, (VStr "user"), (VStr "hi").
    + by exists 3%positive, (VStr "assistant"), (VStr "hello").
Defined.

(** X11. An exception out of the streamer that is not an [Exception]
    ([KeyboardInterrupt], [SystemExit]) is not caught: after the running
    concatenations of the chunks received it leaves the generator, and the
    error text is not yielded. *)
Theorem chat_streaming_interrupt_escapes
    (Tensor : Type) (apply_chat_template : gmap ref object -> ref -> result Tensor)
    (terminators : list Z)
    (generation : gmap string (kwarg Tensor) -> list string * stream_end)
    (message history : value) (temperature : float) (max_new_tokens : Z)
    (h h1 : gmap ref object) (conversation : ref) (input_ids : Tensor)
    (chunks : list string) (e : exc) :
  build_conversation history message h = (Ok conversation, h1) ->
  apply_chat_template h1 conversation = Ok input_ids ->
  generation (make_generate_kwargs Tensor terminators input_ids temperature max_new_tokens)
    = (chunks, Raises e) ->
  isinstance_Exception e = false ->
  escaped (chat_llama3_8b Tensor apply_chat_template terminators generation
             message history temperature max_new_tokens h).1 = Some e
  ∧ yields (chat_llama3_8b Tensor apply_chat_template terminators generation
              message history temperature max_new_tokens h).1
    = map (fun k => join (take k chunks)) (seq 1 (length chunks)).
Proof.
  intros Hb Ht Hg He.
  rewrite (chat_run_streaming _ _ _ _ _ _ _ _ _ _ _ _ _ _ Hb Ht Hg).
  rewrite stream_loop_spec. simpl. by rewrite He, app_nil_r.
Qed.

Lemma chat_streaming_interrupt_escapes_witness :
  escaped (chat_llama3_8b (list Z) Demo.template0 Demo.terminators0
             Samples.generation_interrupted
             (VStr "next") (VRef 1%positive) 0.5%float 4096 Demo.heap0).1
    = Some KeyboardInterrupt
  ∧ yields (chat_llama3_8b (list Z) Demo.template0 Demo.terminators0
              Samples.generation_interrupted
              (VStr "next") (VRef 1%positive) 0.5%float 4096 Demo.heap0).1
    = ["v 0 0"].
Proof.
  exact (chat_streaming_interrupt_escapes (list Z) Demo.template0 Demo.terminators0
           Samples.generation_interrupted (VStr "next") (VRef 1%positive) 0.5%float 4096
           Demo.heap0
           (build_conversation (VRef 1%positive) (VStr "next") Demo.heap0).2
           4%positive [128000; 882; 128007]%Z ["v 0 0"] KeyboardInterrupt
           eq_refl eq_refl eq_refl eq_refl).
Defined.

(** X12. In every run [model.generate] is started at most once, and only
    after the chat template was applied to the conversation; a run that
    does not get that far yields nothing and ends with an exception. *)
Theorem chat_generate_at_most_once
    (Tensor : Type) (apply_chat_template : gmap ref object -> ref -> result Tensor)
    (terminators : list Z)
    (generation : gmap string (kwarg Tensor) -> list string * stream_end)
    (message history : value) (temperature : float) (max_new_tokens : Z)
    (h : gmap ref object) :
  let run := chat_llama3_8b Tensor apply_chat_template terminators generation
               message history temperature max_new_tokens h in
  (calls run.1 = [] ∧ yields run.1 = [] ∧ is_Some (escaped run.1))
  ∨ (∃ conversation,
       calls run.1 = [ApplyChatTemplate conversation]
       ∧ yields run.1 = [] ∧ is_Some (escaped run.1))
  ∨ (∃ conversation input_ids,
       calls run.1
       = [ApplyChatTemplate conversation;
          Generate (make_generate_kwargs Tensor terminators input_ids
                      temperature max_new_tokens)]
       ∧ apply_chat_template run.2 conversation = Ok input_ids).
Proof.
  unfold chat_llama3_8b.
  destruct (build_conversation history message h) as [[conversation|e] h1];
    [| left; by eauto].
  destruct (apply_chat_template h1 conversation) as [input_ids|e] eqn:Ht.
  - destruct (generation _) as [chunks fin].
    destruct (stream_loop chunks fin []) as [ys esc].
    right. right. by exists conversation, input_ids.
  - right. left. exists conversation. by eauto.
Qed.

(** X13. [generate_kwargs] always has exactly six entries; forcing
    [do_sample] for a zero temperature adds and removes none, and the
    input ids, the streamer, [max_new_tokens] and the terminators are
    passed as they are. *)
Theorem generate_kwargs_entries
    (Tensor : Type) (terminators : list Z)
    (input_ids : Tensor) (temperature : float) (max_new_tokens : Z) :
  let kw := make_generate_kwargs Tensor terminators input_ids temperature max_new_tokens in
  dom kw = list_to_set ["input_ids"; "streamer"; "max_new_tokens"; "do_sample";
                        "temperature"; "eos_token_id"]
  ∧ kw !! "input_ids" = Some (KTensor input_ids)
  ∧ kw !! "streamer" = Some KStreamer
  ∧ kw !! "max_new_tokens" = Some (KInt max_new_tokens)
  ∧ kw !! "eos_token_id" = Some (KIds terminators).
Proof.
  unfold make_generate_kwargs.
  destruct (temperature =? 0)%float; simpl.
  - split; [rewrite !dom_insert_L; set_solver |].
    repeat split; repeat (rewrite lookup_insert_ne by done); by rewrite lookup_insert_eq.
  - split; [rewrite !dom_insert_L; set_solver |].
    repeat split; repeat (rewrite lookup_insert_ne by done); by rewrite lookup_insert_eq.
Qed.

(** X14. Event by event, a run iterated to exhaustion yields, calls and
    ends as [chat_llama3_8b] above does, and [optimize_memory()] runs
    exactly when no exception leaves the generator: then its effects are
    the last events, after every yield, and before them the run does
    nothing to the outside but print.  A run that ends with an exception
    never reaches [optimize_memory()]. *)
Theorem chat_cleanup_after_last_yield
    (Tensor : Type) (apply_chat_template : gmap ref object -> ref -> result Tensor)
    (terminators : list Z)
    (generation : gmap string (kwarg Tensor) -> list string * stream_end)
    (device_text : string) (shape_text : Tensor -> string) (exc_text : exc -> string)
    (format_mb : Z -> string) (platform : platform_info)
    (message history : value) (temperature : float) (max_new_tokens : Z)
    (h : gmap ref object) :
  let trace := chat_llama3_8b_events Tensor apply_chat_template terminators generation
                 device_text shape_text exc_text format_mb platform
                 message history temperature max_new_tokens h in
  let run := chat_llama3_8b Tensor apply_chat_template terminators generation
               message history temperature max_new_tokens h in
  yields_of trace.1.1 = yields run.1
  ∧ calls_of trace.1.1 = calls run.1
  ∧ trace.1.2 = escaped run.1
  ∧ trace.2 = run.2
  ∧ (trace.1.2 = None ->
       ∃ before,
         trace.1.1 = before ++ map Effect (optimize_memory format_mb platform)
         ∧ yields_of before = yields run.1
         ∧ Forall (fun e => is_print e = true) (effects_of before))
  ∧ (trace.1.2 ≠ None ->
       Forall (fun e => is_print e = true) (effects_of trace.1.1)).
Proof.
  unfold chat_llama3_8b_events, chat_llama3_8b.
  destruct (build_conversation history message h) as [[conversation|e] h1];
    [| simpl; repeat split; [done | by repeat constructor]].
  destruct (apply_chat_template h1 conversation) as [input_ids|e];
    [| simpl; repeat split; [done | by repeat constructor]].
  destruct (generation _) as [chunks fin].
  destruct (stream_events_spec Tensor exc_text chunks fin []) as (Hy & He & Hc & Hp).
  destruct (stream_events Tensor exc_text chunks fin []) as [streamed esc].
  destruct (stream_loop chunks fin []) as [ys esc'].
  simpl in Hy, He, Hc, Hp. subst ys esc'.
  destruct esc as [e|]; cbn [fst snd yields calls escaped].
  - rewrite !app_nil_r, !yields_of_app, !calls_of_app, !effects_of_app. simpl.
    rewrite Hc. repeat split; [done | intros _; by repeat constructor].
  - rewrite !yields_of_app, !calls_of_app, yields_of_effects, calls_of_effects.
    simpl. rewrite Hc, !app_nil_r.
    repeat split; [| done].
    intros _.
    exists ([Effect (Print ("Model is on device: " +:+ device_text));
             Called (ApplyChatTemplate conversation);
             Effect (Print ("Input shape: " +:+ shape_text input_ids));
             Effect (Print "Starting generation...");
             Called (Generate (make_generate_kwargs Tensor terminators input_ids
                                 temperature max_new_tokens))] ++ streamed).
    split; [by rewrite <- app_assoc |].
    rewrite yields_of_app, effects_of_app. simpl. split; [done |]. by repeat constructor.
Qed.

(** ** The diagnostics *)

